(** * Evolutionary operators on Dollo trees (dollo_node_operators.py)

    A shallow embedding of the operator module of AlgoLab/cancer_gp and a
    verification of its specification.

    Python objects live in a heap and are handled through references.  The
    heap is split by class: [BitArray] and [ReadElement] objects live in an
    object heap ([heap]), [DolloNode] objects in a node store ([tstore]).
    Addresses are indices; an allocation appends, nothing is ever freed.

    Functions that touch the heap are written in a state-and-exception monad
    [M]: a computation takes the current heap and produces a [result]
    (a value, or the Python exception that was raised) and the heap it left
    behind.

    The numbers of the evaluator (Python's [int] and [float]) are idealised
    as rationals [Q].  The draw of [random.random()] and the quotient it is
    compared with are binary64 numbers, as in Python ([PrimFloat]).

    The classes [DolloNode] (dollo_node.py) and [ReadElement]
    (read_element.py) are not part of the operator module.  Their methods
    are taken as parameters (class [DolloNodeMethods]); [ReadElement] is a
    plain record of an identifier and two references.  The memoisation of
    [dolo_closest_node_distance] ([lru_cache]) is not modelled: every call
    is computed.  What is proved of the evaluator is true of the calls that
    are computed, and of the cached ones as long as the tree and the reads
    have not changed since their answers were cached.  Output
    written with [print] is not modelled either. *)

From Stdlib Require Import QArith Lqa Ascii.
From Stdlib Require Uint63 PrimFloat.
From stdpp Require Import base list strings gmap.

Set Warnings "-clear-no-such-hyp,-register-all".

Open Scope Q_scope.

(** ** Exceptions and the monad *)

Inductive exn : Type :=
| AttributeError
| TypeError
| IndexError
| CountError
| LoopError.

Inductive result (A : Type) : Type :=
| Ok (a : A)
| Raise (e : exn).
Arguments Ok {A} a.
Arguments Raise {A} e.

Definition M (S A : Type) : Type := S → result A * S.

Definition ret {S A} (a : A) : M S A := λ s, (Ok a, s).
Definition raise {S A} (e : exn) : M S A := λ s, (Raise e, s).
Definition bind {S A B} (c : M S A) (k : A → M S B) : M S B :=
  λ s, match c s with
       | (Ok a, s') => k a s'
       | (Raise e, s') => (Raise e, s')
       end.

#[export] Instance M_ret {S} : MRet (M S) := λ A, @ret S A.
#[export] Instance M_bind {S} : MBind (M S) := λ A B k c, bind c k.

(** [for x in xs: acc = body x acc], an exception leaves the loop. *)
Fixpoint for_each {S A B} (xs : list A) (acc : B) (body : A → B → M S B)
  : M S B :=
  match xs with
  | [] => mret acc
  | x :: xs' => acc' ← body x acc; for_each xs' acc' body
  end.

(** [range(a, b)] *)
Definition range (a b : nat) : list nat := seq a (b - a).

(** ** Values, objects and heaps *)

Abbreviation loc := nat (only parsing).

(** What can stand in the [alpha] and [individual] argument positions:
    a number or a reference to a tree node. *)
Inductive pyval : Type :=
| VNum (q : Q)
| VNode (l : loc).

Inductive pyobj : Type :=
| OBitArray (bits : list bool)
| OReadElement (read_label : string) (binary_read unknown_read : loc).

Abbreviation heap := (list pyobj) (only parsing).

(** A node of an anytree tree: its own attributes, the reference to its
    parent and the references to its children, in order. *)
Record DolloNode : Type := mkDolloNode {
  node_label : string;
  binary_tag : list bool;
  parent : option loc;
  children : list loc
}.

Abbreviation tstore := (list DolloNode) (only parsing).

(** What a method that is handed a [ReadElement] can read off it. *)
Record ReadView : Type := mkReadView {
  rv_label : string;
  rv_binary : list bool;
  rv_unknown : list bool
}.

(** A partition map: plus label to a list of sets of labels. *)
Abbreviation partition := (gmap string (list (gset string))) (only parsing).

(** The methods of [DolloNode] the operators call. *)
Class DolloNodeMethods : Type := {
  closest_node_in_tree : tstore → loc → ReadView → loc * Q;
  tree_is_equal : tstore → loc → option loc → result bool;
  tree_get_partition : tstore → loc → partition → partition;
  tree_compact_vertical : tstore → loc → tstore;
  tree_compact_horizontal : tstore → loc → tstore;
  tree_rearange_by_label : tstore → loc → tstore;
  tree_set_binary_tags : tstore → loc → list string → tstore
}.

(** ** Primitive operations on the object heap *)

Definition alloc (o : pyobj) : M heap loc :=
  λ h, (Ok (length h), h ++ [o]).

(** [read.binary_read] *)
Definition get_binary_read (r : loc) : M heap loc :=
  λ h, match h !! r with
       | Some (OReadElement _ b _) => (Ok b, h)
       | _ => (Raise AttributeError, h)
       end.

(** [read.unknown_read] *)
Definition get_unknown_read (r : loc) : M heap loc :=
  λ h, match h !! r with
       | Some (OReadElement _ _ u) => (Ok u, h)
       | _ => (Raise AttributeError, h)
       end.

(** the bits held by a [BitArray] object *)
Definition get_bits (b : loc) : M heap (list bool) :=
  λ h, match h !! b with
       | Some (OBitArray bits) => (Ok bits, h)
       | _ => (Raise AttributeError, h)
       end.

(** [b.length] *)
Definition bitarray_length (b : loc) : M heap nat :=
  bits ← get_bits b; mret (length bits).

(** [b[i]] *)
Definition bitarray_get (b : loc) (i : nat) : M heap bool :=
  bits ← get_bits b;
  match bits !! i with
  | Some x => mret x
  | None => raise IndexError
  end.

(** [b[i] = v], in place *)
Definition bitarray_set (b : loc) (i : nat) (v : bool) : M heap unit :=
  λ h, match h !! b with
       | Some (OBitArray bits) =>
           if decide (i < length bits)%nat
           then (Ok tt, <[b := OBitArray (<[i := v]> bits)]> h)
           else (Raise IndexError, h)
       | _ => (Raise TypeError, h)
       end.

(** [BitArray(src)]: a new object with a copy of the bits of [src] *)
Definition new_BitArray (src : loc) : M heap loc :=
  bits ← get_bits src; alloc (OBitArray bits).

(** Modelled from the spec: the constructor of [ReadElement]
    (read_element.py), which builds a read from an identifier, a bit vector
    and an unknown mask; the new object keeps the two references it is
    given. *)
Definition new_ReadElement (label : string) (b u : loc) : M heap loc :=
  alloc (OReadElement label b u).

(** the view of a read that is passed to a method *)
Definition view (r : loc) : M heap ReadView :=
  λ h, match h !! r with
       | Some (OReadElement l b u) =>
           match h !! b, h !! u with
           | Some (OBitArray bits), Some (OBitArray ubits) =>
               (Ok (mkReadView l bits ubits), h)
           | _, _ => (Raise AttributeError, h)
           end
       | _ => (Raise AttributeError, h)
       end.

(** [x * y] on the values that reach it: a number times a number; a
    [DolloNode] has no multiplication. *)
Definition py_mul {S} (x : Q) (y : pyval) : M S Q :=
  match y with
  | VNum a => mret (x * a)
  | VNode _ => raise TypeError
  end.

(** ** The evaluator *)

Section Evaluator.
Context `{DolloNodeMethods}.
Variable ts : tstore.

Definition dolo_closest_node_distance (individual : pyval) (read : loc)
  : M heap (loc * Q) :=
  match individual with
  | VNode t => rv ← view read; mret (closest_node_in_tree ts t rv)
  | VNum _ => raise AttributeError
  end.

Definition dollo_evaluate_direct_level0
    (reads : list loc) (alpha individual : pyval) : M heap Q :=
  for_each reads 0 (λ read objection_value,
    '(node, d) ← dolo_closest_node_distance individual read;
    mret (objection_value + d)).

Definition dollo_evaluate_direct_level1
    (reads : list loc) (alpha individual : pyval) : M heap Q :=
  objection_value ← dollo_evaluate_direct_level0 reads alpha individual;
  for_each reads objection_value (λ read objection_value,
    b ← get_binary_read read;
    n ← bitarray_length b;
    for_each (range 0 n) objection_value (λ i objection_value,
      b ← get_binary_read read;
      bi ← bitarray_get b i;
      if bi : bool then
        src ← get_binary_read read;
        read2 ← new_BitArray src;
        _ ← bitarray_set read2 i false;
        u ← get_unknown_read read;
        re2 ← new_ReadElement "XXX2" read2 u;
        '(node, d) ← dolo_closest_node_distance individual re2;
        t ← py_mul d alpha;
        mret (objection_value + t)
      else mret objection_value)).

Definition dollo_evaluate_direct_level2
    (reads : list loc) (alpha individual : pyval) : M heap Q :=
  objection_value ← dollo_evaluate_direct_level1 reads alpha individual;
  for_each reads objection_value (λ read objection_value,
    b ← get_binary_read read;
    n ← bitarray_length b;
    for_each (range 0 n) objection_value (λ i objection_value,
      b ← get_binary_read read;
      n ← bitarray_length b;
      for_each (range (i + 1) n) objection_value (λ j objection_value,
        b ← get_binary_read read;
        bi ← bitarray_get b i;
        bj ← (if bi : bool
              then b ← get_binary_read read; bitarray_get b j
              else mret false);
        if bj : bool then
          src ← get_binary_read read;
          read2 ← new_BitArray src;
          _ ← bitarray_set read2 i false;
          _ ← bitarray_set read2 j false;
          u ← get_unknown_read read;
          re2 ← new_ReadElement "XXX2" read2 u;
          '(node, d) ← dolo_closest_node_distance individual re2;
          t ← py_mul d alpha;
          t ← py_mul t alpha;
          mret (objection_value + t)
        else mret objection_value))).

Definition dollo_evaluate_direct_level3
    (reads : list loc) (alpha individual : pyval) : M heap Q :=
  objection_value ← dollo_evaluate_direct_level2 reads alpha individual;
  for_each reads objection_value (λ read objection_value,
    b ← get_binary_read read;
    n ← bitarray_length b;
    for_each (range 0 n) objection_value (λ i objection_value,
      b ← get_binary_read read;
      n ← bitarray_length b;
      for_each (range (i + 1) n) objection_value (λ j objection_value,
        b ← get_binary_read read;
        n ← bitarray_length b;
        for_each (range (j + 1) n) objection_value (λ k objection_value,
          b ← get_binary_read read;
          bi ← bitarray_get b i;
          bj ← (if bi : bool
                then b ← get_binary_read read; bitarray_get b j
                else mret false);
          bk ← (if bj : bool
                then b ← get_binary_read read; bitarray_get b k
                else mret false);
          if bk : bool then
            src ← get_binary_read read;
            read2 ← new_BitArray src;
            _ ← bitarray_set read2 i false;
            _ ← bitarray_set read2 j false;
            _ ← bitarray_set read2 k false;
            u ← get_unknown_read read;
            re2 ← new_ReadElement "XXX2" read2 u;
            '(node, d) ← dolo_closest_node_distance individual re2;
            t ← py_mul d alpha;
            t ← py_mul t alpha;
            mret (objection_value + t)
          else mret objection_value)))).

(** The arguments are handed on in the order they are received; in the
    level function the second parameter is [alpha] and the third is
    [individual].  The one-element tuple is a one-element list. *)
Definition evaluate_dollo_node_individual
    (reads : list loc) (individual alpha : pyval) : M heap (list Q) :=
  v ← dollo_evaluate_direct_level2 reads individual alpha;
  mret [v].

End Evaluator.

(** ** Values computed by the evaluator

    The value each level computes, as a function of the views of the reads:
    the same folds as the loops of the source, without the heap. *)

(** the number, the node behind a value (0 when there is none) *)
Definition num_of (v : pyval) : Q :=
  match v with VNum q => q | VNode _ => 0 end.

Definition node_of (v : pyval) : loc :=
  match v with VNode l => l | VNum _ => O end.

(** [alpha] is a number and [individual] a node *)
Definition well_typed (alpha individual : pyval) : Prop :=
  (∃ a, alpha = VNum a) ∧ (∃ t, individual = VNode t).

Section EvaluatorValues.
Context `{DolloNodeMethods}.
Variable ts : tstore.

Definition dist (t : loc) (rv : ReadView) : Q :=
  snd (closest_node_in_tree ts t rv).

(** the bits with the positions [ps] set to 0 *)
Definition cleared (bits : list bool) (ps : list nat) : list bool :=
  foldl (λ bs p, <[p := false]> bs) bits ps.

(** the read handed to the closest-node query for a perturbation *)
Definition flipped (rv : ReadView) (ps : list nat) : ReadView :=
  mkReadView "XXX2" (cleared (rv_binary rv) ps) (rv_unknown rv).

Definition bit (rv : ReadView) (i : nat) : bool :=
  default false (rv_binary rv !! i).

Definition width (rv : ReadView) : nat := length (rv_binary rv).

Definition extra1 (a : Q) (t : loc) (rv : ReadView) (acc : Q) : Q :=
  fold_left (λ acc i,
    if bit rv i then acc + dist t (flipped rv [i]) * a else acc)
    (range 0 (width rv)) acc.

Definition extra2 (a : Q) (t : loc) (rv : ReadView) (acc : Q) : Q :=
  fold_left (λ acc i,
    fold_left (λ acc j,
      if bit rv i && bit rv j
      then acc + dist t (flipped rv [i; j]) * a * a else acc)
      (range (i + 1) (width rv)) acc)
    (range 0 (width rv)) acc.

Definition extra3 (a : Q) (t : loc) (rv : ReadView) (acc : Q) : Q :=
  fold_left (λ acc i,
    fold_left (λ acc j,
      fold_left (λ acc k,
        if bit rv i && bit rv j && bit rv k
        then acc + dist t (flipped rv [i; j; k]) * a * a else acc)
        (range (j + 1) (width rv)) acc)
      (range (i + 1) (width rv)) acc)
    (range 0 (width rv)) acc.

Definition level0_value (t : loc) (rvs : list ReadView) : Q :=
  fold_left (λ acc rv, acc + dist t rv) rvs 0.

Definition level1_value (a : Q) (t : loc) (rvs : list ReadView) : Q :=
  fold_left (λ acc rv, extra1 a t rv acc) rvs (level0_value t rvs).

Definition level2_value (a : Q) (t : loc) (rvs : list ReadView) : Q :=
  fold_left (λ acc rv, extra2 a t rv acc) rvs (level1_value a t rvs).

Definition level3_value (a : Q) (t : loc) (rvs : list ReadView) : Q :=
  fold_left (λ acc rv, extra3 a t rv acc) rvs (level2_value a t rvs).

(** *** The level-3 terms as the specification words them

    The positions whose bit is set, the unordered triples of them, and the
    sum of the weighted distances over the triples. *)

Definition set_positions (rv : ReadView) : list nat :=
  filter (λ i, bit rv i = true) (seq 0 (width rv)).

(** the sublists of [l] of length [n], each in the order of [l] *)
Fixpoint combinations {A} (n : nat) (l : list A) : list (list A) :=
  match n, l with
  | O, _ => [[]]
  | S _, [] => []
  | S n', x :: l' =>
      map (cons x) (combinations n' l') ++ combinations n l'
  end.

Definition Qsum (l : list Q) : Q := fold_right Qplus 0 l.

Definition triple_terms (a : Q) (t : loc) (rv : ReadView) : Q :=
  Qsum (map (λ ps, dist t (flipped rv ps) * (a * a))
            (combinations 3 (set_positions rv))).

Definition level3_terms (a : Q) (t : loc) (rvs : list ReadView) : Q :=
  Qsum (map (triple_terms a t) rvs).

End EvaluatorValues.

(** *** Nested loops over the positions after the current one *)

(** [for x in l: acc = g x (the elements of l after x) acc] *)
Fixpoint fold_tails {B} (g : nat → list nat → B → B) (l : list nat) (acc : B)
  : B :=
  match l with
  | [] => acc
  | x :: l' => fold_tails g l' (g x l' acc)
  end.

(** [n] loops, each over the positions after the position of the loop
    around it; the innermost adds the weight [w] of the chosen positions
    when the bit [b] is set at all of them. *)
Fixpoint nest (b : nat → bool) (w : list nat → Q) (n : nat)
    (pre : list nat) (c : bool) (l : list nat) (acc : Q) : Q :=
  match n with
  | O => if c then acc + w pre else acc
  | S n' =>
      fold_tails (λ x l' acc, nest b w n' (pre ++ [x]) (c && b x) l' acc)
                 l acc
  end.

(** the sum of the weights [w] of the choices of [n] positions of [l]
    whose bit [b] is set, each after the positions [pre] *)
Definition chosen (b : nat → bool) (w : list nat → Q) (n : nat)
    (pre l : list nat) : Q :=
  Qsum (map (λ ps, w (pre ++ ps))
            (combinations n (filter (λ i, b i = true) l))).

(** ** Well-formed reads and what an evaluation adds to the heap *)

(** [r] refers to a read whose two fields refer to bit arrays *)
Definition is_view (h : heap) (r : loc) (rv : ReadView) : Prop :=
  ∃ b u, h !! r = Some (OReadElement (rv_label rv) b u)
       ∧ h !! b = Some (OBitArray (rv_binary rv))
       ∧ h !! u = Some (OBitArray (rv_unknown rv)).

Definition reads_ok (h : heap) (reads : list loc) (rvs : list ReadView)
  : Prop :=
  Forall2 (is_view h) reads rvs.

(** An object made during an evaluation over [reads] that started in [h0]:
    a bit array, or a read called XXX2 around a bit array made during the
    evaluation and the unknown mask of one of [reads]. *)
Definition made_by_evaluation (h0 : heap) (reads : list loc) (o : pyobj)
  : Prop :=
  match o with
  | OBitArray _ => True
  | OReadElement l b u =>
      l = "XXX2"%string ∧ (length h0 ≤ b)%nat ∧
      ∃ r l0 b0, r ∈ reads ∧ h0 !! r = Some (OReadElement l0 b0 u)
  end.

(** [h] is [h0] followed by objects made during an evaluation *)
Definition grown (h0 : heap) (reads : list loc) (h : heap) : Prop :=
  ∃ ext, h = h0 ++ ext ∧ Forall (made_by_evaluation h0 reads) ext.

(** The outcome of a computation: the invariant [I] holds of the final heap,
    a returned value is [v], and nothing is raised when [T] holds. *)
Definition post {A} (T : Prop) (I : heap → Prop) (v : A)
    (out : result A * heap) : Prop :=
  I (snd out) ∧
  match fst out with
  | Ok r => r = v
  | Raise _ => ¬ T
  end.

(** the heaps the four levels leave behind *)
Definition final_heaps `{DolloNodeMethods} (ts : tstore)
    (reads : list loc) (alpha individual : pyval) (h : heap) : list heap :=
  [ snd (dollo_evaluate_direct_level0 ts reads alpha individual h);
    snd (dollo_evaluate_direct_level1 ts reads alpha individual h);
    snd (dollo_evaluate_direct_level2 ts reads alpha individual h);
    snd (dollo_evaluate_direct_level3 ts reads alpha individual h) ].

(** *** The perturbed reads an evaluation builds

    A perturbed read is built from a read of the list: a new bit array
    that holds the bits of the read with some of its set positions cleared,
    and a new read called XXX2 that refers to the new array and to the
    unknown mask of the read it was built from.  A perturbation is the read
    it is built from, the view of that read and the positions cleared. *)

(** [read.unknown_read], for a read that exists *)
Definition unknown_of (h : heap) (r : loc) : loc :=
  match h !! r with
  | Some (OReadElement _ _ u) => u
  | _ => O
  end.

(** the perturbations with [n] positions cleared, in the order of the
    loops: read by read, the positions in increasing order *)
Definition perturbations (n : nat) (reads : list loc) (rvs : list ReadView)
  : list (loc * ReadView * list nat) :=
  flat_map (λ x, map (pair x) (combinations n (set_positions (snd x))))
           (zip reads rvs).

(** level [n] starts with level [n - 1] *)
Definition perturbations_upto (level : nat) (reads : list loc)
    (rvs : list ReadView) : list (loc * ReadView * list nat) :=
  flat_map (λ n, perturbations n reads rvs) (seq 1 level).

(** the two objects of a perturbed read, allocated at the end of [h];
    [h0] is the heap the evaluation started in *)
Definition perturbed_read (h0 h : heap) (it : loc * ReadView * list nat)
  : list pyobj :=
  [ OBitArray (cleared (rv_binary (snd (fst it))) (snd it));
    OReadElement "XXX2" (length h) (unknown_of h0 (fst (fst it))) ].

Definition with_perturbed (h0 : heap)
    (made : list (loc * ReadView * list nat)) (h : heap) : heap :=
  fold_left (λ h it, h ++ perturbed_read h0 h it) made h.

(** The outcome of a computation that started in [h]: the perturbed reads
    of [made] were built, in this order; these are the perturbations [its]
    when a value is returned, the first of them when an exception is
    raised, which does not happen when [T] holds. *)
Definition emitted {A} (T : Prop) (h0 : heap)
    (its : list (loc * ReadView * list nat)) (h : heap)
    (out : result A * heap) : Prop :=
  ∃ made, snd out = with_perturbed h0 made h
          ∧ match fst out with
            | Ok _ => made = its
            | Raise _ => ¬ T ∧ made `prefix_of` its
            end.

(** [g x l'] for every element [x] of [l] and the elements [l'] after it *)
Fixpoint tails_map {B} (g : nat → list nat → list B) (l : list nat)
  : list B :=
  match l with
  | [] => []
  | x :: l' => g x l' ++ tails_map g l'
  end.

(** the positions chosen by [n] loops, each over the positions after the
    position of the loop around it, when the bit [b] is set at all of
    them *)
Fixpoint picks (b : nat → bool) (n : nat) (pre : list nat) (c : bool)
    (l : list nat) : list (list nat) :=
  match n with
  | O => if c then [pre] else []
  | S n' => tails_map (λ x l', picks b n' (pre ++ [x]) (c && b x) l') l
  end.

(** a computation that leaves the heap alone and raises only when [T]
    does not hold *)
Definition harmless {A B} (T : Prop) (k : A → M heap B) : Prop :=
  ∀ x h, snd (k x h) = h ∧ ∀ e, fst (k x h) = Raise e → ¬ T.

(** ** The world of the structural operators

    Crossover and mutation work on the node store and draw from the global
    pseudo-random generator.  The generator is a stream of raw draws and the
    number of draws consumed so far. *)

Record world : Type := mkWorld {
  nodes : tstore;
  draws : nat → N;
  drawn : nat
}.

Definition set_nodes (s : tstore) (w : world) : world :=
  mkWorld s (draws w) (drawn w).

Definition advance (w : world) : world :=
  mkWorld (nodes w) (draws w) (S (drawn w)).

(** a method that neither changes the store nor draws *)
Definition query {A} (f : tstore → result A) : M world A :=
  λ w, (f (nodes w), w).

(** a method that normalises the store in place *)
Definition update (f : tstore → tstore) : M world unit :=
  λ w, (Ok tt, set_nodes (f (nodes w)) w).

(** [random.choice(seq)]: IndexError on an empty sequence *)
Definition random_choice {A} (xs : list A) : M world A :=
  λ w, match xs with
       | [] => (Raise IndexError, w)
       | x :: _ =>
           let i := N.to_nat (draws w (drawn w) mod N.of_nat (length xs)) in
           (Ok (nth i xs x), advance w)
       end.

(** a Python [int] as a [float]; exact below 2^53 *)
Definition float_of_Z (z : Z) : PrimFloat.float :=
  PrimFloat.of_uint63 (Uint63.of_Z z).

(** [random.random()]: a binary64 number [k / 2^53] in [0, 1) *)
Definition random_random : M world PrimFloat.float :=
  λ w, (Ok (PrimFloat.div
              (float_of_Z (Z.of_N (draws w (drawn w) mod 2 ^ 53)))
              (float_of_Z (2 ^ 53))),
        advance w).

(** *** anytree *)

(** [PreOrderIter(n)]: the node, then the subtrees of its children in
    order.  A tree over a store of [length s] nodes is no deeper than
    [length s]. *)
Fixpoint preorder (fuel : nat) (s : tstore) (n : loc) : list loc :=
  match fuel with
  | O => []
  | S fuel' =>
      match s !! n with
      | None => []
      | Some nd => n :: flat_map (preorder fuel' s) (children nd)
      end
  end.

Definition PreOrderIter (s : tstore) (n : loc) : list loc :=
  preorder (length s) s n.

(** [n.descendants]: all nodes below [n] *)
Definition descendants (n : loc) : M world (list loc) :=
  λ w, (Ok (tail (PreOrderIter (nodes w) n)), w).

Definition has_label (s : tstore) (lab : string) (n : loc) : Prop :=
  node_label <$> s !! n = Some lab.

#[export] Instance has_label_dec s lab n : Decision (has_label s lab n).
Proof. unfold has_label. apply _. Defined.

(** [search.find(n, lambda node: node.node_label == lab)]: the one node
    with that label in the tree under [n], [None] when there is none,
    CountError when there are several. *)
Definition find (n : loc) (lab : string) : M world (option loc) :=
  λ w, match filter (has_label (nodes w) lab) (PreOrderIter (nodes w) n) with
       | [] => (Ok None, w)
       | [m] => (Ok (Some m), w)
       | _ => (Raise CountError, w)
       end.

(** [n.parent], where [n] may be [None] *)
Definition get_parent (n : option loc) : M world (option loc) :=
  λ w, match n with
       | None => (Raise AttributeError, w)
       | Some n =>
           match nodes w !! n with
           | Some nd => (Ok (parent nd), w)
           | None => (Raise AttributeError, w)
           end
       end.

(** [n.iter_path_reverse()]: the node and its ancestors, upwards *)
Fixpoint path_reverse (fuel : nat) (s : tstore) (n : loc) : list loc :=
  match fuel with
  | O => []
  | S fuel' =>
      n :: match s !! n with
           | Some (mkDolloNode _ _ (Some p) _) => path_reverse fuel' s p
           | _ => []
           end
  end.

(** the check of anytree before a node gets a new parent *)
Definition makes_loop (s : tstore) (n : loc) (value : option loc) : bool :=
  match value with
  | None => false
  | Some p =>
      bool_decide (p = n) || bool_decide (n ∈ path_reverse (length s) s p)
  end.

Definition with_parent (p : option loc) (nd : DolloNode) : DolloNode :=
  mkDolloNode (node_label nd) (binary_tag nd) p (children nd).

Definition with_children (cs : list loc) (nd : DolloNode) : DolloNode :=
  mkDolloNode (node_label nd) (binary_tag nd) (parent nd) cs.

(** [n] leaves the children of its parent.  anytree asserts here that [n]
    is one of these children; it is, in a store where the parent
    references and the children lists agree ([forest]). *)
Definition detach (n : loc) (old : option loc) (s : tstore) : tstore :=
  match old with
  | None => s
  | Some p =>
      alter (with_parent None) n
        (alter (λ nd, with_children (filter (λ c, c ≠ n) (children nd)) nd)
               p s)
  end.

(** [n] becomes the last child of its new parent *)
Definition attach (n : loc) (value : option loc) (s : tstore) : tstore :=
  match value with
  | None => s
  | Some p =>
      alter (with_parent (Some p)) n
        (alter (λ nd, with_children (children nd ++ [n]) nd) p s)
  end.

(** [n.parent = value] *)
Definition set_parent (n : loc) (value : option loc) : M world unit :=
  λ w, match nodes w !! n with
       | None => (Raise AttributeError, w)
       | Some nd =>
           if decide (parent nd = value) then (Ok tt, w)
           else if makes_loop (nodes w) n value then (Raise LoopError, w)
           else (Ok tt,
                 set_nodes (attach n value (detach n (parent nd) (nodes w)))
                           w)
       end.

(** *** copy.deepcopy *)

(** The nodes reachable from the nodes in [todo] through parent and
    children references, after those in [seen], in the order they are
    met. *)
Fixpoint reach (fuel : nat) (s : tstore) (todo seen : list loc) : list loc :=
  match fuel with
  | O => seen
  | S fuel' =>
      match todo with
      | [] => seen
      | n :: todo' =>
          if decide (n ∈ seen) then reach fuel' s todo' seen
          else match s !! n with
               | None => reach fuel' s todo' seen
               | Some nd =>
                   reach fuel' s
                     (option_list (parent nd) ++ children nd ++ todo')
                     (seen ++ [n])
               end
      end
  end.

(** every visit takes one step and schedules at most a parent and the
    children of the node *)
Definition reach_fuel (s : tstore) : nat :=
  S (sum_list (map (λ nd, 2 + length (children nd))%nat s)).

Definition component (s : tstore) (n : loc) : list loc :=
  reach (reach_fuel s) s [n] [].

Fixpoint index_of (x : loc) (l : list loc) : option nat :=
  match l with
  | [] => None
  | y :: l' => if decide (x = y) then Some O else S <$> index_of x l'
  end.

(** where the copy of a node goes *)
Definition renaming (base : nat) (comp : list loc) (x : loc) : loc :=
  match index_of x comp with
  | Some i => (base + i)%nat
  | None => x
  end.

Definition rename (ρ : loc → loc) (nd : DolloNode) : DolloNode :=
  mkDolloNode (node_label nd) (binary_tag nd)
              (ρ <$> parent nd) (ρ <$> children nd).

Definition copies (s : tstore) (ρ : loc → loc) (comp : list loc)
  : list DolloNode :=
  omap (λ x, rename ρ <$> s !! x) comp.

(** [copy.deepcopy(n)]: every node of the tree of [n] is copied to a new
    object, the references between them follow; the copy of [n] is
    returned. *)
Definition deepcopy (n : loc) : M world loc :=
  λ w, let s := nodes w in
       match s !! n with
       | None => (Raise AttributeError, w)
       | Some _ =>
           let comp := component s n in
           let ρ := renaming (length s) comp in
           (Ok (ρ n), set_nodes (s ++ copies s ρ comp) w)
       end.

(** an object that did not exist in [w] *)
Definition made_after (w : world) (c : loc) : Prop :=
  (length (nodes w) <= c)%nat.

(** [n] has a child that exists *)
Definition has_child (s : tstore) (n : loc) : Prop :=
  ∃ nd ch, s !! n = Some nd ∧ ch ∈ children nd ∧ is_Some (s !! ch).

(** ** Crossover *)

(** [x[-1]] *)
Definition last_char (x : string) : option Ascii.ascii :=
  last (String.list_ascii_of_string x).

Definition set_consits_of_plus_lebels {S} (list_of_sets : list (gset string))
  : M S (gset string) :=
  for_each list_of_sets (∅ : gset string) (λ s ret,
    for_each (elements s) ret (λ x ret,
      match last_char x with
      | None => raise IndexError
      | Some c =>
          if decide (c = "+"%char) then mret ({[x]} ∪ ret) else mret ret
      end)).

Definition sets_are_equal (set1 set2 : gset string) : bool :=
  if negb (forallb (λ x, bool_decide (x ∈ set2)) (elements set1)) then false
  else if negb (forallb (λ x, bool_decide (x ∈ set1)) (elements set2))
       then false
       else true.

Section Operators.
Context `{DolloNodeMethods}.

(** The loop over the labels of [dollo_crossover_exchange_subtrees]; the
    value is the flag [ret] when the loop is left. *)
Fixpoint exchange_loop (labels : list string) (part1 part2 : partition)
    (individual1_n individual2_n : loc) (todo : list string)
  : M world bool :=
  match todo with
  | [] => mret false
  | lab :: todo' =>
      let continue :=
        exchange_loop labels part1 part2 individual1_n individual2_n todo' in
      let lab := (lab +:+ "+")%string in
      match part1 !! lab with
      | None => continue
      | Some covered1 =>
          set_covered1 ← set_consits_of_plus_lebels covered1;
          if decide (size set_covered1 = 0)%nat then continue else
          match part2 !! lab with
          | None => continue
          | Some covered2 =>
              set_covered2 ← set_consits_of_plus_lebels covered2;
              if decide (size set_covered2 = 0)%nat then continue else
              if negb (sets_are_equal set_covered1 set_covered2)
              then continue else
              node1 ← find individual1_n lab;
              node2 ← find individual2_n lab;
              match node1 with
              | None => raise AttributeError
              | Some n1 =>
                  same ← query (λ s, tree_is_equal s n1 node2);
                  if same : bool then continue else
                  parent1 ← get_parent node1;
                  parent2 ← get_parent node2;
                  match node2 with
                  | None => raise AttributeError
                  | Some n2 =>
                      _ ← set_parent n1 parent2;
                      _ ← set_parent n2 parent1;
                      _ ← update (λ s, tree_compact_vertical s n1);
                      _ ← update (λ s, tree_compact_horizontal s n1);
                      _ ← update (λ s, tree_rearange_by_label s n1);
                      _ ← update (λ s, tree_set_binary_tags s n1 labels);
                      _ ← update (λ s, tree_compact_vertical s n2);
                      _ ← update (λ s, tree_compact_horizontal s n2);
                      _ ← update (λ s, tree_rearange_by_label s n2);
                      _ ← update (λ s, tree_set_binary_tags s n2 labels);
                      mret true
                  end
              end
          end
      end
  end.

Definition dollo_crossover_exchange_subtrees
    (labels : list string) (individual1 individual2 : loc)
  : M world (bool * loc * loc) :=
  same ← query (λ s, tree_is_equal s individual1 (Some individual2));
  if same : bool then mret (false, individual1, individual2) else
  individual1_n ← deepcopy individual1;
  individual2_n ← deepcopy individual2;
  part1 ← query (λ s, Ok (tree_get_partition s individual1_n ∅));
  part2 ← query (λ s, Ok (tree_get_partition s individual2_n ∅));
  ret ← exchange_loop labels part1 part2 individual1_n individual2_n labels;
  mret (ret, individual1_n, individual2_n).

(** [random01 < len(labels) / float(1 + len(descendants))], a division and
    a comparison of binary64 numbers *)
Definition label_is_plus (random01 : PrimFloat.float) (labels : list string)
    (desc : list loc) : bool :=
  PrimFloat.ltb random01
    (PrimFloat.div (float_of_Z (Z.of_nat (length labels)))
                   (float_of_Z (Z.of_nat (1 + length desc)))).

Definition dollo_crossover_exchange_edge
    (labels : list string) (individual1 individual2 : loc)
  : M world (bool * loc * loc) :=
  same ← query (λ s, tree_is_equal s individual1 (Some individual2));
  if same : bool then mret (false, individual1, individual2) else
  individual1_n ← deepcopy individual1;
  individual2_n ← deepcopy individual2;
  random_label ← random_choice labels;
  random01 ← random_random;
  desc ← descendants individual1_n;
  if label_is_plus random01 labels desc then
    let random_label := (random_label +:+ "+")%string in
    node1 ← find individual1_n random_label;
    node2 ← find individual2_n random_label;
    _ ← get_parent node1;
    _ ← get_parent node2;
    mret (true, individual1_n, individual2_n)
  else
    mret (true, individual1_n, individual2_n).

Definition crossover_dollo_node_individuals
    (labels : list string) (individual1 individual2 : loc)
  : M world (loc * loc) :=
  '(success, individual1_new, individual2_new) ←
    dollo_crossover_exchange_subtrees labels individual1 individual2;
  if success : bool then mret (individual1_new, individual2_new) else
  '(success, individual1_new, individual2_new) ←
    dollo_crossover_exchange_edge labels individual1 individual2;
  if success : bool then mret (individual1_new, individual2_new) else
  individual1n ← deepcopy individual1;
  individual2n ← deepcopy individual2;
  mret (individual1n, individual2n).

(** *** The subtree exchange as the specification words it

    A label qualifies when its plus variant is a key of both partition
    maps, the plus labels covered on the two sides are the same non-empty
    set, and the two nodes that carry the label are not structurally
    equal.  The exchange is made at the first label that qualifies. *)

Definition is_plus (x : string) : Prop := last_char x = Some "+"%char.

#[export] Instance is_plus_dec x : Decision (is_plus x).
Proof. unfold is_plus. apply _. Defined.

Definition plus_labels (covered : list (gset string)) : gset string :=
  filter is_plus (⋃ covered).

(** the one node with the label in the tree under [n] *)
Definition matched (s : tstore) (n : loc) (lab : string) : option loc :=
  match filter (has_label s lab) (PreOrderIter s n) with
  | [m] => Some m
  | _ => None
  end.

(** the guard on the partition maps *)
Definition covered_alike (part1 part2 : partition) (lab : string) : bool :=
  match part1 !! (lab +:+ "+")%string, part2 !! (lab +:+ "+")%string with
  | Some covered1, Some covered2 =>
      bool_decide (plus_labels covered1 ≠ ∅)
      && bool_decide (plus_labels covered2 ≠ ∅)
      && bool_decide (plus_labels covered1 = plus_labels covered2)
  | _, _ => false
  end.

Definition qualifies (s : tstore) (part1 part2 : partition)
    (individual1_n individual2_n : loc) (lab : string) : bool :=
  covered_alike part1 part2 lab
  && match matched s individual1_n (lab +:+ "+")%string,
           matched s individual2_n (lab +:+ "+")%string with
     | Some n1, Some n2 =>
         match tree_is_equal s n1 (Some n2) with
         | Ok false => true
         | _ => false
         end
     | _, _ => false
     end.

(** swapping the parents of the two nodes, then normalising the two
    subtrees *)
Definition exchange (labels : list string) (n1 n2 : loc) : M world unit :=
  parent1 ← get_parent (Some n1);
  parent2 ← get_parent (Some n2);
  _ ← set_parent n1 parent2;
  _ ← set_parent n2 parent1;
  _ ← update (λ s, tree_compact_vertical s n1);
  _ ← update (λ s, tree_compact_horizontal s n1);
  _ ← update (λ s, tree_rearange_by_label s n1);
  _ ← update (λ s, tree_set_binary_tags s n1 labels);
  _ ← update (λ s, tree_compact_vertical s n2);
  _ ← update (λ s, tree_compact_horizontal s n2);
  _ ← update (λ s, tree_rearange_by_label s n2);
  update (λ s, tree_set_binary_tags s n2 labels).

Definition exchange_at (labels : list string)
    (individual1_n individual2_n : loc) (lab : string) : M world unit :=
  λ w, match matched (nodes w) individual1_n (lab +:+ "+")%string,
             matched (nodes w) individual2_n (lab +:+ "+")%string with
       | Some n1, Some n2 => exchange labels n1 n2 w
       | _, _ => (Raise AttributeError, w)
       end.

(** What the guards need of the trees: no empty label in the covered
    sets, and, where the partition maps agree on a label, one node with
    that label in either tree and an answer of the equality test on
    them. *)
Definition guards_defined (s : tstore) (part1 part2 : partition)
    (individual1_n individual2_n : loc) (lab : string) : Prop :=
  (∀ part covered c, part ∈ [part1; part2] →
     part !! (lab +:+ "+")%string = Some covered → c ∈ covered →
     ""%string ∉ c)
  ∧ (covered_alike part1 part2 lab = true →
     ∃ n1 n2 b,
       matched s individual1_n (lab +:+ "+")%string = Some n1
       ∧ matched s individual2_n (lab +:+ "+")%string = Some n2
       ∧ tree_is_equal s n1 (Some n2) = Ok b).

(** ** Mutation *)

Definition dollo_mutation_node_add
    (labels : list string) (k : nat) (individual : loc)
  : M world (bool * loc) :=
  individual_n ← deepcopy individual;
  desc ← descendants individual_n;
  random_parent ← random_choice desc;
  random_label ← random_choice labels;
  random01 ← random_random;
  desc ← descendants individual_n;
  let random_label :=
    if label_is_plus random01 labels desc
    then (random_label +:+ "+")%string
    else (random_label +:+ "-")%string in
  mret (false, individual_n).

(** The one-element tuple is a one-element list. *)
Definition mutate_dollo_node_individual
    (labels : list string) (k : nat) (individual : loc)
  : M world (list loc) :=
  '(success, individual_new) ← dollo_mutation_node_add labels k individual;
  if success : bool then mret [individual_new]
  else
    individual_n ← deepcopy individual;
    mret [individual_n].

End Operators.

(** ** The assignment of reads *)

Section Assignment.
Context `{DolloNodeMethods}.
Variable ts : tstore.

(** [root.closest_node_in_tree(read)], called on whatever [root] is *)
Definition call_closest_node_in_tree (root : pyval) (read : loc)
  : M heap (loc * Q) :=
  match root with
  | VNode t => rv ← view read; mret (closest_node_in_tree ts t rv)
  | VNum _ => raise AttributeError
  end.

(** The dictionary of the assignment has the reads as keys; a key is the
    read object itself (the class is taken to compare and hash its objects
    as Python does by default, by identity). *)
Definition assign_reads_to_dollo_tree (root : pyval) (reads : list loc)
  : M heap (gmap loc loc * Q) :=
  for_each reads ((∅ : gmap loc loc), 0) (λ read state,
    let '(complete_assignment, total_distance) := state in
    '(node, d) ← call_closest_node_in_tree root read;
    mret (<[read := node]> complete_assignment, total_distance + d)).

End Assignment.

(** ** The mutations that are not attempted *)

Definition dollo_mutation_node_remove
    (labels : list string) (k : nat) (individual : loc)
  : M world (bool * loc) :=
  individual_n ← deepcopy individual;
  mret (false, individual_n).

Definition dollo_mutation_node_promote
    (labels : list string) (k : nat) (level : nat) (individual : loc)
  : M world (bool * loc) :=
  individual_n ← deepcopy individual;
  mret (false, individual_n).

Definition dollo_mutation_node_demote
    (labels : list string) (k : nat) (level : nat) (individual : loc)
  : M world (bool * loc) :=
  individual_n ← deepcopy individual;
  mret (false, individual_n).

(** ** The perturbation terms of one level

    The sum, over the choices of [n] positions whose bit is set in the
    read, of the closest-node distance of the read with these bits cleared,
    times [weight]. *)

Section LevelTerms.
Context `{DolloNodeMethods}.
Variable ts : tstore.

Definition subset_terms (n : nat) (weight : Q) (t : loc) (rv : ReadView)
  : Q :=
  Qsum (map (λ ps, dist ts t (flipped rv ps) * weight)
            (combinations n (set_positions rv))).

Definition level_terms (n : nat) (weight : Q) (t : loc)
    (rvs : list ReadView) : Q :=
  Qsum (map (subset_terms n weight t) rvs).

End LevelTerms.

(** ** The generator is left alone *)

(** nothing was drawn between [w] and [w'] *)
Definition same_rng (w w' : world) : Prop :=
  draws w' = draws w ∧ drawn w' = drawn w.

Definition keeps_rng {A} (c : M world A) : Prop :=
  ∀ w, same_rng w (snd (c w)).

(** ** The component that [copy.deepcopy] copies

    What the search for the component has still to pay for: two steps
    and one step for every child of each node it has not seen. *)

Definition node_weight (s : tstore) (x : loc) : nat :=
  match s !! x with
  | Some nd => 2 + length (children nd)
  | None => 0
  end.

Definition unseen_weight (s : tstore) (seen : list loc) : nat :=
  sum_list (map (λ x, if decide (x ∈ seen) then 0%nat else node_weight s x)
                (seq 0 (length s))).

Definition closed_upto (s : tstore) (seen todo : list loc) : Prop :=
  ∀ x nd y, x ∈ seen → s !! x = Some nd →
    y ∈ option_list (parent nd) ++ children nd → is_Some (s !! y) →
    y ∈ seen ∨ y ∈ todo.


(** *** The tree under a node

    The labelled tree a node unfolds to along the children references:
    the label and the tag of the node and the trees of its children, in
    order.  Two nodes with the same tree are structurally equal. *)

Inductive shape : Type :=
| Shape (label : string) (tag : list bool) (subtrees : list shape).

Fixpoint unfold_tree (fuel : nat) (s : tstore) (n : loc) : option shape :=
  match fuel with
  | O => None
  | S fuel' =>
      nd ← s !! n;
      subs ← mapM (unfold_tree fuel' s) (children nd);
      Some (Shape (node_label nd) (binary_tag nd) subs)
  end.

(** A tree over a store of [length s] nodes is no deeper than
    [length s]; there is no tree when a reference leads nowhere or the
    children references go round in a circle. *)
Definition tree_shape (s : tstore) (n : loc) : option shape :=
  unfold_tree (length s) s n.

(** ** Trees that are linked well

    In a store kept by anytree the parent reference of a node and the
    children lists agree, every reference leads to a node, and following
    the parent references never comes back to a node: there is a rank
    that decreases from a node to its parent. *)

Definition node_ok (rank : loc → nat) (s : tstore) (n : loc)
    (nd : DolloNode) : bool :=
  match parent nd with
  | None => true
  | Some p =>
      bool_decide (rank p < rank n)%nat
      && match s !! p with
         | Some pd => bool_decide (n ∈ children pd)
         | None => false
         end
  end
  && forallb (λ ch, match s !! ch with
                    | Some cd => bool_decide (parent cd = Some n)
                    | None => false
                    end) (children nd).

Definition forest_by (rank : loc → nat) (s : tstore) : bool :=
  forallb (λ n, match s !! n with
                | Some nd => node_ok rank s n nd
                | None => true
                end) (seq 0 (length s)).

Definition forest (s : tstore) : Prop := ∃ rank, forest_by rank s = true.

Definition well_linked (rank : loc → nat) (s : tstore) : Prop :=
  ∀ n nd, s !! n = Some nd →
    (∀ p, parent nd = Some p →
       (rank p < rank n)%nat ∧ ∃ pd, s !! p = Some pd ∧ n ∈ children pd)
    ∧ (∀ ch, ch ∈ children nd →
         ∃ cd, s !! ch = Some cd ∧ parent cd = Some n).

(** the references of the nodes at the addresses from [lo] up to [hi]
    stay within these addresses *)
Definition inside (lo hi : nat) (s : tstore) : Prop :=
  ∀ j nd, (lo <= j < hi)%nat → s !! j = Some nd →
    (∀ p, parent nd = Some p → (lo <= p < hi)%nat)
    ∧ (∀ ch, ch ∈ children nd → (lo <= ch < hi)%nat).

(** the rank of the nodes of a store after a copy was added to it *)
Definition copy_rank (rank : loc → nat) (base : nat) (comp : list loc)
    (j : loc) : nat :=
  if decide (j < base)%nat then rank j
  else match comp !! (j - base)%nat with
       | Some x => rank x
       | None => O
       end.

(** *** The exchange of two subtrees *)

(** the node [x] after [n] was moved from under [old] to under [new]:
    [n] has a new parent, [old] has lost the child [n] and [new] has it as
    its last child *)
Definition relinked (n : loc) (old new : option loc) (x : loc)
    (nd : DolloNode) : DolloNode :=
  if decide (x = n) then with_parent new nd
  else if decide (old = Some x)
       then with_children (filter (λ c, c ≠ n) (children nd)) nd
       else if decide (new = Some x)
            then with_children (children nd ++ [n]) nd
            else nd.

(** [s'] is [s] after the nodes [n1] and [n2] have changed places: each
    hangs under the former parent of the other, as its last child, with
    the subtree it had; all other nodes are as they were. *)
Definition exchanged (s s' : tstore) (n1 n2 : loc) : Prop :=
  length s' = length s
  ∧ ∃ nd1 nd2,
      s !! n1 = Some nd1 ∧ s !! n2 = Some nd2
      ∧ s' !! n1 = Some (with_parent (parent nd2) nd1)
      ∧ s' !! n2 = Some (with_parent (parent nd1) nd2)
      ∧ (∀ p pd, parent nd1 = Some p → s !! p = Some pd →
           s' !! p = Some (with_children
                             (filter (λ c, c ≠ n1) (children pd) ++ [n2])
                             pd))
      ∧ (∀ p pd, parent nd2 = Some p → s !! p = Some pd →
           s' !! p = Some (with_children
                             (filter (λ c, c ≠ n2) (children pd) ++ [n1])
                             pd))
      ∧ (∀ x, x ≠ n1 → x ≠ n2 → parent nd1 ≠ Some x →
              parent nd2 ≠ Some x → s' !! x = s !! x).

(** the compaction and regularisation of the subtree at [n] *)
Definition regularise `{DolloNodeMethods} (labels : list string) (n : loc)
    (s : tstore) : tstore :=
  tree_set_binary_tags
    (tree_rearange_by_label
       (tree_compact_horizontal (tree_compact_vertical s n) n) n)
    n labels.

(** the labels the loop gets to: those up to the first that qualifies *)
Fixpoint tried (qualifies : string → bool) (labels : list string)
  : list string :=
  match labels with
  | [] => []
  | lab :: labels' =>
      lab :: (if qualifies lab then [] else tried qualifies labels')
  end.

(** ** A reference implementation of the tree methods

    Used to run the operators on concrete trees. *)

Module Reference.

(** the positions, not marked unknown, where the read and the tag differ *)
Fixpoint mismatches (bits unknown tag : list bool) : nat :=
  match bits, unknown, tag with
  | b :: bits', u :: unknown', x :: tag' =>
      ((if negb u && xorb b x then 1 else 0)
       + mismatches bits' unknown' tag')%nat
  | _, _, _ => O
  end.

Definition distance (s : tstore) (rv : ReadView) (n : loc) : nat :=
  match s !! n with
  | Some nd => mismatches (rv_binary rv) (rv_unknown rv) (binary_tag nd)
  | None => O
  end.

(** Modelled from the spec: [closest_node_in_tree] of DolloNode
    (dollo_node.py): the node of the tree with the least distance to the
    read, positions marked unknown ignored, the first such node in
    traversal order. *)
Definition closest (s : tstore) (n : loc) (rv : ReadView) : loc * Q :=
  let best :=
    fold_left (λ best m,
      if (distance s rv m <? distance s rv best)%nat then m else best)
      (PreOrderIter s n) n in
  (best, inject_Z (Z.of_nat (distance s rv best))).

Fixpoint equal_trees (fuel : nat) (s : tstore) (n m : loc) : bool :=
  match fuel with
  | O => true
  | S fuel' =>
      match s !! n, s !! m with
      | Some a, Some b =>
          bool_decide (node_label a = node_label b)
          && bool_decide (length (children a) = length (children b))
          && forallb (λ p, equal_trees fuel' s p.1 p.2)
                     (zip (children a) (children b))
      | _, _ => false
      end
  end.

(** Modelled from the spec: [tree_is_equal] of DolloNode (dollo_node.py):
    the two trees have the same labels in the same shape. *)
Definition is_equal (s : tstore) (n : loc) (other : option loc)
  : result bool :=
  match other with
  | None => Raise AttributeError
  | Some m => Ok (equal_trees (length s) s n m)
  end.

Definition labels_under (s : tstore) (n : loc) : gset string :=
  list_to_set (omap (λ m, node_label <$> s !! m) (PreOrderIter s n)).

(** Modelled from the spec: [tree_get_partition] of DolloNode
    (dollo_node.py): every plus label of the tree is mapped to the labels
    in the subtree of its node. *)
Definition get_partition (s : tstore) (n : loc) (acc : partition)
  : partition :=
  foldr (λ m p,
    match s !! m with
    | Some nd =>
        if decide (last_char (node_label nd) = Some "+"%char)
        then <[node_label nd := [labels_under s m]]> p
        else p
    | None => p
    end) acc (PreOrderIter s n).

(** Modelled from the spec: the normalisations of DolloNode
    (dollo_node.py), [tree_compact_vertical], [tree_compact_horizontal],
    [tree_rearange_by_label] and [tree_set_binary_tags]; here they take
    every tree as already normal. *)
Definition normalise (s : tstore) (n : loc) : tstore := s.

#[export] Instance methods : DolloNodeMethods := {|
  closest_node_in_tree := closest;
  tree_is_equal := is_equal;
  tree_get_partition := get_partition;
  tree_compact_vertical := normalise;
  tree_compact_horizontal := normalise;
  tree_rearange_by_label := normalise;
  tree_set_binary_tags := λ s n _, normalise s n
|}.

(** *** Sample data *)

(** two reads over three labels: 111 with nothing unknown, 011 with the
    first position unknown *)
Definition sample_heap : heap :=
  [ OBitArray [true; true; true]; OBitArray [false; false; false];
    OReadElement "r1" 0 1;
    OBitArray [false; true; true]; OBitArray [true; false; false];
    OReadElement "r2" 3 4 ].

Definition sample_reads : list loc := [2; 5]%nat.

Definition sample_views : list ReadView :=
  [ mkReadView "r1" [true; true; true] [false; false; false];
    mkReadView "r2" [false; true; true] [true; false; false] ].

(** the tree  -- (a+ (b+), c+)  at 0, the tree  -- (a+, c+ (b+))  at 4
    and a tree of a single node at 8 *)
Definition sample_nodes : tstore :=
  [ mkDolloNode "--" [false; false; false] None [1; 3]%nat;
    mkDolloNode "a+" [true; false; false] (Some 0%nat) [2%nat];
    mkDolloNode "b+" [true; true; false] (Some 1%nat) [];
    mkDolloNode "c+" [false; false; true] (Some 0%nat) [];
    mkDolloNode "--" [false; false; false] None [5; 6]%nat;
    mkDolloNode "a+" [true; false; false] (Some 4%nat) [];
    mkDolloNode "c+" [false; false; true] (Some 4%nat) [7%nat];
    mkDolloNode "b+" [false; true; true] (Some 6%nat) [];
    mkDolloNode "--" [false; false; false] None [] ].

Definition sample_world : world := mkWorld sample_nodes (λ n, N.of_nat n) O.

(** the heap after a level-3 evaluation of the sample reads *)
Definition sample_final_heap : heap :=
  snd (dollo_evaluate_direct_level3 sample_nodes sample_reads (VNum (1 # 2))
         (VNode 0%nat) sample_heap).

(** the sample world after a deep copy of the tree at 0: the tree at 0
    and its copy at 9 are two objects with the same structure *)
Definition twin_world : world := snd (deepcopy 0%nat sample_world).

(** the chain  -- (a+ (b+ (c+)))  at 0 and the tree  -- (a+ (b+, c+))
    at 4 *)
Definition chain_nodes : tstore :=
  [ mkDolloNode "--" [false; false; false] None [1%nat];
    mkDolloNode "a+" [true; false; false] (Some 0%nat) [2%nat];
    mkDolloNode "b+" [true; true; false] (Some 1%nat) [3%nat];
    mkDolloNode "c+" [true; true; true] (Some 2%nat) [];
    mkDolloNode "--" [false; false; false] None [5%nat];
    mkDolloNode "a+" [true; false; false] (Some 4%nat) [6; 7]%nat;
    mkDolloNode "b+" [true; true; false] (Some 5%nat) [];
    mkDolloNode "c+" [true; false; true] (Some 5%nat) [] ].

Definition chain_world : world := mkWorld chain_nodes (λ n, N.of_nat n) O.

(** the chain world after the copies of the two trees, at 8 and at 12 *)
Definition chain_world1 : world := snd (deepcopy 0%nat chain_world).
Definition chain_world2 : world := snd (deepcopy 4%nat chain_world1).

(** a read without a set bit, and a read whose identifier is not XXX2 *)
Definition blank_heap : heap :=
  [ OBitArray [false; false; false]; OBitArray [false; true; false];
    OReadElement "r0" 0 1 ].

Definition blank_views : list ReadView :=
  [ mkReadView "r0" [false; false; false] [false; true; false] ].

End Reference.

(** * Verification *)

(** ** Running the monad *)

Lemma bind_ok {S A B} (c : M S A) (k : A → M S B) (s s' : S) (a : A) :
  c s = (Ok a, s') → (c ≫= k) s = k a s'.
Proof. intros E. unfold mbind, M_bind, bind. now rewrite E. Qed.

Lemma bind_raise {S A B} (c : M S A) (k : A → M S B) (s s' : S) (e : exn) :
  c s = (Raise e, s') → (c ≫= k) s = (Raise e, s').
Proof. intros E. unfold mbind, M_bind, bind. now rewrite E. Qed.

Lemma mret_run {S A} (a : A) (s : S) : (mret a : M S A) s = (Ok a, s).
Proof. reflexivity. Qed.

Lemma get_binary_read_run (h : heap) r l b u :
  h !! r = Some (OReadElement l b u) → get_binary_read r h = (Ok b, h).
Proof. intros E. unfold get_binary_read. now rewrite E. Qed.

Lemma get_unknown_read_run (h : heap) r l b u :
  h !! r = Some (OReadElement l b u) → get_unknown_read r h = (Ok u, h).
Proof. intros E. unfold get_unknown_read. now rewrite E. Qed.

Lemma get_bits_run (h : heap) b bits :
  h !! b = Some (OBitArray bits) → get_bits b h = (Ok bits, h).
Proof. intros E. unfold get_bits. now rewrite E. Qed.

Lemma bitarray_length_run (h : heap) b bits :
  h !! b = Some (OBitArray bits) →
  bitarray_length b h = (Ok (length bits), h).
Proof.
  intros E. unfold bitarray_length.
  now rewrite (bind_ok _ _ _ _ _ (get_bits_run _ _ _ E)).
Qed.

Lemma bitarray_get_run (h : heap) b bits i x :
  h !! b = Some (OBitArray bits) → bits !! i = Some x →
  bitarray_get b i h = (Ok x, h).
Proof.
  intros E Ei. unfold bitarray_get.
  rewrite (bind_ok _ _ _ _ _ (get_bits_run _ _ _ E)). now rewrite Ei.
Qed.

Lemma new_BitArray_run (h : heap) b bits :
  h !! b = Some (OBitArray bits) →
  new_BitArray b h = (Ok (length h), h ++ [OBitArray bits]).
Proof.
  intros E. unfold new_BitArray.
  now rewrite (bind_ok _ _ _ _ _ (get_bits_run _ _ _ E)).
Qed.

(** Writing a bit of the object allocated last. *)
Lemma bitarray_set_last (h : heap) bits i v :
  (i < length bits)%nat →
  bitarray_set (length h) i v (h ++ [OBitArray bits])
  = (Ok tt, h ++ [OBitArray (<[i := v]> bits)]).
Proof.
  intros Hi. unfold bitarray_set.
  rewrite lookup_app_r by lia. rewrite Nat.sub_diag. simpl.
  destruct (decide (i < length bits)%nat) as [_|]; [|lia].
  f_equal. rewrite insert_app_r_alt by lia. now rewrite Nat.sub_diag.
Qed.

Lemma view_run (h : heap) r rv :
  is_view h r rv → view r h = (Ok rv, h).
Proof.
  intros (b & u & Er & Eb & Eu). unfold view. rewrite Er, Eb, Eu.
  now destruct rv.
Qed.

Lemma is_view_app (h ext : heap) r rv :
  is_view h r rv → is_view (h ++ ext) r rv.
Proof.
  intros (b & u & Er & Eb & Eu). exists b, u.
  repeat split; now apply lookup_app_l_Some.
Qed.

(** ** Loops *)

Lemma post_ret {A} (T : Prop) (I : heap → Prop) (v : A) h :
  I h → post T I v ((mret v : M heap A) h).
Proof. intros. now split. Qed.

Lemma post_bind {A B} (T : Prop) (I : heap → Prop) (c : M heap A)
    (k : A → M heap B) (a : A) (v : B) h :
  post T I a (c h) →
  (∀ h', I h' → post T I v (k a h')) →
  post T I v ((c ≫= k) h).
Proof.
  intros [HI Hr] Hk. unfold mbind, M_bind, bind.
  destruct (c h) as [[r|e] h']; simpl in *.
  - subst r. now apply Hk.
  - now split.
Qed.

Lemma for_each_cons {S A B} (x : A) xs (acc : B) (body : A → B → M S B) :
  for_each (x :: xs) acc body
  = (body x acc ≫= λ acc', for_each xs acc' body).
Proof. reflexivity. Qed.

Lemma for_each_post2 {A C B} (T : Prop) (I : heap → Prop) (R : A → C → Prop)
    (f : B → C → B) (body : A → B → M heap B) xs ys :
  Forall2 R xs ys →
  (∀ x y acc h, R x y → I h → post T I (f acc y) (body x acc h)) →
  ∀ acc h, I h → post T I (fold_left f ys acc) (for_each xs acc body h).
Proof.
  intros HR Hbody. induction HR as [|x y xs ys Hxy _ IH]; intros acc h HI.
  - now apply post_ret.
  - rewrite for_each_cons. simpl.
    eapply post_bind; [apply Hbody; [exact Hxy|exact HI]|].
    intros h' HI'. now apply IH.
Qed.

Lemma for_each_post {A B} (T : Prop) (I : heap → Prop)
    (f : B → A → B) (body : A → B → M heap B) xs :
  (∀ x acc h, x ∈ xs → I h → post T I (f acc x) (body x acc h)) →
  ∀ acc h, I h → post T I (fold_left f xs acc) (for_each xs acc body h).
Proof.
  intros Hbody.
  apply (for_each_post2 T I (λ x y, x = y ∧ x ∈ xs)).
  - apply Forall2_same_length_lookup_2; [reflexivity|].
    intros i x y Hx Hy. rewrite Hx in Hy. injection Hy as <-.
    split; [reflexivity|]. now apply list_elem_of_lookup_2 in Hx.
  - intros x y acc h [<- Hx]. now apply Hbody.
Qed.

Lemma elem_of_range (a b i : nat) : i ∈ range a b ↔ (a ≤ i < b)%nat.
Proof. unfold range. rewrite elem_of_seq. lia. Qed.

(** ** The evaluator computes the level values *)

Section EvaluatorRuns.
Context `{DolloNodeMethods}.
Variable ts : tstore.
Variable h0 : heap.
Variable reads : list loc.
Variables alpha individual : pyval.

Let a : Q := num_of alpha.
Let t : loc := node_of individual.
Let T : Prop := well_typed alpha individual.
Let I : heap → Prop := grown h0 reads.

Lemma grown_refl : I h0.
Proof. exists []. split; [now rewrite app_nil_r|constructor]. Qed.

Lemma grown_view h r rv : I h → is_view h0 r rv → is_view h r rv.
Proof. intros (ext & -> & _). apply is_view_app. Qed.

Lemma closest_post h r rv :
  I h → is_view h r rv →
  post T I (closest_node_in_tree ts t rv)
       (dolo_closest_node_distance ts individual r h).
Proof.
  intros HI Hv. unfold dolo_closest_node_distance.
  destruct individual as [q|l] eqn:E.
  - split; [exact HI|]. simpl. intros [_ [t' Ht']]. discriminate.
  - rewrite (bind_ok _ _ _ _ _ (view_run _ _ _ Hv)). now split.
Qed.

Lemma py_mul_post x h :
  I h → post T I (x * a) (py_mul x alpha h).
Proof.
  intros HI. unfold py_mul. destruct alpha as [q|l] eqn:E.
  - now split.
  - split; [exact HI|]. simpl. intros [[a' Ha'] _]. discriminate.
Qed.

(** The heap after a perturbed read was built on top of [h]. *)
Lemma grown_perturbed h r rv bits' :
  I h → r ∈ reads → is_view h0 r rv →
  ∃ u, h !! u = Some (OBitArray (rv_unknown rv)) ∧
       get_unknown_read r (h ++ [OBitArray bits']) = (Ok u, h ++ [OBitArray bits']) ∧
       I (h ++ [OBitArray bits'; OReadElement "XXX2" (length h) u]) ∧
       is_view (h ++ [OBitArray bits'; OReadElement "XXX2" (length h) u])
               (S (length h)) (mkReadView "XXX2" bits' (rv_unknown rv)).
Proof.
  intros HI Hr Hv. pose proof (grown_view _ _ _ HI Hv) as (b & u & Er & Eb & Eu).
  exists u. split; [exact Eu|]. split.
  { eapply get_unknown_read_run. apply lookup_app_l_Some. exact Er. }
  split.
  - destruct HI as (ext & -> & Hext).
    exists (ext ++ [OBitArray bits'; OReadElement "XXX2" (length (h0 ++ ext)) u]).
    split; [now rewrite <- app_assoc|].
    apply Forall_app. split; [exact Hext|].
    repeat constructor.
    + rewrite length_app. lia.
    + destruct Hv as (b0 & u0 & Er0 & _ & _).
      assert (u0 = u) as ->.
      { apply (lookup_app_l_Some _ ext) in Er0. rewrite Er in Er0. congruence. }
      eauto.
  - exists (length h), u. simpl. repeat split.
    + rewrite lookup_app_r by lia.
      replace (S (length h) - length h)%nat with 1%nat by lia. reflexivity.
    + rewrite lookup_app_r by lia. now rewrite Nat.sub_diag.
    + now apply lookup_app_l_Some.
Qed.

Let R : loc → ReadView → Prop := λ r rv, r ∈ reads ∧ is_view h0 r rv.

Lemma reads_ok_R rvs : reads_ok h0 reads rvs → Forall2 R reads rvs.
Proof.
  intros Hok. apply Forall2_same_length_lookup_2.
  - eapply Forall2_length, Hok.
  - intros i r rv Hr Hrv. split.
    + eapply list_elem_of_lookup_2, Hr.
    + eapply Forall2_lookup_lr; eauto.
Qed.

Lemma closest_dist_post h r rv (acc : Q) :
  I h → is_view h r rv →
  post T I (acc + dist ts t rv)
    (('(node, d) ← dolo_closest_node_distance ts individual r;
      mret (acc + d)) h).
Proof.
  intros HI Hv. eapply post_bind; [exact (closest_post h r rv HI Hv)|].
  intros h' HI'. unfold dist.
  destruct (closest_node_in_tree ts t rv) as [node d]. now split.
Qed.

Lemma level0_post rs rvs h :
  Forall2 R rs rvs → I h →
  post T I (level0_value ts t rvs)
       (dollo_evaluate_direct_level0 ts rs alpha individual h).
Proof.
  intros HR HI. unfold dollo_evaluate_direct_level0, level0_value.
  eapply (for_each_post2 T I R); [exact HR| |exact HI].
  intros r rv acc h' [_ Hv] HI'.
  apply closest_dist_post; [exact HI'|]. now apply grown_view.
Qed.

(** Wrapping the perturbed bits in a read and querying the tree. *)
Lemma perturbed_post h r rv bits' (v : Q) (k : Q → M heap Q) :
  I h → r ∈ reads → is_view h0 r rv →
  (∀ h', I h' →
     post T I v (k (dist ts t (mkReadView "XXX2" bits' (rv_unknown rv))) h')) →
  post T I v
    ((u ← get_unknown_read r;
      re2 ← new_ReadElement "XXX2" (length h) u;
      '(node, d) ← dolo_closest_node_distance ts individual re2;
      k d) (h ++ [OBitArray bits'])).
Proof.
  intros HI Hr Hv Hk.
  destruct (grown_perturbed h r rv bits' HI Hr Hv)
    as (u & Eu & Eg & HI2 & Hv2).
  rewrite (bind_ok _ _ _ _ _ Eg).
  erewrite bind_ok; [|reflexivity]. cbv beta.
  rewrite <- app_assoc, length_app, Nat.add_1_r. simpl app.
  eapply post_bind; [exact (closest_post _ _ _ HI2 Hv2)|].
  intros h' HI'. unfold dist in Hk.
  destruct (closest_node_in_tree ts t _) as [node d]. now apply Hk.
Qed.

Lemma level1_post rvs h :
  Forall2 R reads rvs → I h →
  post T I (level1_value ts a t rvs)
       (dollo_evaluate_direct_level1 ts reads alpha individual h).
Proof.
  intros HR HI. unfold dollo_evaluate_direct_level1, level1_value.
  eapply post_bind; [exact (level0_post _ _ _ HR HI)|]. clear h HI.
  intros h HI.
  eapply (for_each_post2 T I R); [exact HR| |exact HI].
  clear h HI. intros r rv acc h [Hr Hv] HI.
  pose proof (grown_view _ _ _ HI Hv) as (b & u & Er & Eb & Eu).
  rewrite (bind_ok _ _ _ _ _ (get_binary_read_run _ _ _ _ _ Er)).
  rewrite (bind_ok _ _ _ _ _ (bitarray_length_run _ _ _ Eb)).
  unfold extra1, width.
  eapply (for_each_post T I); [|exact HI].
  clear h HI Er Eb Eu. intros i acc' h Hi HI.
  apply elem_of_range in Hi.
  pose proof (grown_view _ _ _ HI Hv) as (b' & u' & Er & Eb & Eu).
  rewrite (bind_ok _ _ _ _ _ (get_binary_read_run _ _ _ _ _ Er)).
  destruct (lookup_lt_is_Some_2 (rv_binary rv) i) as [x Ex]; [lia|].
  rewrite (bind_ok _ _ _ _ _ (bitarray_get_run _ _ _ _ _ Eb Ex)).
  unfold bit. rewrite Ex. simpl. destruct x; [|now apply post_ret].
  rewrite (bind_ok _ _ _ _ _ (get_binary_read_run _ _ _ _ _ Er)).
  rewrite (bind_ok _ _ _ _ _ (new_BitArray_run _ _ _ Eb)).
  assert (Hlt : (i < length (rv_binary rv))%nat) by lia.
  rewrite (bind_ok _ _ _ _ _ (bitarray_set_last h _ i false Hlt)).
  eapply (perturbed_post h r rv); [exact HI|exact Hr|exact Hv|].
  intros h' HI'.
  eapply post_bind; [exact (py_mul_post _ _ HI')|].
  intros h'' HI''. now apply post_ret.
Qed.

(** Reading bit [i] of a well-formed read. *)
Lemma read_bit_run h r rv i :
  I h → is_view h0 r rv → (i < width rv)%nat →
  (b ← get_binary_read r; bitarray_get b i) h = (Ok (bit rv i), h).
Proof.
  intros HI Hv Hi.
  pose proof (grown_view _ _ _ HI Hv) as (b & u & Er & Eb & Eu).
  rewrite (bind_ok _ _ _ _ _ (get_binary_read_run _ _ _ _ _ Er)).
  destruct (lookup_lt_is_Some_2 (rv_binary rv) i) as [x Ex]; [exact Hi|].
  unfold bit. rewrite Ex. simpl. eapply bitarray_get_run; eassumption.
Qed.

(** Reading the width of a well-formed read. *)
Lemma read_width_run h r rv :
  I h → is_view h0 r rv →
  (b ← get_binary_read r; bitarray_length b) h = (Ok (width rv), h).
Proof.
  intros HI Hv.
  pose proof (grown_view _ _ _ HI Hv) as (b & u & Er & Eb & Eu).
  rewrite (bind_ok _ _ _ _ _ (get_binary_read_run _ _ _ _ _ Er)).
  eapply bitarray_length_run; eassumption.
Qed.

(** Copying the bits of a well-formed read into a new bit array. *)
Lemma copy_bits_run h r rv :
  I h → is_view h0 r rv →
  (src ← get_binary_read r; new_BitArray src) h
  = (Ok (length h), h ++ [OBitArray (rv_binary rv)]).
Proof.
  intros HI Hv.
  pose proof (grown_view _ _ _ HI Hv) as (b & u & Er & Eb & Eu).
  rewrite (bind_ok _ _ _ _ _ (get_binary_read_run _ _ _ _ _ Er)).
  eapply new_BitArray_run; eassumption.
Qed.

Lemma bind_assoc {S A B C} (c : M S A) (k : A → M S B) (k' : B → M S C) s :
  ((c ≫= k) ≫= k') s = (c ≫= λ x, k x ≫= k') s.
Proof.
  unfold mbind, M_bind, bind. now destruct (c s) as [[x|e] s'].
Qed.

Lemma bind_ok2 {S A B C} (c : M S A) (k : A → M S B) (k' : B → M S C)
    (s s' : S) (b : B) :
  (c ≫= k) s = (Ok b, s') → (c ≫= λ x, k x ≫= k') s = k' b s'.
Proof. intros E. rewrite <- bind_assoc. now apply bind_ok. Qed.

Lemma level2_post rvs h :
  Forall2 R reads rvs → I h →
  post T I (level2_value ts a t rvs)
       (dollo_evaluate_direct_level2 ts reads alpha individual h).
Proof.
  intros HR HI. unfold dollo_evaluate_direct_level2, level2_value.
  eapply post_bind; [exact (level1_post _ _ HR HI)|]. clear h HI.
  intros h HI.
  eapply (for_each_post2 T I R); [exact HR| |exact HI].
  clear h HI. intros r rv acc h [Hr Hv] HI.
  rewrite (bind_ok2 _ _ _ _ _ _ (read_width_run _ _ _ HI Hv)).
  unfold extra2.
  eapply (for_each_post T I); [|exact HI].
  clear h HI acc. intros i acc h Hi HI. apply elem_of_range in Hi.
  rewrite (bind_ok2 _ _ _ _ _ _ (read_width_run _ _ _ HI Hv)).
  eapply (for_each_post T I); [|exact HI].
  clear h HI acc. intros j acc h Hj HI. apply elem_of_range in Hj.
  rewrite (bind_ok2 _ _ _ _ _ _ (read_bit_run _ _ _ i HI Hv ltac:(lia))).
  destruct (bit rv i); cbv iota; [|rewrite bind_ok with (1:=mret_run _ _); now apply post_ret].
  rewrite (bind_ok _ _ _ _ _ (read_bit_run _ _ _ j HI Hv ltac:(lia))).
  destruct (bit rv j); simpl; [|now apply post_ret].
  rewrite (bind_ok2 _ _ _ _ _ _ (copy_bits_run _ _ _ HI Hv)).
  unfold width in *.
  rewrite (bind_ok _ _ _ _ _
    (bitarray_set_last h (rv_binary rv) i false ltac:(lia))).
  rewrite (bind_ok _ _ _ _ _
    (bitarray_set_last h (<[i:=false]> (rv_binary rv)) j false
       ltac:(rewrite length_insert; lia))).
  eapply (perturbed_post h r rv); [exact HI|exact Hr|exact Hv|].
  intros h' HI'.
  eapply post_bind; [exact (py_mul_post _ _ HI')|]. intros h'' HI''.
  eapply post_bind; [exact (py_mul_post _ _ HI'')|]. intros h3 HI3.
  now apply post_ret.
Qed.

Lemma level3_post rvs h :
  Forall2 R reads rvs → I h →
  post T I (level3_value ts a t rvs)
       (dollo_evaluate_direct_level3 ts reads alpha individual h).
Proof.
  intros HR HI. unfold dollo_evaluate_direct_level3, level3_value.
  eapply post_bind; [exact (level2_post _ _ HR HI)|]. clear h HI.
  intros h HI.
  eapply (for_each_post2 T I R); [exact HR| |exact HI].
  clear h HI. intros r rv acc h [Hr Hv] HI.
  rewrite (bind_ok2 _ _ _ _ _ _ (read_width_run _ _ _ HI Hv)).
  unfold extra3.
  eapply (for_each_post T I); [|exact HI].
  clear h HI acc. intros i acc h Hi HI. apply elem_of_range in Hi.
  rewrite (bind_ok2 _ _ _ _ _ _ (read_width_run _ _ _ HI Hv)).
  eapply (for_each_post T I); [|exact HI].
  clear h HI acc. intros j acc h Hj HI. apply elem_of_range in Hj.
  rewrite (bind_ok2 _ _ _ _ _ _ (read_width_run _ _ _ HI Hv)).
  eapply (for_each_post T I); [|exact HI].
  clear h HI acc. intros k acc h Hk HI. apply elem_of_range in Hk.
  rewrite (bind_ok2 _ _ _ _ _ _ (read_bit_run _ _ _ i HI Hv ltac:(lia))).
  destruct (bit rv i); cbv iota;
    [|rewrite !bind_ok with (1:=mret_run _ _); now apply post_ret].
  rewrite (bind_ok _ _ _ _ _ (read_bit_run _ _ _ j HI Hv ltac:(lia))).
  destruct (bit rv j); cbv iota;
    [|rewrite bind_ok with (1:=mret_run _ _); now apply post_ret].
  rewrite (bind_ok _ _ _ _ _ (read_bit_run _ _ _ k HI Hv ltac:(lia))).
  destruct (bit rv k); simpl; [|now apply post_ret].
  rewrite (bind_ok2 _ _ _ _ _ _ (copy_bits_run _ _ _ HI Hv)).
  unfold width in *.
  rewrite (bind_ok _ _ _ _ _
    (bitarray_set_last h (rv_binary rv) i false ltac:(lia))).
  rewrite (bind_ok _ _ _ _ _
    (bitarray_set_last h (<[i:=false]> (rv_binary rv)) j false
       ltac:(rewrite length_insert; lia))).
  rewrite (bind_ok _ _ _ _ _
    (bitarray_set_last h (<[j:=false]> (<[i:=false]> (rv_binary rv))) k false
       ltac:(rewrite !length_insert; lia))).
  eapply (perturbed_post h r rv); [exact HI|exact Hr|exact Hv|].
  intros h' HI'.
  eapply post_bind; [exact (py_mul_post _ _ HI')|]. intros h'' HI''.
  eapply post_bind; [exact (py_mul_post _ _ HI'')|]. intros h3 HI3.
  now apply post_ret.
Qed.

End EvaluatorRuns.

(** ** Consequences for well-formed reads *)

Lemma post_heap {A} (T : Prop) (I : heap → Prop) (v : A) out :
  post T I v out → I (snd out).
Proof. now intros [HI _]. Qed.

Lemma post_ok {A} (T : Prop) (I : heap → Prop) (v : A) out :
  T → post T I v out → ∃ h', out = (Ok v, h') ∧ I h'.
Proof.
  intros HT [HI Hr]. destruct out as [[r|e] h']; simpl in *.
  - subst r. now exists h'.
  - contradiction.
Qed.

Lemma well_typed_intro a t : well_typed (VNum a) (VNode t).
Proof. split; eauto. Qed.

Section EvaluatorResults.
Context `{DolloNodeMethods}.
Variable ts : tstore.
Variable h : heap.
Variable reads : list loc.
Variable rvs : list ReadView.
Hypothesis Hok : reads_ok h reads rvs.

Lemma level0_run a t :
  ∃ h', dollo_evaluate_direct_level0 ts reads (VNum a) (VNode t) h
        = (Ok (level0_value ts t rvs), h') ∧ grown h reads h'.
Proof.
  apply (post_ok _ _ _ _ (well_typed_intro a t)).
  apply (level0_post ts h reads (VNum a) (VNode t));
    [now apply reads_ok_R|apply grown_refl].
Qed.

Lemma level1_run a t :
  ∃ h', dollo_evaluate_direct_level1 ts reads (VNum a) (VNode t) h
        = (Ok (level1_value ts a t rvs), h') ∧ grown h reads h'.
Proof.
  apply (post_ok _ _ _ _ (well_typed_intro a t)).
  apply (level1_post ts h reads (VNum a) (VNode t));
    [now apply reads_ok_R|apply grown_refl].
Qed.

Lemma level2_run a t :
  ∃ h', dollo_evaluate_direct_level2 ts reads (VNum a) (VNode t) h
        = (Ok (level2_value ts a t rvs), h') ∧ grown h reads h'.
Proof.
  apply (post_ok _ _ _ _ (well_typed_intro a t)).
  apply (level2_post ts h reads (VNum a) (VNode t));
    [now apply reads_ok_R|apply grown_refl].
Qed.

Lemma level3_run a t :
  ∃ h', dollo_evaluate_direct_level3 ts reads (VNum a) (VNode t) h
        = (Ok (level3_value ts a t rvs), h') ∧ grown h reads h'.
Proof.
  apply (post_ok _ _ _ _ (well_typed_intro a t)).
  apply (level3_post ts h reads (VNum a) (VNode t));
    [now apply reads_ok_R|apply grown_refl].
Qed.

(** Whatever stands in the argument positions, the heap only grows. *)
Lemma levels_grown alpha individual :
  grown h reads (snd (dollo_evaluate_direct_level0 ts reads alpha individual h))
  ∧ grown h reads
      (snd (dollo_evaluate_direct_level1 ts reads alpha individual h))
  ∧ grown h reads
      (snd (dollo_evaluate_direct_level2 ts reads alpha individual h))
  ∧ grown h reads
      (snd (dollo_evaluate_direct_level3 ts reads alpha individual h)).
Proof.
  pose proof (reads_ok_R h reads rvs Hok) as HR.
  pose proof (grown_refl h reads) as HI.
  repeat split.
  - eapply post_heap, (level0_post ts h reads alpha individual); eassumption.
  - eapply post_heap, (level1_post ts h reads alpha individual); eassumption.
  - eapply post_heap, (level2_post ts h reads alpha individual); eassumption.
  - eapply post_heap, (level3_post ts h reads alpha individual); eassumption.
Qed.

End EvaluatorResults.

(** ** Adding terms that are not negative *)

Lemma fold_left_increasing {A} (f : Q → A → Q) (l : list A) :
  (∀ acc x, x ∈ l → acc <= f acc x) →
  ∀ acc, acc <= fold_left f l acc.
Proof.
  induction l as [|x l IH]; intros Hf acc; simpl.
  - apply Qle_refl.
  - eapply Qle_trans; [apply (Hf acc x); left|].
    apply IH. intros acc' y Hy. apply Hf. now right.
Qed.

Section Monotone.
Context `{DolloNodeMethods}.
Variable ts : tstore.
Variable a : Q.
Variable t : loc.
Hypothesis Ha : 0 <= a.
Hypothesis Hdist : ∀ rv, 0 <= dist ts t rv.

Lemma weighted_nonneg rv : 0 <= dist ts t rv * a.
Proof. apply Qmult_le_0_compat; [apply Hdist|exact Ha]. Qed.

Lemma weighted2_nonneg rv : 0 <= dist ts t rv * a * a.
Proof. apply Qmult_le_0_compat; [apply weighted_nonneg|exact Ha]. Qed.

Lemma add_nonneg (acc x : Q) (b : bool) :
  0 <= x → acc <= (if b then acc + x else acc).
Proof. intros Hx. destruct b; lra. Qed.

Lemma extra1_increasing rv acc : acc <= extra1 ts a t rv acc.
Proof.
  unfold extra1. apply fold_left_increasing. intros acc' i _.
  apply add_nonneg, weighted_nonneg.
Qed.

Lemma extra2_increasing rv acc : acc <= extra2 ts a t rv acc.
Proof.
  unfold extra2. apply fold_left_increasing. intros acc' i _.
  apply fold_left_increasing. intros acc'' j _.
  apply add_nonneg, weighted2_nonneg.
Qed.

Lemma extra3_increasing rv acc : acc <= extra3 ts a t rv acc.
Proof.
  unfold extra3. apply fold_left_increasing. intros acc' i _.
  apply fold_left_increasing. intros acc'' j _.
  apply fold_left_increasing. intros acc3 k _.
  apply add_nonneg, weighted2_nonneg.
Qed.

Lemma level_values_increasing rvs :
  level0_value ts t rvs <= level1_value ts a t rvs
  ∧ level1_value ts a t rvs <= level2_value ts a t rvs
  ∧ level2_value ts a t rvs <= level3_value ts a t rvs.
Proof.
  repeat split.
  - apply fold_left_increasing. intros. apply extra1_increasing.
  - apply fold_left_increasing. intros. apply extra2_increasing.
  - apply fold_left_increasing. intros. apply extra3_increasing.
Qed.

End Monotone.

(** ** The triple loop and the unordered triples *)

Lemma Qsum_app (l1 l2 : list Q) : Qsum (l1 ++ l2) == Qsum l1 + Qsum l2.
Proof.
  induction l1 as [|x l1 IH]; simpl.
  - lra.
  - rewrite IH. lra.
Qed.

Lemma Qsum_map_ext {A} (f g : A → Q) (l : list A) :
  (∀ x, f x == g x) → Qsum (map f l) == Qsum (map g l).
Proof.
  intros Hfg. induction l as [|x l IH]; simpl.
  - reflexivity.
  - now rewrite IH, Hfg.
Qed.

Lemma fold_range_tails {B} (g : nat → list nat → B → B) (n len : nat) :
  ∀ s acc, (s + len = n)%nat →
    fold_left (λ acc i, g i (range (i + 1) n) acc) (seq s len) acc
    = fold_tails g (seq s len) acc.
Proof.
  induction len as [|len IH]; intros s acc Hs; simpl.
  - reflexivity.
  - rewrite IH by lia.
    assert (range (s + 1) n = seq (S s) len) as ->; [|reflexivity].
    unfold range. f_equal; lia.
Qed.

Lemma fold_range_tails_from {B} (g : nat → list nat → B → B) (s n : nat) acc :
  fold_left (λ acc i, g i (range (i + 1) n) acc) (range s n) acc
  = fold_tails g (range s n) acc.
Proof.
  destruct (decide (s <= n)%nat) as [Hs|Hs].
  - unfold range at 2 3. apply fold_range_tails. lia.
  - unfold range at 2 3. now replace (n - s)%nat with O by lia.
Qed.

Lemma fold_left_eq {A B} (f f' : B → A → B) (l : list A) :
  (∀ acc x, f acc x = f' acc x) →
  ∀ acc, fold_left f l acc = fold_left f' l acc.
Proof.
  intros Hf. induction l as [|x l IH]; intros acc; simpl; [reflexivity|].
  now rewrite Hf, IH.
Qed.

Lemma fold_tails_left {B} (f : B → nat → B) (l : list nat) acc :
  fold_tails (λ x _ acc, f acc x) l acc = fold_left f l acc.
Proof. revert acc. induction l as [|x l IH]; intros acc; simpl; auto. Qed.

Lemma fold_tails_ext {B} (g g' : nat → list nat → B → B) (l : list nat) :
  (∀ x l' acc, g x l' acc = g' x l' acc) →
  ∀ acc, fold_tails g l acc = fold_tails g' l acc.
Proof.
  intros Hg. induction l as [|x l IH]; intros acc; simpl; [reflexivity|].
  now rewrite Hg, IH.
Qed.

Lemma combinations_0 {A} (l : list A) : combinations 0 l = [[]].
Proof. now destruct l. Qed.

Section NestedSum.
Variable b : nat → bool.
Variable w : list nat → Q.

Lemma chosen_cons n pre x l :
  chosen b w (S n) pre (x :: l)
  == (if b x then chosen b w n (pre ++ [x]) l else 0) + chosen b w (S n) pre l.
Proof.
  unfold chosen. rewrite filter_cons.
  destruct (decide (b x = true)) as [E|E].
  - rewrite E. simpl combinations. rewrite map_app, Qsum_app, map_map.
    apply Qplus_comp; [|reflexivity].
    apply Qsum_map_ext. intros ps. now rewrite <- app_assoc.
  - apply not_true_is_false in E. rewrite E. lra.
Qed.

Lemma nest_sum n : ∀ pre c l acc,
  nest b w n pre c l acc == acc + (if c then chosen b w n pre l else 0).
Proof.
  induction n as [|n IHn]; intros pre c l acc.
  - simpl. unfold chosen. rewrite combinations_0. simpl.
    rewrite app_nil_r. destruct c; lra.
  - revert acc. induction l as [|x l IHl]; intros acc.
    + simpl. unfold chosen. simpl. destruct c; lra.
    + simpl nest. simpl in IHl. rewrite IHl, IHn.
      destruct c; simpl.
      * rewrite chosen_cons. lra.
      * lra.
Qed.

End NestedSum.

Section TripleLoop.
Context `{DolloNodeMethods}.
Variable ts : tstore.
Variable a : Q.
Variable t : loc.

Lemma extra3_nest rv acc :
  extra3 ts a t rv acc
  = nest (bit rv) (λ ps, dist ts t (flipped rv ps) * a * a) 3 [] true
         (range 0 (width rv)) acc.
Proof.
  unfold extra3.
  pose (body := λ (i j k : nat) (acc : Q),
    if bit rv i && bit rv j && bit rv k
    then acc + dist ts t (flipped rv [i; j; k]) * a * a else acc).
  pose (inner := λ (i j : nat) (lj : list nat) (acc : Q),
    fold_tails (λ k _ acc, body i j k acc) lj acc).
  pose (middle := λ (i : nat) (li : list nat) (acc : Q),
    fold_tails (inner i) li acc).
  transitivity
    (fold_left (λ acc i, middle i (range (i + 1) (width rv)) acc)
               (range 0 (width rv)) acc).
  - apply fold_left_eq. intros acc' i. unfold middle.
    rewrite <- fold_range_tails_from.
    apply fold_left_eq. intros acc'' j. unfold inner.
    now rewrite fold_tails_left.
  - rewrite fold_range_tails_from. reflexivity.
Qed.

Lemma extra3_terms rv acc :
  extra3 ts a t rv acc == acc + triple_terms ts a t rv.
Proof.
  rewrite extra3_nest, nest_sum. unfold chosen, triple_terms, set_positions.
  unfold range. rewrite Nat.sub_0_r.
  simpl app. apply Qplus_comp; [reflexivity|].
  apply Qsum_map_ext. intros ps. ring.
Qed.

Lemma level3_value_terms rvs :
  level3_value ts a t rvs
  == level2_value ts a t rvs + level3_terms ts a t rvs.
Proof.
  unfold level3_value, level3_terms.
  generalize (level2_value ts a t rvs) as acc.
  induction rvs as [|rv rvs' IH]; intros acc; simpl.
  - lra.
  - rewrite IH, extra3_terms. lra.
Qed.

End TripleLoop.

(** ** The claims about the evaluator *)

(** C1 (the code departs from the claim).  The entry point hands
    [individual] and [alpha] to the level-2 function in the order it
    received them, so the tree arrives as [alpha] and the number as
    [individual]: with at least one read, the first closest-node query
    is made on the number and raises AttributeError; no fitness tuple is
    returned. *)
Theorem evaluate_queries_the_number `{DolloNodeMethods}
    (ts : tstore) (r : loc) (reads : list loc) (t : loc) (a : Q) (h : heap) :
  evaluate_dollo_node_individual ts (r :: reads) (VNode t) (VNum a) h
  = (Raise AttributeError, h).
Proof. reflexivity. Qed.

(** The same call on the sample data, next to the level-2 value of the
    claim. *)
Lemma evaluate_sample :
  evaluate_dollo_node_individual (H := Reference.methods)
    Reference.sample_nodes Reference.sample_reads (VNode 0%nat)
    (VNum (1 # 2)) Reference.sample_heap
  = (Raise AttributeError, Reference.sample_heap)
  ∧ ∃ v, fst (dollo_evaluate_direct_level2 (H := Reference.methods)
                Reference.sample_nodes Reference.sample_reads
                (VNum (1 # 2)) (VNode 0%nat) Reference.sample_heap)
         = Ok v.
Proof. split; [reflexivity|]. eexists. vm_compute. reflexivity. Qed.

(** Without reads nothing is queried and both sides are the tuple of 0. *)
Lemma evaluate_no_reads `{DolloNodeMethods}
    (ts : tstore) (t : loc) (a : Q) (h : heap) :
  evaluate_dollo_node_individual ts [] (VNode t) (VNum a) h = (Ok [0], h)
  ∧ dollo_evaluate_direct_level2 ts [] (VNum a) (VNode t) h = (Ok 0, h).
Proof. split; reflexivity. Qed.

(** C4.  For well-formed reads, a weight [a >= 0] and a tree whose
    closest-node distances are all non-negative, the four levels return
    values [v0 <= v1 <= v2 <= v3]. *)
Theorem levels_increase `{DolloNodeMethods}
    (ts : tstore) (h : heap) (reads : list loc) (rvs : list ReadView)
    (a : Q) (t : loc) :
  reads_ok h reads rvs →
  0 <= a →
  (∀ rv, 0 <= dist ts t rv) →
  ∃ v0 v1 v2 v3 h0 h1 h2 h3,
    dollo_evaluate_direct_level0 ts reads (VNum a) (VNode t) h = (Ok v0, h0)
    ∧ dollo_evaluate_direct_level1 ts reads (VNum a) (VNode t) h = (Ok v1, h1)
    ∧ dollo_evaluate_direct_level2 ts reads (VNum a) (VNode t) h = (Ok v2, h2)
    ∧ dollo_evaluate_direct_level3 ts reads (VNum a) (VNode t) h = (Ok v3, h3)
    ∧ v0 <= v1 ∧ v1 <= v2 ∧ v2 <= v3.
Proof.
  intros Hok Ha Hd.
  destruct (level0_run ts h reads rvs Hok a t) as (h0 & E0 & _).
  destruct (level1_run ts h reads rvs Hok a t) as (h1 & E1 & _).
  destruct (level2_run ts h reads rvs Hok a t) as (h2 & E2 & _).
  destruct (level3_run ts h reads rvs Hok a t) as (h3 & E3 & _).
  exists (level0_value ts t rvs), (level1_value ts a t rvs),
         (level2_value ts a t rvs), (level3_value ts a t rvs), h0, h1, h2, h3.
  repeat (split; [assumption|]).
  now apply level_values_increasing.
Qed.

(** C5.  For well-formed reads, level 3 returns the value of level 2
    plus, for every read and every unordered triple of positions whose bit
    is set, the closest-node distance of the read with these three bits
    cleared, times [a * a]. *)
Theorem level3_adds_triples `{DolloNodeMethods}
    (ts : tstore) (h : heap) (reads : list loc) (rvs : list ReadView)
    (a : Q) (t : loc) :
  reads_ok h reads rvs →
  ∃ v2 v3 h2 h3,
    dollo_evaluate_direct_level2 ts reads (VNum a) (VNode t) h = (Ok v2, h2)
    ∧ dollo_evaluate_direct_level3 ts reads (VNum a) (VNode t) h = (Ok v3, h3)
    ∧ v3 == v2 + level3_terms ts a t rvs.
Proof.
  intros Hok.
  destruct (level2_run ts h reads rvs Hok a t) as (h2 & E2 & _).
  destruct (level3_run ts h reads rvs Hok a t) as (h3 & E3 & _).
  exists (level2_value ts a t rvs), (level3_value ts a t rvs), h2, h3.
  repeat (split; [assumption|]).
  apply level3_value_terms.
Qed.

Lemma final_heaps_grown `{DolloNodeMethods} ts h reads rvs alpha individual h' :
  reads_ok h reads rvs →
  h' ∈ final_heaps ts reads alpha individual h → grown h reads h'.
Proof.
  intros Hok Hin.
  destruct (levels_grown ts h reads rvs Hok alpha individual)
    as (G0 & G1 & G2 & G3).
  unfold final_heaps in Hin.
  repeat (apply elem_of_cons in Hin as [->|Hin]; [assumption|]).
  now apply elem_of_nil in Hin.
Qed.

(** C9.  For well-formed reads and whatever result an evaluation at level
    0 to 3 has, every object of the initial heap is in the final heap as
    it was, the reads have the views they had, and a read object made by
    the evaluation wraps a bit array made by the evaluation. *)
Theorem evaluation_leaves_reads `{DolloNodeMethods}
    (ts : tstore) (h : heap) (reads : list loc) (rvs : list ReadView)
    (alpha individual : pyval) (h' : heap) :
  reads_ok h reads rvs →
  h' ∈ final_heaps ts reads alpha individual h →
  (∀ l o, h !! l = Some o → h' !! l = Some o)
  ∧ reads_ok h' reads rvs
  ∧ (∀ l lab b u, (length h <= l)%nat →
       h' !! l = Some (OReadElement lab b u) → (length h <= b)%nat).
Proof.
  intros Hok Hin.
  destruct (final_heaps_grown ts h reads rvs alpha individual h' Hok Hin)
    as (ext & -> & Hext).
  split; [|split].
  - intros l o Hl. now apply lookup_app_l_Some.
  - eapply Forall2_impl; [exact Hok|]. intros r rv. apply is_view_app.
  - intros l lab b u Hl Hlook. rewrite lookup_app_r in Hlook by exact Hl.
    apply list_elem_of_lookup_2 in Hlook.
    rewrite Forall_forall in Hext. apply Hext in Hlook. simpl in Hlook.
    tauto.
Qed.

(** *** The claims at the sample reads *)

Lemma sample_reads_ok :
  reads_ok Reference.sample_heap Reference.sample_reads
           Reference.sample_views.
Proof.
  repeat constructor.
  - exists 0%nat, 1%nat. repeat split; reflexivity.
  - exists 3%nat, 4%nat. repeat split; reflexivity.
Defined.

Lemma sample_distances (t : loc) (rv : ReadView) :
  0 <= dist (H := Reference.methods) Reference.sample_nodes t rv.
Proof. unfold dist, Qle. simpl. lia. Defined.

Lemma levels_increase_witness :
  ∃ v0 v1 v2 v3 h0 h1 h2 h3,
    dollo_evaluate_direct_level0 (H := Reference.methods)
      Reference.sample_nodes Reference.sample_reads (VNum (1 # 2))
      (VNode 0%nat) Reference.sample_heap = (Ok v0, h0)
    ∧ dollo_evaluate_direct_level1 (H := Reference.methods)
        Reference.sample_nodes Reference.sample_reads (VNum (1 # 2))
        (VNode 0%nat) Reference.sample_heap = (Ok v1, h1)
    ∧ dollo_evaluate_direct_level2 (H := Reference.methods)
        Reference.sample_nodes Reference.sample_reads (VNum (1 # 2))
        (VNode 0%nat) Reference.sample_heap = (Ok v2, h2)
    ∧ dollo_evaluate_direct_level3 (H := Reference.methods)
        Reference.sample_nodes Reference.sample_reads (VNum (1 # 2))
        (VNode 0%nat) Reference.sample_heap = (Ok v3, h3)
    ∧ v0 <= v1 ∧ v1 <= v2 ∧ v2 <= v3.
Proof.
  apply (levels_increase (H := Reference.methods) Reference.sample_nodes
           Reference.sample_heap Reference.sample_reads
           Reference.sample_views (1 # 2) 0%nat).
  - exact sample_reads_ok.
  - unfold Qle. simpl. lia.
  - exact (sample_distances 0%nat).
Defined.

Lemma level3_adds_triples_witness :
  ∃ v2 v3 h2 h3,
    dollo_evaluate_direct_level2 (H := Reference.methods)
      Reference.sample_nodes Reference.sample_reads (VNum (1 # 2))
      (VNode 0%nat) Reference.sample_heap = (Ok v2, h2)
    ∧ dollo_evaluate_direct_level3 (H := Reference.methods)
        Reference.sample_nodes Reference.sample_reads (VNum (1 # 2))
        (VNode 0%nat) Reference.sample_heap = (Ok v3, h3)
    ∧ v3 == v2 + level3_terms (H := Reference.methods)
                   Reference.sample_nodes (1 # 2) 0%nat
                   Reference.sample_views.
Proof.
  apply (level3_adds_triples (H := Reference.methods) Reference.sample_nodes
           Reference.sample_heap Reference.sample_reads
           Reference.sample_views (1 # 2) 0%nat).
  exact sample_reads_ok.
Defined.

(** The one triple of the sample reads: with all three bits cleared the
    first read is at distance 1 of the subtree at node 1; the term is
    1/4. *)
Lemma sample_triple_terms :
  level3_terms (H := Reference.methods) Reference.sample_nodes (1 # 2) 1%nat
    Reference.sample_views == 1 # 4.
Proof. vm_compute. reflexivity. Qed.

Lemma sample_final_heap_in :
  Reference.sample_final_heap
  ∈ final_heaps (H := Reference.methods) Reference.sample_nodes
      Reference.sample_reads (VNum (1 # 2)) (VNode 0%nat)
      Reference.sample_heap.
Proof. unfold final_heaps. do 3 right. left. Defined.

Lemma evaluation_leaves_reads_witness :
  (∀ l o, Reference.sample_heap !! l = Some o →
          Reference.sample_final_heap !! l = Some o)
  ∧ reads_ok Reference.sample_final_heap Reference.sample_reads
      Reference.sample_views
  ∧ (∀ l lab b u, (length Reference.sample_heap <= l)%nat →
       Reference.sample_final_heap !! l = Some (OReadElement lab b u) →
       (length Reference.sample_heap <= b)%nat).
Proof.
  apply (evaluation_leaves_reads (H := Reference.methods)
           Reference.sample_nodes Reference.sample_heap
           Reference.sample_reads Reference.sample_views
           (VNum (1 # 2)) (VNode 0%nat) Reference.sample_final_heap).
  - exact sample_reads_ok.
  - exact sample_final_heap_in.
Defined.

(** ** Copies are new objects *)

Lemma bind_inv {S A B} (c : M S A) (k : A → M S B) (s s' : S) (b : B) :
  (c ≫= k) s = (Ok b, s') →
  ∃ a s1, c s = (Ok a, s1) ∧ k a s1 = (Ok b, s').
Proof.
  unfold mbind, M_bind, bind. destruct (c s) as [[a|e] s1]; intros E.
  - now exists a, s1.
  - discriminate.
Qed.

Lemma reach_extends fuel s : ∀ todo seen,
  ∃ more, reach fuel s todo seen = seen ++ more.
Proof.
  induction fuel as [|fuel IH]; intros todo seen; simpl.
  - exists []. now rewrite app_nil_r.
  - destruct todo as [|n todo]; [exists []; now rewrite app_nil_r|].
    destruct (decide (n ∈ seen)); [apply IH|].
    destruct (s !! n) as [nd|]; [|apply IH].
    destruct (IH (option_list (parent nd) ++ children nd ++ todo)
                 (seen ++ [n])) as [more ->].
    exists (n :: more). now rewrite <- app_assoc.
Qed.

Lemma component_head (s : tstore) n nd :
  s !! n = Some nd → ∃ more, component s n = n :: more.
Proof.
  intros E. unfold component, reach_fuel. simpl.
  destruct (decide (n ∈ [])) as [Hin|_]; [now apply elem_of_nil in Hin|].
  rewrite E. apply (reach_extends _ s _ ([] ++ [n])).
Qed.

Lemma reach_valid fuel (s : tstore) : ∀ todo seen,
  Forall (λ x, is_Some (s !! x)) seen →
  Forall (λ x, is_Some (s !! x)) (reach fuel s todo seen).
Proof.
  induction fuel as [|fuel IH]; intros todo seen Hs; simpl; [exact Hs|].
  destruct todo as [|n todo]; [exact Hs|].
  destruct (decide (n ∈ seen)); [now apply IH|].
  destruct (s !! n) as [nd|] eqn:E; [|now apply IH].
  apply IH. apply Forall_app. split; [exact Hs|].
  repeat constructor. now rewrite E.
Qed.

Lemma copies_length (s : tstore) ρ comp :
  Forall (λ x, is_Some (s !! x)) comp →
  length (copies s ρ comp) = length comp.
Proof.
  unfold copies. induction 1 as [|x comp [nd Hx] _ IH]; [reflexivity|].
  simpl. rewrite Hx. simpl. f_equal. exact IH.
Qed.

Lemma index_of_lt x l i : index_of x l = Some i → (i < length l)%nat.
Proof.
  revert i. induction l as [|y l IH]; intros i; simpl; [discriminate|].
  destruct (decide (x = y)).
  - intros [= <-]. lia.
  - destruct (index_of x l) as [j|]; simpl; [|discriminate].
    intros [= <-]. specialize (IH j eq_refl). lia.
Qed.

(** The copy of a node sits at the first free address, the store is the
    old store followed by the copies, and a reference to a node that
    exists is renamed to a node that exists. *)
Lemma deepcopy_run (w : world) n nd :
  nodes w !! n = Some nd →
  ∃ ρ more,
    deepcopy n w
    = (Ok (length (nodes w)),
       set_nodes (nodes w ++ rename ρ nd :: more) w)
    ∧ ∀ x, is_Some (nodes w !! x) →
           is_Some ((nodes w ++ rename ρ nd :: more) !! ρ x).
Proof.
  intros E. unfold deepcopy. rewrite E.
  destruct (component_head _ _ _ E) as [rest Hc].
  assert (Hvalid : Forall (λ x, is_Some (nodes w !! x)) (component (nodes w) n))
    by (apply reach_valid; constructor).
  pose proof (copies_length (nodes w)
                (renaming (length (nodes w)) (component (nodes w) n))
                _ Hvalid) as Hlen.
  rewrite Hc in *.
  exists (renaming (length (nodes w)) (n :: rest)).
  unfold copies in *. simpl omap in *. rewrite E in *. simpl in Hlen |- *.
  eexists. split.
  - f_equal. unfold renaming. simpl.
    destruct (decide (n = n)); [|congruence]. f_equal. lia.
  - intros x Hx.
    change (renaming (length (nodes w)) (n :: rest) x)
      with (match index_of x (n :: rest) with
            | Some i => (length (nodes w) + i)%nat
            | None => x
            end).
    destruct (index_of x (n :: rest)) as [i|] eqn:Ei.
    + apply index_of_lt in Ei. simpl in Ei.
      apply lookup_lt_is_Some. rewrite length_app. simpl. lia.
    + destruct Hx as [y Hy]. exists y. now apply lookup_app_l_Some.
Qed.

Lemma deepcopy_inv (w w' : world) n c :
  deepcopy n w = (Ok c, w') →
  ∃ nd ρ more,
    nodes w !! n = Some nd ∧ c = length (nodes w)
    ∧ w' = set_nodes (nodes w ++ rename ρ nd :: more) w.
Proof.
  intros E. destruct (nodes w !! n) as [nd|] eqn:En.
  - destruct (deepcopy_run w n nd En) as (ρ & more & E' & _).
    rewrite E' in E. injection E as <- <-. now exists nd, ρ, more.
  - unfold deepcopy in E. rewrite En in E. discriminate.
Qed.

Lemma made_after_ne (w : world) c i :
  made_after w c → is_Some (nodes w !! i) → c ≠ i.
Proof.
  unfold made_after. intros Hc Hi%lookup_lt_is_Some. lia.
Qed.

Lemma query_run {A} (f : tstore → result A) (w : world) :
  query f w = (f (nodes w), w).
Proof. reflexivity. Qed.

Lemma valid_after_copy (w w1 : world) n c i :
  deepcopy n w = (Ok c, w1) → is_Some (nodes w !! i) →
  is_Some (nodes w1 !! i) ∧ (length (nodes w) < length (nodes w1))%nat.
Proof.
  intros E [x Hx]. apply deepcopy_inv in E as (nd & ρ & more & _ & _ & ->).
  simpl. split.
  - exists x. now apply lookup_app_l_Some.
  - rewrite length_app. simpl. lia.
Qed.

(** ** The claims about crossover on equal and on unequal trees *)

(** C3 (as amended).  When the two trees are structurally equal, the
    subtree exchange and the edge exchange both return at once, with
    success = False and the two input individuals themselves; nothing is
    copied and the store is as it was. *)
Theorem crossover_of_equal_trees `{DolloNodeMethods}
    (labels : list string) (i1 i2 : loc) (w : world) :
  tree_is_equal (nodes w) i1 (Some i2) = Ok true →
  dollo_crossover_exchange_subtrees labels i1 i2 w = (Ok (false, i1, i2), w)
  ∧ dollo_crossover_exchange_edge labels i1 i2 w = (Ok (false, i1, i2), w).
Proof.
  intros E. split.
  - unfold dollo_crossover_exchange_subtrees.
    rewrite (bind_ok _ _ w w true); [reflexivity|].
    rewrite query_run. now rewrite E.
  - unfold dollo_crossover_exchange_edge.
    rewrite (bind_ok _ _ w w true); [reflexivity|].
    rewrite query_run. now rewrite E.
Qed.

(** C2 (as amended).  When the two trees are not structurally equal,
    whatever either exchange returns, with success or without, carries the
    two objects made by [copy.deepcopy] of the inputs: objects that did not
    exist before the call, different from both inputs and from each
    other. *)
Theorem crossover_returns_copies `{DolloNodeMethods}
    (labels : list string) (i1 i2 : loc) (w w' : world)
    (b : bool) (c1 c2 : loc) :
  is_Some (nodes w !! i1) → is_Some (nodes w !! i2) →
  tree_is_equal (nodes w) i1 (Some i2) = Ok false →
  dollo_crossover_exchange_subtrees labels i1 i2 w = (Ok (b, c1, c2), w')
  ∨ dollo_crossover_exchange_edge labels i1 i2 w = (Ok (b, c1, c2), w') →
  ∃ w1 w2,
    deepcopy i1 w = (Ok c1, w1) ∧ deepcopy i2 w1 = (Ok c2, w2)
    ∧ made_after w c1 ∧ made_after w c2
    ∧ c1 ≠ i1 ∧ c1 ≠ i2 ∧ c2 ≠ i1 ∧ c2 ≠ i2 ∧ c1 ≠ c2.
Proof.
  intros V1 V2 Ene Hrun.
  assert (Hcopies : ∃ w1 w2,
    deepcopy i1 w = (Ok c1, w1) ∧ deepcopy i2 w1 = (Ok c2, w2)).
  { destruct Hrun as [E|E].
    - unfold dollo_crossover_exchange_subtrees in E.
      rewrite (bind_ok _ _ w w false) in E
        by (rewrite query_run; now rewrite Ene).
      apply bind_inv in E as (a1 & w1 & D1 & E).
      apply bind_inv in E as (a2 & w2 & D2 & E).
      apply bind_inv in E as (p1 & w3 & _ & E).
      apply bind_inv in E as (p2 & w4 & _ & E).
      apply bind_inv in E as (r & w5 & _ & E).
      injection E as _ <- <- _. now exists w1, w2.
    - unfold dollo_crossover_exchange_edge in E.
      rewrite (bind_ok _ _ w w false) in E
        by (rewrite query_run; now rewrite Ene).
      apply bind_inv in E as (a1 & w1 & D1 & E).
      apply bind_inv in E as (a2 & w2 & D2 & E).
      apply bind_inv in E as (lab & w3 & _ & E).
      apply bind_inv in E as (r01 & w4 & _ & E).
      apply bind_inv in E as (desc & w5 & _ & E).
      destruct (label_is_plus r01 labels desc).
      + apply bind_inv in E as (n1 & w6 & _ & E).
        apply bind_inv in E as (n2 & w7 & _ & E).
        apply bind_inv in E as (q1 & w8 & _ & E).
        apply bind_inv in E as (q2 & w9 & _ & E).
        injection E as _ <- <- _. now exists w1, w2.
      + injection E as _ <- <- _. now exists w1, w2. }
  destruct Hcopies as (w1 & w2 & D1 & D2). exists w1, w2.
  destruct (valid_after_copy _ _ _ _ i1 D1 V1) as [_ Hlen].
  pose proof (deepcopy_inv _ _ _ _ D1) as (nd1 & ρ1 & m1 & _ & Hc1 & _).
  pose proof (deepcopy_inv _ _ _ _ D2) as (nd2 & ρ2 & m2 & _ & Hc2 & _).
  apply lookup_lt_is_Some in V1, V2. unfold made_after.
  repeat split; try assumption; lia.
Qed.

(** ** The guards of the subtree exchange *)

Lemma last_char_None (x : string) : last_char x = None ↔ x = ""%string.
Proof.
  unfold last_char. split.
  - intros E. apply last_None in E. destruct x; [reflexivity|discriminate].
  - now intros ->.
Qed.

(** the inner loop of [set_consits_of_plus_lebels] *)
Lemma plus_loop_run {S} (l : list string) (ret : gset string) (w : S) :
  Forall (λ x, x ≠ ""%string) l →
  for_each l ret (λ x ret,
    match last_char x with
    | None => raise IndexError
    | Some c =>
        if decide (c = "+"%char) then mret ({[x]} ∪ ret) else mret ret
    end) w
  = (Ok (list_to_set (filter is_plus l) ∪ ret), w).
Proof.
  intros Hl. revert ret. induction Hl as [|x l Hx Hl IH]; intros ret.
  - simpl. now rewrite (left_id_L ∅ (∪)).
  - rewrite for_each_cons.
    destruct (last_char x) as [c|] eqn:Ec;
      [|now apply last_char_None in Ec].
    rewrite filter_cons.
    destruct (decide (c = "+"%char)) as [->|Hc].
    + rewrite (bind_ok _ _ w w ({[x]} ∪ ret)) by reflexivity.
      rewrite IH. rewrite decide_True by exact Ec.
      f_equal. f_equal. set_solver.
    + rewrite (bind_ok _ _ w w ret) by reflexivity.
      rewrite IH.
      rewrite decide_False by (unfold is_plus; rewrite Ec; congruence).
      reflexivity.
Qed.

Lemma filter_elements (c : gset string) :
  list_to_set (filter is_plus (elements c)) = filter is_plus c.
Proof.
  apply set_eq. intros x.
  rewrite elem_of_list_to_set, list_elem_of_filter, elem_of_elements.
  now rewrite elem_of_filter.
Qed.

Lemma plus_labels_cons (c : gset string) covered :
  plus_labels (c :: covered) = filter is_plus c ∪ plus_labels covered.
Proof. unfold plus_labels. simpl. set_solver. Qed.

Lemma set_consits_run {S} (covered : list (gset string)) (w : S) :
  (∀ c, c ∈ covered → ""%string ∉ c) →
  set_consits_of_plus_lebels covered w = (Ok (plus_labels covered), w).
Proof.
  intros Hne. unfold set_consits_of_plus_lebels.
  assert (G : ∀ ret,
    for_each covered ret (λ s ret,
      for_each (elements s) ret (λ x ret,
        match last_char x with
        | None => raise IndexError
        | Some c =>
            if decide (c = "+"%char) then mret ({[x]} ∪ ret) else mret ret
        end)) w
    = (Ok (plus_labels covered ∪ ret), w)).
  { induction covered as [|c covered IH]; intros ret.
    - simpl. rewrite mret_run. f_equal. f_equal. unfold plus_labels. simpl.
      set_solver.
    - rewrite for_each_cons.
      erewrite bind_ok.
      2:{ apply plus_loop_run. apply Forall_forall. intros x Hx E.
          subst x. apply (Hne c); [left|]. now apply elem_of_elements. }
      rewrite IH by (intros c' Hc'; apply Hne; now right).
      f_equal. f_equal. rewrite plus_labels_cons, filter_elements.
      clear. set_solver. }
  rewrite G. f_equal. f_equal. set_solver.
Qed.

Lemma sets_are_equal_spec (set1 set2 : gset string) :
  sets_are_equal set1 set2 = bool_decide (set1 = set2).
Proof.
  unfold sets_are_equal.
  destruct (forallb _ (elements set1)) eqn:E1; simpl.
  - destruct (forallb _ (elements set2)) eqn:E2; simpl.
    + symmetry. apply bool_decide_eq_true. apply set_eq. intros x.
      rewrite forallb_forall in E1, E2. split; intros Hx.
      * apply elem_of_elements, list_elem_of_In, E1 in Hx.
        now apply bool_decide_eq_true in Hx.
      * apply elem_of_elements, list_elem_of_In, E2 in Hx.
        now apply bool_decide_eq_true in Hx.
    + symmetry. apply bool_decide_eq_false. intros ->.
      apply not_true_iff_false in E2. apply E2, forallb_forall.
      intros x Hx. apply bool_decide_eq_true.
      now apply list_elem_of_In, elem_of_elements in Hx.
  - symmetry. apply bool_decide_eq_false. intros ->.
    apply not_true_iff_false in E1. apply E1, forallb_forall.
    intros x Hx. apply bool_decide_eq_true.
    now apply list_elem_of_In, elem_of_elements in Hx.
Qed.

Lemma size_zero (X : gset string) : size X = 0%nat ↔ X = ∅.
Proof. rewrite size_empty_iff. apply leibniz_equiv_iff. Qed.

Lemma find_run (w : world) n lab m :
  matched (nodes w) n lab = Some m → find n lab w = (Ok (Some m), w).
Proof.
  unfold matched, find.
  destruct (filter _ _) as [|x [|y l]]; intros E; try discriminate.
  now injection E as ->.
Qed.

Lemma bind_ext {S A B} (c : M S A) (k k' : A → M S B) (s : S) :
  (∀ x s', k x s' = k' x s') → (c ≫= k) s = (c ≫= k') s.
Proof.
  intros Hk. unfold mbind, M_bind, bind.
  destruct (c s) as [[x|e] s']; [apply Hk|reflexivity].
Qed.

Section ExchangeLoop.
Context `{DolloNodeMethods}.
Variable labels : list string.
Variables part1 part2 : partition.
Variables individual1_n individual2_n : loc.

(** the statements of the loop body after the guards *)
Lemma exchange_inline (n1 n2 : loc) (w : world) :
  (parent1 ← get_parent (Some n1);
   parent2 ← get_parent (Some n2);
   _ ← set_parent n1 parent2;
   _ ← set_parent n2 parent1;
   _ ← update (λ s, tree_compact_vertical s n1);
   _ ← update (λ s, tree_compact_horizontal s n1);
   _ ← update (λ s, tree_rearange_by_label s n1);
   _ ← update (λ s, tree_set_binary_tags s n1 labels);
   _ ← update (λ s, tree_compact_vertical s n2);
   _ ← update (λ s, tree_compact_horizontal s n2);
   _ ← update (λ s, tree_rearange_by_label s n2);
   _ ← update (λ s, tree_set_binary_tags s n2 labels);
   mret true) w
  = (exchange labels n1 n2 ≫= λ _, mret true) w.
Proof.
  unfold exchange.
  repeat (rewrite bind_assoc; apply bind_ext; intros).
  reflexivity.
Qed.

Local Ltac skip_label Hq ql IH' :=
  simpl in Hq; subst ql; exact (IH' eq_refl).

Lemma exchange_loop_first (todo : list string) (w : world) :
  (∀ lab,
     lab ∈ tried (qualifies (nodes w) part1 part2
                    individual1_n individual2_n) todo →
     guards_defined (nodes w) part1 part2 individual1_n individual2_n lab) →
  exchange_loop labels part1 part2 individual1_n individual2_n todo w
  = match List.find
            (qualifies (nodes w) part1 part2 individual1_n individual2_n)
            todo with
    | None => (Ok false, w)
    | Some lab =>
        (exchange_at labels individual1_n individual2_n lab
         ≫= λ _, mret true) w
    end.
Proof.
  induction todo as [|lab todo IH]; intros Hdef; [reflexivity|].
  destruct (Hdef lab ltac:(left)) as [Hne Hnodes].
  simpl exchange_loop. simpl List.find.
  remember (qualifies (nodes w) part1 part2 individual1_n individual2_n lab)
    as ql eqn:Hq.
  assert (IH' : ql = false →
    exchange_loop labels part1 part2 individual1_n individual2_n todo w
    = match List.find
              (qualifies (nodes w) part1 part2 individual1_n individual2_n)
              todo with
      | None => (Ok false, w)
      | Some lab =>
          (exchange_at labels individual1_n individual2_n lab
           ≫= λ _, mret true) w
      end).
  { intros Hf. apply IH. intros l Hl. apply Hdef. simpl.
    rewrite <- Hq, Hf. now right. }
  clear IH Hdef. unfold qualifies in Hq. unfold covered_alike in Hq, Hnodes.
  destruct (part1 !! (lab +:+ "+")%string) as [covered1|] eqn:E1;
    [|skip_label Hq ql IH'].
  rewrite (bind_ok _ _ w w (plus_labels covered1)).
  2:{ apply set_consits_run. intros c Hc.
      apply (Hne part1 covered1 c); [left|exact E1|exact Hc]. }
  destruct (decide (size (plus_labels covered1) = 0%nat)) as [Z1|Z1].
  { apply size_zero in Z1.
    destruct (part2 !! (lab +:+ "+")%string); [|skip_label Hq ql IH'].
    rewrite (bool_decide_eq_false_2 (plus_labels covered1 ≠ ∅)) in Hq
      by tauto.
    skip_label Hq ql IH'. }
  destruct (part2 !! (lab +:+ "+")%string) as [covered2|] eqn:E2;
    [|skip_label Hq ql IH'].
  rewrite (bind_ok _ _ w w (plus_labels covered2)).
  2:{ apply set_consits_run. intros c Hc.
      apply (Hne part2 covered2 c); [right; left|exact E2|exact Hc]. }
  rewrite size_zero in Z1.
  rewrite (bool_decide_eq_true_2 (plus_labels covered1 ≠ ∅)) in Hq, Hnodes
    by exact Z1.
  destruct (decide (size (plus_labels covered2) = 0%nat)) as [Z2|Z2].
  { apply size_zero in Z2.
    rewrite (bool_decide_eq_false_2 (plus_labels covered2 ≠ ∅)) in Hq
      by tauto.
    skip_label Hq ql IH'. }
  rewrite size_zero in Z2.
  rewrite (bool_decide_eq_true_2 (plus_labels covered2 ≠ ∅)) in Hq, Hnodes
    by exact Z2.
  rewrite sets_are_equal_spec.
  destruct (bool_decide (plus_labels covered1 = plus_labels covered2));
    [|skip_label Hq ql IH'].
  simpl in Hnodes, Hq |- *.
  destruct (Hnodes eq_refl) as (n1 & n2 & b & M1 & M2 & Eq).
  rewrite (bind_ok _ _ _ _ _ (find_run w _ _ _ M1)).
  rewrite (bind_ok _ _ _ _ _ (find_run w _ _ _ M2)).
  rewrite M1, M2, Eq in Hq.
  rewrite (bind_ok _ _ w w b) by (rewrite query_run; now rewrite Eq).
  destruct b; [skip_label Hq ql IH'|].
  subst ql. rewrite exchange_inline. unfold exchange_at.
  unfold mbind, M_bind, bind. now rewrite M1, M2.
Qed.

End ExchangeLoop.

(** ** Guards leave the world as it is *)

Lemma bind_pure {S A B} (c : M S A) (k : A → M S B) (s : S) :
  snd (c s) = s →
  (c ≫= k) s
  = match fst (c s) with
    | Ok a => k a s
    | Raise e => (Raise e, s)
    end.
Proof.
  unfold mbind, M_bind, bind. destruct (c s) as [[a|e] s']; simpl;
    now intros ->.
Qed.

Lemma for_each_state {S A B} (xs : list A) (body : A → B → M S B) :
  (∀ x acc s, snd (body x acc s) = s) →
  ∀ acc s, snd (for_each xs acc body s) = s.
Proof.
  intros Hb. induction xs as [|x xs IH]; intros acc s; [reflexivity|].
  rewrite for_each_cons, bind_pure by apply Hb.
  destruct (fst (body x acc s)); [apply IH|reflexivity].
Qed.

Lemma set_consits_state {S} (covered : list (gset string)) (s : S) :
  snd (set_consits_of_plus_lebels covered s) = s.
Proof.
  unfold set_consits_of_plus_lebels. apply for_each_state.
  intros c acc s'. apply for_each_state. intros x acc' s''.
  destruct (last_char x) as [ch|]; [|reflexivity].
  now destruct (decide (ch = "+"%char)).
Qed.

Lemma find_state (n : loc) (lab : string) (w : world) :
  snd (find n lab w) = w.
Proof. unfold find. now destruct (filter _ _) as [|x [|y l]]. Qed.

Section LoopFails.
Context `{DolloNodeMethods}.

Lemma exchange_true labels n1 n2 (w w' : world) (b : bool) :
  (exchange labels n1 n2 ≫= λ _, mret true) w = (Ok b, w') → b = true.
Proof.
  intros E. apply bind_inv in E as (u & w1 & _ & E). now injection E as <-.
Qed.

(** When the loop ends without an exchange, nothing was changed. *)
Lemma exchange_loop_false labels part1 part2 i1n i2n todo (w w' : world) :
  exchange_loop labels part1 part2 i1n i2n todo w = (Ok false, w') →
  w' = w.
Proof.
  induction todo as [|lab todo IH]; intros E.
  - now injection E as <-.
  - simpl exchange_loop in E.
    destruct (part1 !! (lab +:+ "+")%string) as [covered1|]; [|now apply IH].
    rewrite bind_pure in E by apply set_consits_state.
    destruct (fst (set_consits_of_plus_lebels covered1 w)) as [set1|];
      [|discriminate].
    destruct (decide (size set1 = 0%nat)); [now apply IH|].
    destruct (part2 !! (lab +:+ "+")%string) as [covered2|]; [|now apply IH].
    rewrite bind_pure in E by apply set_consits_state.
    destruct (fst (set_consits_of_plus_lebels covered2 w)) as [set2|];
      [|discriminate].
    destruct (decide (size set2 = 0%nat)); [now apply IH|].
    destruct (negb (sets_are_equal set1 set2)); [now apply IH|].
    rewrite bind_pure in E by apply find_state.
    destruct (fst (find i1n (lab +:+ "+")%string w)) as [node1|];
      [|discriminate].
    rewrite bind_pure in E by apply find_state.
    destruct (fst (find i2n (lab +:+ "+")%string w)) as [node2|];
      [|discriminate].
    destruct node1 as [n1|]; [|discriminate].
    rewrite bind_pure in E by reflexivity. rewrite query_run in E.
    simpl fst in E.
    destruct (tree_is_equal (nodes w) n1 node2) as [[|]|]; try discriminate.
    { now apply IH. }
    destruct node2 as [n2|].
    + rewrite exchange_inline in E. now apply exchange_true in E.
    + apply bind_inv in E as (p1 & w1 & _ & E).
      apply bind_inv in E as (p2 & w2 & E2 & _). discriminate.
Qed.

(** A subtree exchange that reports failure left every node that existed
    as it was. *)
Lemma subtrees_false labels i1 i2 (w w' : world) x y :
  dollo_crossover_exchange_subtrees labels i1 i2 w = (Ok (false, x, y), w') →
  ∃ ext, nodes w' = nodes w ++ ext.
Proof.
  unfold dollo_crossover_exchange_subtrees. intros E.
  rewrite bind_pure in E by reflexivity. rewrite query_run in E.
  simpl fst in E.
  destruct (tree_is_equal (nodes w) i1 (Some i2)) as [[|]|]; try discriminate.
  - injection E as _ _ <-. exists []. now rewrite app_nil_r.
  - apply bind_inv in E as (a1 & w1 & D1 & E).
    apply bind_inv in E as (a2 & w2 & D2 & E).
    apply bind_inv in E as (p1 & w3 & Q1 & E).
    apply bind_inv in E as (p2 & w4 & Q2 & E).
    apply bind_inv in E as (r & w5 & L & E).
    injection Q1 as _ <-. injection Q2 as _ <-.
    injection E as -> _ _ <-.
    apply exchange_loop_false in L as ->.
    apply deepcopy_inv in D1 as (nd1 & ρ1 & m1 & _ & _ & ->).
    apply deepcopy_inv in D2 as (nd2 & ρ2 & m2 & _ & _ & ->).
    simpl. rewrite <- app_assoc. eauto.
Qed.

(** An edge exchange that reports failure did nothing at all. *)
Lemma edge_false labels i1 i2 (w w' : world) x y :
  dollo_crossover_exchange_edge labels i1 i2 w = (Ok (false, x, y), w') →
  w' = w.
Proof.
  unfold dollo_crossover_exchange_edge. intros E.
  rewrite bind_pure in E by reflexivity. rewrite query_run in E.
  simpl fst in E.
  destruct (tree_is_equal (nodes w) i1 (Some i2)) as [[|]|]; try discriminate.
  - now injection E as _ _ <-.
  - apply bind_inv in E as (a1 & w1 & D1 & E).
    apply bind_inv in E as (a2 & w2 & D2 & E).
    apply bind_inv in E as (lab & w3 & _ & E).
    apply bind_inv in E as (r01 & w4 & _ & E).
    apply bind_inv in E as (desc & w5 & _ & E).
    destruct (label_is_plus r01 labels desc).
    + apply bind_inv in E as (n1 & w6 & _ & E).
      apply bind_inv in E as (n2 & w7 & _ & E).
      apply bind_inv in E as (q1 & w8 & _ & E).
      apply bind_inv in E as (q2 & w9 & _ & E).
      discriminate.
    + discriminate.
Qed.

End LoopFails.

(** ** The crossover orchestrator *)

(** C7 (as amended).  For parents that exist, the orchestrator returns the
    result of the subtree exchange when that succeeds, otherwise the
    result of the edge exchange when that succeeds, otherwise two deep
    copies of the parents, which are made of the parents as they were
    before the call and are two different new objects; an exception raised
    by a strategy is raised by the orchestrator. *)
Theorem crossover_offspring `{DolloNodeMethods}
    (labels : list string) (i1 i2 : loc) (w : world) :
  is_Some (nodes w !! i1) → is_Some (nodes w !! i2) →
  match dollo_crossover_exchange_subtrees labels i1 i2 w with
  | (Raise e, w1) =>
      crossover_dollo_node_individuals labels i1 i2 w = (Raise e, w1)
  | (Ok (true, a, b), w1) =>
      crossover_dollo_node_individuals labels i1 i2 w = (Ok (a, b), w1)
  | (Ok (false, _, _), w1) =>
      match dollo_crossover_exchange_edge labels i1 i2 w1 with
      | (Raise e, w2) =>
          crossover_dollo_node_individuals labels i1 i2 w = (Raise e, w2)
      | (Ok (true, a, b), w2) =>
          crossover_dollo_node_individuals labels i1 i2 w = (Ok (a, b), w2)
      | (Ok (false, _, _), w2) =>
          ∃ c1 c2 w3 w4 ext,
            nodes w2 = nodes w ++ ext
            ∧ deepcopy i1 w2 = (Ok c1, w3)
            ∧ deepcopy i2 w3 = (Ok c2, w4)
            ∧ crossover_dollo_node_individuals labels i1 i2 w
              = (Ok (c1, c2), w4)
            ∧ made_after w c1 ∧ made_after w c2 ∧ c1 ≠ c2
      end
  end.
Proof.
  intros V1 V2. unfold crossover_dollo_node_individuals.
  destruct (dollo_crossover_exchange_subtrees labels i1 i2 w)
    as [[[[s a] b]|e] w1] eqn:E1;
    [rewrite (bind_ok _ _ _ _ _ E1)|now rewrite (bind_raise _ _ _ _ _ E1)].
  destruct s; [reflexivity|].
  destruct (dollo_crossover_exchange_edge labels i1 i2 w1)
    as [[[[s' a'] b']|e] w2] eqn:E2;
    [rewrite (bind_ok _ _ _ _ _ E2)|now rewrite (bind_raise _ _ _ _ _ E2)].
  destruct s'; [reflexivity|].
  apply subtrees_false in E1 as [ext Hext].
  apply edge_false in E2 as ->.
  assert (V1' : is_Some (nodes w1 !! i1)).
  { destruct V1 as [nd Hnd]. exists nd. rewrite Hext.
    now apply lookup_app_l_Some. }
  assert (V2' : is_Some (nodes w1 !! i2)).
  { destruct V2 as [nd Hnd]. exists nd. rewrite Hext.
    now apply lookup_app_l_Some. }
  destruct V1' as [nd1 Hnd1].
  destruct (deepcopy_run w1 i1 nd1 Hnd1) as (ρ1 & m1 & D1 & _).
  destruct (valid_after_copy _ _ _ _ i2 D1 V2') as [[nd2 Hnd2] Hlen].
  destruct (deepcopy_run _ i2 nd2 Hnd2) as (ρ2 & m2 & D2 & _).
  eexists _, _, _, _, ext. split; [exact Hext|].
  split; [exact D1|]. split; [exact D2|].
  split. { rewrite (bind_ok _ _ _ _ _ D1), (bind_ok _ _ _ _ _ D2).
           reflexivity. }
  unfold made_after. rewrite Hext in *. rewrite length_app in *.
  repeat split; lia.
Qed.

(** ** The copied component *)

Lemma sum_weights_lookup {A} (f : A → nat) (l : list A) : ∀ pre,
  sum_list (map (λ x, match (pre ++ l) !! x with
                      | Some a => f a
                      | None => 0%nat
                      end) (seq (length pre) (length l)))
  = sum_list (map f l).
Proof.
  induction l as [|a l IH]; intros pre; [reflexivity|]. simpl.
  rewrite list_lookup_middle by reflexivity. f_equal.
  specialize (IH (pre ++ [a])). rewrite <- app_assoc, length_app in IH.
  simpl in IH. now rewrite Nat.add_1_r in IH.
Qed.

Lemma unseen_all (s : tstore) :
  unseen_weight s [] = sum_list (map (λ nd, 2 + length (children nd))%nat s).
Proof.
  unfold unseen_weight, node_weight.
  rewrite <- (sum_weights_lookup (λ nd, 2 + length (children nd))%nat s []).
  reflexivity.
Qed.

Lemma weight_seen (w : loc → nat) (seen : list loc) n (l : list loc) :
  n ∉ l →
  sum_list (map (λ x, if decide (x ∈ seen ++ [n]) then 0%nat else w x) l)
  = sum_list (map (λ x, if decide (x ∈ seen) then 0%nat else w x) l).
Proof.
  induction l as [|x l IH]; intros Hn; [reflexivity|]. simpl.
  apply not_elem_of_cons in Hn as [Hx Hn]. rewrite (IH Hn). f_equal.
  destruct (decide (x ∈ seen)) as [Hs|Hs].
  - rewrite decide_True; [reflexivity|]. apply elem_of_app. now left.
  - rewrite decide_False; [reflexivity|].
    intros [?|?%list_elem_of_singleton]%elem_of_app; congruence.
Qed.

Lemma weight_add (w : loc → nat) (seen : list loc) n (l : list loc) :
  NoDup l → n ∈ l → n ∉ seen →
  (sum_list (map (λ x, if decide (x ∈ seen ++ [n]) then 0 else w x) l) + w n
   = sum_list (map (λ x, if decide (x ∈ seen) then 0 else w x) l))%nat.
Proof.
  intros Hnd Hin Hs. induction Hnd as [|x l Hx Hnd IH];
    [now apply elem_of_nil in Hin|].
  simpl. apply elem_of_cons in Hin as [<-|Hin].
  - rewrite (weight_seen w seen n l Hx).
    rewrite decide_True by (apply elem_of_app; right; left).
    rewrite decide_False by exact Hs. lia.
  - specialize (IH Hin).
    assert (x ≠ n) by (intros ->; contradiction).
    destruct (decide (x ∈ seen)) as [Hxs|Hxs].
    + rewrite decide_True by (apply elem_of_app; now left). lia.
    + rewrite decide_False; [lia|].
      intros [?|?%list_elem_of_singleton]%elem_of_app; congruence.
Qed.

Lemma unseen_add (s : tstore) seen n nd :
  s !! n = Some nd → n ∉ seen →
  (unseen_weight s (seen ++ [n]) + (2 + length (children nd))
   = unseen_weight s seen)%nat.
Proof.
  intros E Hs. unfold unseen_weight.
  assert (Hw : node_weight s n = (2 + length (children nd))%nat)
    by (unfold node_weight; now rewrite E).
  rewrite <- Hw. apply weight_add; [apply NoDup_seq| |exact Hs].
  apply elem_of_seq. apply lookup_lt_Some in E. lia.
Qed.

Lemma reach_seen fuel (s : tstore) todo seen x :
  x ∈ seen → x ∈ reach fuel s todo seen.
Proof.
  intros Hx. destruct (reach_extends fuel s todo seen) as [more ->].
  apply elem_of_app. now left.
Qed.

Lemma reach_closed (s : tstore) fuel : ∀ todo seen,
  (length todo + unseen_weight s seen <= fuel)%nat →
  closed_upto s seen todo →
  closed_upto s (reach fuel s todo seen) []
  ∧ ∀ y, y ∈ todo → is_Some (s !! y) → y ∈ reach fuel s todo seen.
Proof.
  induction fuel as [|fuel IH]; intros todo seen Hm Hc.
  - destruct todo; [|simpl in Hm; lia]. simpl. split; [exact Hc|].
    intros y Hy. now apply elem_of_nil in Hy.
  - destruct todo as [|n todo]; simpl.
    { split; [exact Hc|]. intros y Hy. now apply elem_of_nil in Hy. }
    simpl in Hm. destruct (decide (n ∈ seen)) as [Hn|Hn].
    { destruct (IH todo seen) as [IH1 IH2]; [lia| |].
      - intros x nd y Hx E Hy Hv.
        destruct (Hc x nd y Hx E Hy Hv) as [?|[->|?]%elem_of_cons]; auto.
      - split; [exact IH1|].
        intros y [->|Hy]%elem_of_cons Hv; [now apply reach_seen|auto]. }
    destruct (s !! n) as [nd|] eqn:E.
    2:{ destruct (IH todo seen) as [IH1 IH2]; [lia| |].
        - intros x nd y Hx Ex Hy Hv.
          destruct (Hc x nd y Hx Ex Hy Hv) as [?|[->|?]%elem_of_cons]; auto.
          rewrite E in Hv. now destruct Hv.
        - split; [exact IH1|].
          intros y [->|Hy]%elem_of_cons Hv; [|auto].
          rewrite E in Hv. now destruct Hv. }
    pose proof (unseen_add s seen n nd E Hn) as Hw.
    destruct (IH (option_list (parent nd) ++ children nd ++ todo)
                 (seen ++ [n])) as [IH1 IH2].
    + rewrite !length_app.
      assert (length (option_list (parent nd)) <= 1)%nat
        by (destruct (parent nd); simpl; lia).
      lia.
    + intros x nd' y [Hx|Hx%list_elem_of_singleton]%elem_of_app Ex Hy Hv.
      * destruct (Hc x nd' y Hx Ex Hy Hv) as [?|[->|?]%elem_of_cons].
        -- left. apply elem_of_app. now left.
        -- left. apply elem_of_app. right. left.
        -- right. rewrite app_assoc. apply elem_of_app. now right.
      * subst x. rewrite E in Ex. injection Ex as <-.
        right. rewrite app_assoc. apply elem_of_app. now left.
    + split; [exact IH1|].
      intros y [->|Hy]%elem_of_cons Hv.
      * apply reach_seen. apply elem_of_app. right. left.
      * apply IH2; [|exact Hv]. rewrite app_assoc. apply elem_of_app. now right.
Qed.

(** The component of a node is closed under the references that lead to
    a node. *)
Lemma component_closed (s : tstore) n x nd y :
  x ∈ component s n → s !! x = Some nd →
  y ∈ option_list (parent nd) ++ children nd → is_Some (s !! y) →
  y ∈ component s n.
Proof.
  intros Hx E Hy Hv. unfold component in *.
  destruct (reach_closed s (reach_fuel s) [n] []) as [Hc _].
  - unfold reach_fuel. rewrite unseen_all. simpl. lia.
  - intros x' nd' y' Hx'. now apply elem_of_nil in Hx'.
  - destruct (Hc x nd y Hx E Hy Hv) as [?|Hnil]; [assumption|].
    now apply elem_of_nil in Hnil.
Qed.

Lemma reach_NoDup fuel (s : tstore) : ∀ todo seen,
  NoDup seen → NoDup (reach fuel s todo seen).
Proof.
  induction fuel as [|fuel IH]; intros todo seen Hs; simpl; [exact Hs|].
  destruct todo as [|n todo]; [exact Hs|].
  destruct (decide (n ∈ seen)); [now apply IH|].
  destruct (s !! n) as [nd|] eqn:E; [|now apply IH].
  apply IH. apply NoDup_app. split; [exact Hs|]. split.
  - intros x Hx ->%list_elem_of_singleton. contradiction.
  - apply NoDup_singleton.
Qed.

Lemma index_of_elem x (l : list loc) :
  x ∈ l → ∃ i, index_of x l = Some i ∧ l !! i = Some x.
Proof.
  induction l as [|y l IH]; intros Hin; [now apply elem_of_nil in Hin|].
  simpl. destruct (decide (x = y)) as [->|Hne]; [now exists 0%nat|].
  apply elem_of_cons in Hin as [?|Hin]; [congruence|].
  destruct (IH Hin) as (i & Ei & El). exists (S i). now rewrite Ei.
Qed.

Lemma index_of_None x (l : list loc) : x ∉ l → index_of x l = None.
Proof.
  induction l as [|y l IH]; intros Hin; [reflexivity|]. simpl.
  apply not_elem_of_cons in Hin as [Hne Hin].
  destruct (decide (x = y)); [congruence|]. now rewrite IH.
Qed.

Lemma index_of_lookup x (l : list loc) i :
  NoDup l → l !! i = Some x → index_of x l = Some i.
Proof.
  intros Hnd. revert i. induction Hnd as [|y l Hy Hnd IH]; intros i Hi;
    [discriminate|].
  simpl. destruct i as [|i]; simpl in Hi.
  - injection Hi as ->. now rewrite decide_True.
  - destruct (decide (x = y)) as [->|Hne].
    + apply list_elem_of_lookup_2 in Hi. contradiction.
    + now rewrite (IH i Hi).
Qed.

Lemma omap_lookup {A B} (f : A → option B) (l : list A) :
  Forall (λ x, is_Some (f x)) l → ∀ i, omap f l !! i = l !! i ≫= f.
Proof.
  induction 1 as [|x l [y Hx] _ IH]; intros i; [reflexivity|].
  simpl. rewrite Hx. destruct i; simpl; [now rewrite Hx|apply IH].
Qed.

(** *** What [copy.deepcopy] makes *)

Section Copy.
Variable s : tstore.
Variable n : loc.

Let comp : list loc := component s n.
Let ρ : loc → loc := renaming (length s) comp.
Let s' : tstore := s ++ copies s ρ comp.

Lemma component_valid : Forall (λ x, is_Some (s !! x)) comp.
Proof. apply reach_valid. constructor. Qed.

Lemma component_NoDup : NoDup comp.
Proof. apply reach_NoDup. constructor. Qed.

Lemma renaming_in x :
  x ∈ comp →
  ∃ i, comp !! i = Some x ∧ ρ x = (length s + i)%nat.
Proof.
  intros Hx. destruct (index_of_elem x comp Hx) as (i & Ei & El).
  exists i. split; [exact El|]. unfold ρ, renaming. now rewrite Ei.
Qed.

Lemma renaming_out x : x ∉ comp → ρ x = x.
Proof. intros Hx. unfold ρ, renaming. now rewrite index_of_None. Qed.

Lemma copies_lookup i x nd :
  comp !! i = Some x → s !! x = Some nd →
  s' !! (length s + i)%nat = Some (rename ρ nd).
Proof.
  intros Ei Ex. unfold s'. rewrite lookup_app_r by lia.
  replace (length s + i - length s)%nat with i by lia.
  unfold copies. rewrite omap_lookup.
  - rewrite Ei. simpl. now rewrite Ex.
  - eapply Forall_impl; [apply component_valid|].
    intros y [nd' Hy]. simpl. rewrite Hy. now eexists.
Qed.

(** the copy of a node of the component *)
Lemma copy_lookup x nd :
  x ∈ comp → s !! x = Some nd →
  s' !! ρ x = Some (rename ρ nd) ∧ (length s <= ρ x < length s')%nat.
Proof.
  intros Hx Ex. destruct (renaming_in x Hx) as (i & Ei & ->).
  split; [now apply (copies_lookup i x)|].
  apply lookup_lt_Some in Ei. unfold s'.
  rewrite length_app, copies_length by apply component_valid. fold comp. lia.
Qed.

(** every new node is the copy of a node of the component *)
Lemma copy_region j nd' :
  (length s <= j)%nat → s' !! j = Some nd' →
  ∃ x nd, x ∈ comp ∧ s !! x = Some nd ∧ ρ x = j ∧ nd' = rename ρ nd.
Proof.
  intros Hj Ej. pose proof (lookup_lt_Some _ _ _ Ej) as Hlt.
  unfold s' in Hlt.
  rewrite length_app, copies_length in Hlt by apply component_valid.
  fold comp in Hlt.
  destruct (lookup_lt_is_Some_2 comp (j - length s)) as [x Ex]; [lia|].
  pose proof component_valid as Hv. rewrite Forall_forall in Hv.
  pose proof (list_elem_of_lookup_2 _ _ _ Ex) as Hx.
  destruct (Hv x Hx) as [nd End].
  pose proof (copies_lookup _ _ _ Ex End) as Ec.
  replace (length s + (j - length s))%nat with j in Ec by lia.
  rewrite Ej in Ec. injection Ec as ->.
  exists x, nd. repeat split; try assumption.
  unfold ρ, renaming.
  rewrite (index_of_lookup x comp _ component_NoDup Ex). lia.
Qed.

(** a reference of a node of the component to a node that exists is
    renamed to the copy of that node *)
Lemma copy_reference x nd y :
  x ∈ comp → s !! x = Some nd →
  y ∈ option_list (parent nd) ++ children nd → is_Some (s !! y) →
  y ∈ comp ∧ (length s <= ρ y < length s')%nat.
Proof.
  intros Hx Ex Hy [yd Ey].
  assert (Hc : y ∈ comp)
    by (eapply component_closed; eauto).
  split; [exact Hc|]. now apply (copy_lookup y yd).
Qed.

End Copy.

(** *** The tree of a copy *)

Lemma unfold_tree_S fuel (s : tstore) n t :
  unfold_tree (S fuel) s n = Some t ↔
  ∃ nd subs, s !! n = Some nd
    ∧ Forall2 (λ ch t', unfold_tree fuel s ch = Some t') (children nd) subs
    ∧ t = Shape (node_label nd) (binary_tag nd) subs.
Proof.
  simpl. split.
  - destruct (s !! n) as [nd|]; simpl; [|discriminate].
    destruct (mapM (unfold_tree fuel s) (children nd)) as [subs|] eqn:E;
      simpl; [|discriminate].
    intros [= <-]. exists nd, subs. apply mapM_Some in E. auto.
  - intros (nd & subs & -> & Hsubs & ->). simpl.
    apply mapM_Some in Hsubs. now rewrite Hsubs.
Qed.

Lemma unfold_tree_mono (s : tstore) fuel : ∀ fuel' n t,
  (fuel <= fuel')%nat →
  unfold_tree fuel s n = Some t → unfold_tree fuel' s n = Some t.
Proof.
  induction fuel as [|fuel IH]; intros fuel' n t Hle; [discriminate|].
  destruct fuel' as [|fuel']; [lia|].
  rewrite !unfold_tree_S. intros (nd & subs & E & Hsubs & ->).
  exists nd, subs. repeat split; [exact E|].
  eapply Forall2_impl; [exact Hsubs|]. intros ch t'. apply IH. lia.
Qed.

Lemma unfold_tree_app (s ext : tstore) fuel : ∀ n t,
  unfold_tree fuel s n = Some t → unfold_tree fuel (s ++ ext) n = Some t.
Proof.
  induction fuel as [|fuel IH]; intros n t; [discriminate|].
  rewrite !unfold_tree_S. intros (nd & subs & E & Hsubs & ->).
  exists nd, subs. repeat split; [now apply lookup_app_l_Some|].
  eapply Forall2_impl; [exact Hsubs|]. intros ch t'. apply IH.
Qed.

Lemma unfold_tree_valid fuel (s : tstore) n t :
  unfold_tree fuel s n = Some t → is_Some (s !! n).
Proof.
  destruct fuel; [discriminate|]. rewrite unfold_tree_S.
  intros (nd & _ & -> & _). now eexists.
Qed.

Section CopyShape.
Variable s : tstore.
Variable n : loc.

Let comp : list loc := component s n.
Let ρ : loc → loc := renaming (length s) comp.
Let s' : tstore := s ++ copies s ρ comp.

Lemma unfold_tree_copy fuel : ∀ x t,
  x ∈ comp → unfold_tree fuel s x = Some t →
  unfold_tree fuel s' (ρ x) = Some t.
Proof.
  induction fuel as [|fuel IH]; intros x t Hx; [discriminate|].
  rewrite !unfold_tree_S. intros (nd & subs & E & Hsubs & ->).
  destruct (copy_lookup s n x nd Hx E) as [Ec _].
  exists (rename ρ nd), subs. repeat split; [exact Ec|]. simpl.
  apply Forall2_fmap_l.
  apply Forall2_same_length_lookup. split; [eapply Forall2_length, Hsubs|].
  intros i ch t' Hch Ht'.
  pose proof (Forall2_lookup_lr _ _ _ _ _ _ Hsubs Hch Ht') as Hu.
  apply IH; [|exact Hu].
  apply (component_closed s n x nd ch Hx E).
  - apply elem_of_app. right. eapply list_elem_of_lookup_2, Hch.
  - eapply unfold_tree_valid, Hu.
Qed.

(** every node of the tree of the copy is new *)
Lemma preorder_copy fuel : ∀ x t,
  x ∈ comp → unfold_tree fuel s x = Some t →
  ∀ fuel' y, y ∈ preorder fuel' s' (ρ x) → (length s <= y)%nat.
Proof.
  induction fuel as [|fuel IH]; intros x t Hx; [discriminate|].
  rewrite unfold_tree_S. intros (nd & subs & E & Hsubs & ->) fuel' y Hy.
  destruct (copy_lookup s n x nd Hx E) as [Ec Hr].
  destruct fuel' as [|fuel']; [now apply elem_of_nil in Hy|].
  change (preorder (S fuel') s' (ρ x))
    with (match s' !! ρ x with
          | None => []
          | Some nd => ρ x :: flat_map (preorder fuel' s') (children nd)
          end) in Hy.
  unfold s', ρ, comp in Hy, IH. rewrite Ec in Hy.
  apply elem_of_cons in Hy as [->|Hy]; [lia|].
  apply list_elem_of_In, in_flat_map in Hy as (ch' & Hch' & Hy).
  apply list_elem_of_In in Hy. simpl in Hch'.
  apply in_map_iff in Hch' as (ch & <- & Hch). apply list_elem_of_In in Hch.
  apply list_elem_of_lookup_1 in Hch as [i Hi].
  destruct (Forall2_lookup_l _ _ _ _ _ Hsubs Hi) as (t' & _ & Hu).
  apply (IH ch t') with (fuel' := fuel'); [|exact Hu|exact Hy].
  apply (component_closed s n x nd ch Hx E).
  - apply elem_of_app. right. eapply list_elem_of_lookup_2, Hi.
  - eapply unfold_tree_valid, Hu.
Qed.

End CopyShape.

(** The tree of the copy is the tree of the node, every node of it is
    new, and the trees of the store are as they were. *)
Lemma deepcopy_shape (w w1 : world) n c t :
  deepcopy n w = (Ok c, w1) →
  tree_shape (nodes w) n = Some t →
  tree_shape (nodes w1) c = Some t
  ∧ (∀ y, y ∈ PreOrderIter (nodes w1) c → made_after w y)
  ∧ (∀ x t', tree_shape (nodes w) x = Some t' →
             tree_shape (nodes w1) x = Some t')
  ∧ (length (nodes w) <= length (nodes w1))%nat.
Proof.
  intros D Ht. unfold deepcopy in D.
  destruct (nodes w !! n) as [nd|] eqn:E; [|discriminate].
  injection D as <- <-. simpl.
  destruct (component_head _ _ _ E) as [rest Hc].
  assert (Hn : n ∈ component (nodes w) n) by (rewrite Hc; left).
  unfold tree_shape in *.
  assert (Hlen : (length (nodes w)
                  <= length (nodes w ++ copies (nodes w)
                       (renaming (length (nodes w)) (component (nodes w) n))
                       (component (nodes w) n)))%nat)
    by (rewrite length_app; lia).
  repeat split.
  - eapply unfold_tree_mono; [exact Hlen|].
    now apply unfold_tree_copy.
  - intros y Hy. unfold made_after, PreOrderIter in *.
    eapply preorder_copy; eauto.
  - intros x t' Hx. eapply unfold_tree_mono; [exact Hlen|].
    now apply unfold_tree_app.
  - exact Hlen.
Qed.

(** ** Stores that are linked well, and their copies *)

Lemma forest_by_spec (rank : loc → nat) (s : tstore) :
  forest_by rank s = true ↔ well_linked rank s.
Proof.
  unfold forest_by, well_linked. rewrite forallb_forall. split.
  - intros Hall n nd E.
    specialize (Hall n). rewrite E in Hall.
    assert (Hok : node_ok rank s n nd = true).
    { apply Hall, in_seq. apply lookup_lt_Some in E. lia. }
    unfold node_ok in Hok. apply andb_true_iff in Hok as [Hp Hc]. split.
    + intros p Ep. rewrite Ep in Hp. apply andb_true_iff in Hp as [Hr Hp].
      apply bool_decide_eq_true in Hr. split; [exact Hr|].
      destruct (s !! p) as [pd|]; [|discriminate].
      apply bool_decide_eq_true in Hp. eauto.
    + intros ch Hch. rewrite forallb_forall in Hc.
      specialize (Hc ch ltac:(now apply list_elem_of_In)).
      destruct (s !! ch) as [cd|]; [|discriminate].
      apply bool_decide_eq_true in Hc. eauto.
  - intros Hwl n _. destruct (s !! n) as [nd|] eqn:E; [|reflexivity].
    destruct (Hwl n nd E) as [Hp Hc]. unfold node_ok.
    apply andb_true_iff. split.
    + destruct (parent nd) as [p|]; [|reflexivity].
      destruct (Hp p eq_refl) as (Hr & pd & Ep & Hn). rewrite Ep.
      apply andb_true_iff. split; now apply bool_decide_eq_true.
    + apply forallb_forall. intros ch Hch%list_elem_of_In.
      destruct (Hc ch Hch) as (cd & Ec & Hpar). rewrite Ec.
      now apply bool_decide_eq_true.
Qed.

Section CopyForest.
Variable s : tstore.
Variable n : loc.
Variable rank : loc → nat.
Hypothesis Hwl : well_linked rank s.

Let comp : list loc := component s n.
Let ρ : loc → loc := renaming (length s) comp.
Let s' : tstore := s ++ copies s ρ comp.

Lemma copy_rank_renamed x :
  x ∈ comp → copy_rank rank (length s) comp (ρ x) = rank x.
Proof.
  intros Hx. destruct (renaming_in s n x Hx) as (i & Ei & Eρ).
  fold comp ρ in Ei, Eρ. unfold copy_rank. rewrite Eρ.
  rewrite decide_False by lia.
  replace (length s + i - length s)%nat with i by lia. now rewrite Ei.
Qed.

Lemma copy_well_linked :
  well_linked (copy_rank rank (length s) comp) s' ∧ inside (length s) (length s') s'.
Proof.
  assert (Hold : ∀ j nd, s !! j = Some nd → s' !! j = Some nd)
    by (intros j nd E; now apply lookup_app_l_Some).
  assert (Hrank : ∀ j nd, s !! j = Some nd →
            copy_rank rank (length s) comp j = rank j).
  { intros j nd E. apply lookup_lt_Some in E. unfold copy_rank.
    now rewrite decide_True. }
  assert (Hnew : ∀ j nd', (length s <= j)%nat → s' !! j = Some nd' →
    (∀ p', parent nd' = Some p' →
       (length s <= p' < length s')%nat
       ∧ (copy_rank rank (length s) comp p'
          < copy_rank rank (length s) comp j)%nat
       ∧ ∃ pd', s' !! p' = Some pd' ∧ j ∈ children pd')
    ∧ (∀ ch', ch' ∈ children nd' →
         (length s <= ch' < length s')%nat
         ∧ ∃ cd', s' !! ch' = Some cd' ∧ parent cd' = Some j)).
  { intros j nd' Hj Ej.
    destruct (copy_region s n j nd' Hj Ej) as (x & nd & Hx & Ex & Eρ & ->).
    fold comp ρ in Hx, Eρ. destruct (Hwl x nd Ex) as [Hp Hc]. split.
    - intros p' Ep'. simpl in Ep'.
      destruct (parent nd) as [p|] eqn:Ep; [|discriminate].
      injection Ep' as <-.
      destruct (Hp p eq_refl) as (Hr & pd & Epd & Hin).
      assert (Hpc : p ∈ comp).
      { apply (component_closed s n x nd p Hx Ex); [|now rewrite Epd].
        rewrite Ep. left. }
      destruct (copy_lookup s n p pd Hpc Epd) as [El Hrange].
      fold comp ρ s' in El, Hrange. split; [exact Hrange|]. split.
      + rewrite <- Eρ, !copy_rank_renamed by assumption. exact Hr.
      + exists (rename ρ pd). split; [exact El|]. simpl. rewrite <- Eρ.
        now apply list_elem_of_fmap_2.
    - intros ch' Hch'. simpl in Hch'.
      apply list_elem_of_fmap in Hch' as (ch & -> & Hch).
      destruct (Hc ch Hch) as (cd & Ecd & Hpar).
      assert (Hcc : ch ∈ comp).
      { apply (component_closed s n x nd ch Hx Ex); [|now rewrite Ecd].
        apply elem_of_app. now right. }
      destruct (copy_lookup s n ch cd Hcc Ecd) as [El Hrange].
      fold comp ρ s' in El, Hrange. split; [exact Hrange|].
      exists (rename ρ cd). split; [exact El|]. simpl.
      now rewrite Hpar, <- Eρ. }
  split.
  - intros j nd' Ej. destruct (decide (j < length s)%nat) as [Hlt|Hge].
    + assert (E : s !! j = Some nd')
        by (unfold s' in Ej; now rewrite lookup_app_l in Ej).
      destruct (Hwl j nd' E) as [Hp Hc]. split.
      * intros p Ep. destruct (Hp p Ep) as (Hr & pd & Epd & Hin).
        rewrite (Hrank p pd Epd), (Hrank j nd' E). eauto.
      * intros ch Hch. destruct (Hc ch Hch) as (cd & Ecd & Hpar). eauto.
    + destruct (Hnew j nd' ltac:(lia) Ej) as [Hp Hc]. split.
      * intros p' Ep'. now destruct (Hp p' Ep') as (_ & ? & ?).
      * intros ch' Hch'. now destruct (Hc ch' Hch') as (_ & ?).
  - intros j nd' [Hj _] Ej. destruct (Hnew j nd' Hj Ej) as [Hp Hc]. split.
    + intros p' Ep'. now destruct (Hp p' Ep') as (? & _).
    + intros ch' Hch'. now destruct (Hc ch' Hch') as (? & _).
Qed.

End CopyForest.

(** A deep copy of a node of a store that is linked well: the store is
    still linked well, and the copy is a region of its own. *)
Lemma deepcopy_forest (w w1 : world) n c rank :
  deepcopy n w = (Ok c, w1) →
  well_linked rank (nodes w) →
  ∃ rank' made,
    c = length (nodes w)
    ∧ w1 = set_nodes (nodes w ++ made) w
    ∧ made ≠ []
    ∧ well_linked rank' (nodes w1)
    ∧ inside (length (nodes w)) (length (nodes w1)) (nodes w1).
Proof.
  intros D Hwl. destruct (deepcopy_inv _ _ _ _ D) as (nd & ρ' & more & E & -> & _).
  unfold deepcopy in D. rewrite E in D. injection D as _ <-.
  destruct (copy_well_linked (nodes w) n rank Hwl) as [Hwl' Hin].
  eexists _, _. split; [reflexivity|]. split; [reflexivity|].
  split; [|split; [exact Hwl'|exact Hin]].
  destruct (component_head _ _ _ E) as [rest Hc]. rewrite Hc.
  unfold copies. simpl. rewrite E. discriminate.
Qed.

(** *** Moving a node *)

Lemma move_lookup (s : tstore) n old new x :
  old ≠ new → old ≠ Some n → new ≠ Some n →
  attach n new (detach n old s) !! x = relinked n old new x <$> s !! x.
Proof.
  intros Hne Ho Hn. unfold attach, detach, relinked.
  destruct old as [p|], new as [q|]; try congruence;
    destruct (decide (x = n)) as [->|Hx];
    repeat first [ rewrite list_lookup_alter
                 | rewrite list_lookup_alter_ne by congruence ];
    try (now destruct (s !! n)).
  all: repeat case_decide; simplify_eq;
    repeat first [ rewrite list_lookup_alter
                 | rewrite list_lookup_alter_ne by congruence ];
    try (now destruct (s !! x)); now destruct (s !! n).
Qed.

Lemma move_length (s : tstore) n old new :
  length (attach n new (detach n old s)) = length s.
Proof.
  unfold attach, detach.
  destruct old, new; now rewrite ?length_alter.
Qed.

Lemma set_parent_same (w : world) n nd value :
  nodes w !! n = Some nd → parent nd = value →
  set_parent n value w = (Ok tt, w).
Proof.
  intros E Hp. unfold set_parent. rewrite E. now rewrite decide_True.
Qed.

Lemma set_parent_run (w : world) n nd value :
  nodes w !! n = Some nd → parent nd ≠ value →
  makes_loop (nodes w) n value = false →
  set_parent n value w
  = (Ok tt, set_nodes (attach n value (detach n (parent nd) (nodes w))) w).
Proof.
  intros E Hp Hl. unfold set_parent. rewrite E.
  rewrite decide_False by exact Hp. now rewrite Hl.
Qed.

Lemma get_parent_run (w : world) n nd :
  nodes w !! n = Some nd → get_parent (Some n) w = (Ok (parent nd), w).
Proof. intros E. unfold get_parent. now rewrite E. Qed.

(** *** Regions *)

Lemma path_reverse_S fuel (s : tstore) n :
  path_reverse (S fuel) s n
  = n :: match s !! n ≫= parent with
         | Some p => path_reverse fuel s p
         | None => []
         end.
Proof. simpl. now destruct (s !! n) as [[? ? [p|] ?]|]. Qed.

Lemma path_inside lo hi (s : tstore) :
  inside lo hi s →
  ∀ fuel n x, (lo <= n < hi)%nat → x ∈ path_reverse fuel s n →
              (lo <= x < hi)%nat.
Proof.
  intros Hin. induction fuel as [|fuel IH]; intros n x Hn Hx;
    [now apply elem_of_nil in Hx|].
  rewrite path_reverse_S in Hx. apply elem_of_cons in Hx as [->|Hx];
    [exact Hn|].
  destruct (s !! n) as [nd|] eqn:E; simpl in Hx;
    [|now apply elem_of_nil in Hx].
  destruct (parent nd) as [p|] eqn:Ep; [|now apply elem_of_nil in Hx].
  apply (IH p x); [|exact Hx].
  destruct (Hin n nd Hn E) as [Hp _]. exact (Hp p Ep).
Qed.

Lemma preorder_inside lo hi (s : tstore) :
  inside lo hi s →
  ∀ fuel n x, (lo <= n < hi)%nat → x ∈ preorder fuel s n →
              (lo <= x < hi)%nat ∧ is_Some (s !! x).
Proof.
  intros Hin. induction fuel as [|fuel IH]; intros n x Hn Hx;
    [now apply elem_of_nil in Hx|].
  simpl in Hx. destruct (s !! n) as [nd|] eqn:E;
    [|now apply elem_of_nil in Hx].
  apply elem_of_cons in Hx as [->|Hx]; [split; [exact Hn|now rewrite E]|].
  apply list_elem_of_In, in_flat_map in Hx as (ch & Hch & Hx).
  apply list_elem_of_In in Hx. apply list_elem_of_In in Hch.
  apply (IH ch x); [|exact Hx].
  destruct (Hin n nd Hn E) as [_ Hc]. exact (Hc ch Hch).
Qed.

(** a region whose nodes are as they are in a store where the region is
    closed *)
Lemma inside_app lo hi (s ext : tstore) :
  (hi <= length s)%nat → inside lo hi s → inside lo hi (s ++ ext).
Proof.
  intros Hhi Hin j nd Hj E. rewrite lookup_app_l in E by lia.
  exact (Hin j nd Hj E).
Qed.

Lemma well_linked_irrefl rank (s : tstore) n nd :
  well_linked rank s → s !! n = Some nd → parent nd ≠ Some n.
Proof.
  intros Hwl E Hp. destruct (Hwl n nd E) as [Hpar _].
  destruct (Hpar n Hp) as [Hr _]. lia.
Qed.

(** Above a node of lower rank than [n1], the store where only [n1] has
    another parent has the ancestors it had. *)
Lemma path_moved lo hi (s s1 : tstore) rank n1 :
  inside lo hi s → well_linked rank s →
  (∀ x, x ≠ n1 → s1 !! x ≫= parent = s !! x ≫= parent) →
  ∀ fuel x y, (lo <= x < hi)%nat → (rank x < rank n1)%nat →
    y ∈ path_reverse fuel s1 x → (lo <= y < hi)%nat.
Proof.
  intros Hin Hwl Hsame.
  induction fuel as [|fuel IH]; intros x y Hx Hr Hy;
    [now apply elem_of_nil in Hy|].
  rewrite path_reverse_S in Hy. apply elem_of_cons in Hy as [->|Hy];
    [exact Hx|].
  rewrite Hsame in Hy by (intros ->; lia).
  destruct (s !! x) as [nd|] eqn:E; simpl in Hy;
    [|now apply elem_of_nil in Hy].
  destruct (parent nd) as [p|] eqn:Ep; [|now apply elem_of_nil in Hy].
  apply (IH p y); [|  |exact Hy].
  - destruct (Hin x nd Hx E) as [Hp _]. exact (Hp p Ep).
  - destruct (Hwl x nd E) as [Hpar _]. destruct (Hpar p Ep) as [Hlt _]. lia.
Qed.

(** *** The exchange *)

Section ExchangeRuns.
Context `{DolloNodeMethods}.
Variable labels : list string.
Variable w : world.
Variable rank : loc → nat.
Variables a0 a1 b1 : nat.
Variables n1 n2 : loc.
Variables nd1 nd2 : DolloNode.

Hypothesis Hwl : well_linked rank (nodes w).
Hypothesis HA : inside a0 a1 (nodes w).
Hypothesis HB : inside a1 b1 (nodes w).
Hypothesis Hn1 : (a0 <= n1 < a1)%nat.
Hypothesis Hn2 : (a1 <= n2 < b1)%nat.
Hypothesis E1 : nodes w !! n1 = Some nd1.
Hypothesis E2 : nodes w !! n2 = Some nd2.

Lemma parent1_inside p : parent nd1 = Some p → (a0 <= p < a1)%nat.
Proof. destruct (HA n1 nd1 Hn1 E1) as [Hp _]. apply Hp. Qed.

Lemma parent2_inside p : parent nd2 = Some p → (a1 <= p < b1)%nat.
Proof. destruct (HB n2 nd2 Hn2 E2) as [Hp _]. apply Hp. Qed.

Lemma parents_differ :
  parent nd1 = parent nd2 → parent nd1 = None ∧ parent nd2 = None.
Proof.
  intros Heq. destruct (parent nd1) as [p|] eqn:Ep; [|now rewrite <- Heq].
  symmetry in Heq. apply parent1_inside in Ep. apply parent2_inside in Heq.
  lia.
Qed.

Lemma first_move_no_loop : makes_loop (nodes w) n1 (parent nd2) = false.
Proof.
  unfold makes_loop. destruct (parent nd2) as [p2|] eqn:Ep; [|reflexivity].
  pose proof (parent2_inside p2 Ep) as Hp2.
  apply orb_false_iff. split; apply bool_decide_eq_false.
  - lia.
  - intros Hin. apply (path_inside a1 b1 _ HB) in Hin; [lia|exact Hp2].
Qed.

Lemma second_move_no_loop :
  makes_loop (attach n1 (parent nd2) (detach n1 (parent nd1) (nodes w)))
             n2 (parent nd1) = false.
Proof.
  unfold makes_loop. destruct (parent nd1) as [p1|] eqn:Ep; [|reflexivity].
  pose proof (parent1_inside p1 Ep) as Hp1.
  apply orb_false_iff. split; apply bool_decide_eq_false; [lia|].
  intros Hin. rewrite move_length in Hin.
  apply (path_moved a0 a1 (nodes w) _ rank n1 HA Hwl) in Hin; [lia| |exact Hp1|].
  - intros x Hx. rewrite move_lookup.
    + destruct (nodes w !! x) as [nd|]; [|reflexivity]. simpl.
      unfold relinked. rewrite decide_False by exact Hx.
      repeat case_decide; reflexivity.
    + intros Heq. symmetry in Heq. apply parent2_inside in Heq. lia.
    + intros [= ->]. destruct (Hwl n1 nd1 E1) as [Hpar _].
      destruct (Hpar n1 Ep) as [Hlt _]. lia.
    + intros Hp2. apply parent2_inside in Hp2. lia.
  - destruct (Hwl n1 nd1 E1) as [Hpar _].
    now destruct (Hpar p1 Ep) as [Hlt _].
Qed.

Lemma with_parent_same (nd : DolloNode) : with_parent (parent nd) nd = nd.
Proof. now destruct nd. Qed.

(** The two assignments to [parent] exchange the two nodes. *)
Lemma swap_parents_run :
  ∃ s',
    exchanged (nodes w) s' n1 n2
    ∧ (_ ← set_parent n1 (parent nd2); set_parent n2 (parent nd1)) w
      = (Ok tt, set_nodes s' w).
Proof.
  destruct (decide (parent nd1 = parent nd2)) as [Heq|Hne].
  { destruct (parents_differ Heq) as [Hp1 Hp2].
    exists (nodes w). split.
    - split; [reflexivity|]. exists nd1, nd2.
      assert (W1 : with_parent (parent nd2) nd1 = nd1)
        by (rewrite Hp2, <- Hp1; apply with_parent_same).
      assert (W2 : with_parent (parent nd1) nd2 = nd2)
        by (rewrite Hp1, <- Hp2; apply with_parent_same).
      rewrite W1, W2, Hp1, Hp2.
      repeat split; try assumption; discriminate.
    - rewrite (bind_ok _ _ _ _ _ (set_parent_same w n1 nd1 _ E1 Heq)).
      rewrite (set_parent_same w n2 nd2 _ E2 (eq_sym Heq)).
      now destruct w. }
  set (s1 := attach n1 (parent nd2) (detach n1 (parent nd1) (nodes w))).
  set (s2 := attach n2 (parent nd1) (detach n2 (parent nd2) s1)).
  assert (Hirr1 : parent nd1 ≠ Some n1)
    by (eapply well_linked_irrefl; eassumption).
  assert (Hirr2 : parent nd2 ≠ Some n2)
    by (eapply well_linked_irrefl; eassumption).
  assert (H21 : parent nd2 ≠ Some n1)
    by (intros Hp; apply parent2_inside in Hp; lia).
  assert (H12 : parent nd1 ≠ Some n2)
    by (intros Hp; apply parent1_inside in Hp; lia).
  assert (Hs1 : ∀ x, s1 !! x
                = relinked n1 (parent nd1) (parent nd2) x <$> nodes w !! x)
    by (intros x; now apply move_lookup).
  assert (E2' : s1 !! n2 = Some nd2).
  { rewrite Hs1, E2. simpl. unfold relinked.
    rewrite decide_False by lia.
    rewrite decide_False by exact H12.
    now rewrite decide_False by exact Hirr2. }
  assert (Hs2 : ∀ x, s2 !! x
                = relinked n2 (parent nd2) (parent nd1) x <$> s1 !! x)
    by (intros x; apply move_lookup; congruence).
  exists s2. split.
  - split; [unfold s2, s1; now rewrite !move_length|].
    exists nd1, nd2. split; [exact E1|]. split; [exact E2|].
    split; [|split; [|split; [|split]]].
    + rewrite Hs2, Hs1, E1. simpl. unfold relinked.
      rewrite (decide_False (P := n1 = n2)) by lia.
      rewrite (decide_True (P := n1 = n1)) by reflexivity. simpl.
      rewrite decide_False by exact H21.
      now rewrite decide_False by exact Hirr1.
    + rewrite Hs2, E2'. simpl. unfold relinked.
      now rewrite decide_True.
    + intros p pd Ep Epd. pose proof (parent1_inside p Ep) as Hp.
      rewrite Hs2, Hs1, Epd. simpl. unfold relinked.
      rewrite (decide_False (P := p = n1)) by congruence.
      rewrite (decide_True (P := parent nd1 = Some p)) by exact Ep.
      rewrite (decide_False (P := p = n2)) by lia.
      rewrite (decide_False (P := parent nd2 = Some p))
        by (intros Hp2; apply parent2_inside in Hp2; lia).
      now rewrite decide_True by exact Ep.
    + intros p pd Ep Epd. pose proof (parent2_inside p Ep) as Hp.
      rewrite Hs2, Hs1, Epd. simpl. unfold relinked.
      rewrite (decide_False (P := p = n1)) by lia.
      rewrite (decide_False (P := parent nd1 = Some p))
        by (intros Hp1; apply parent1_inside in Hp1; lia).
      rewrite (decide_True (P := parent nd2 = Some p)) by exact Ep.
      rewrite (decide_False (P := p = n2)) by congruence.
      rewrite decide_True by exact Ep.
      unfold with_children. simpl. rewrite filter_app, filter_cons.
      rewrite decide_True by lia. now rewrite filter_nil.
    + intros x Hx1 Hx2 Hxp1 Hxp2.
      rewrite Hs2, Hs1.
      destruct (nodes w !! x) as [nd|]; [|reflexivity]. simpl.
      unfold relinked.
      rewrite !(decide_False (P := x = n1)) by exact Hx1.
      rewrite !(decide_False (P := x = n2)) by exact Hx2.
      rewrite !(decide_False (P := parent nd1 = Some x)) by exact Hxp1.
      now rewrite !(decide_False (P := parent nd2 = Some x)) by exact Hxp2.
  - rewrite (bind_ok _ _ _ _ _
      (set_parent_run w n1 nd1 _ E1 Hne first_move_no_loop)).
    fold s1.
    rewrite (set_parent_run (set_nodes s1 w) n2 nd2 (parent nd1) E2'
               ltac:(congruence) second_move_no_loop).
    reflexivity.
Qed.

Lemma exchange_run :
  ∃ s',
    exchanged (nodes w) s' n1 n2
    ∧ exchange labels n1 n2 w
      = (Ok tt,
         set_nodes (regularise labels n2 (regularise labels n1 s')) w).
Proof.
  destruct swap_parents_run as (s' & Hex & Hrun). exists s'.
  split; [exact Hex|]. unfold exchange.
  rewrite (bind_ok _ _ _ _ _ (get_parent_run w n1 nd1 E1)).
  rewrite (bind_ok _ _ _ _ _ (get_parent_run w n2 nd2 E2)).
  rewrite <- bind_assoc. rewrite (bind_ok _ _ _ _ _ Hrun).
  reflexivity.
Qed.

End ExchangeRuns.

Lemma matched_preorder (s : tstore) n lab m :
  matched s n lab = Some m → m ∈ PreOrderIter s n.
Proof.
  unfold matched.
  destruct (filter (has_label s lab) (PreOrderIter s n)) as [|x [|y l]] eqn:E;
    intros [= <-].
  assert (Hin : x ∈ filter (has_label s lab) (PreOrderIter s n))
    by (rewrite E; left).
  now apply list_elem_of_filter in Hin.
Qed.

(** C6.  On two trees of a store that is linked well, not structurally
    equal, with [individual1_n] and [individual2_n] the copies and the
    guards defined on the labels the loop gets to (no empty label in a
    covered set; where the partition maps agree on a label, one node with
    that label in either copy and an answer of the equality test on the
    two nodes): the subtree exchange goes through the labels in the order
    of the list and stops at the first label that qualifies.  There the
    two nodes with the plus label change places, each with its subtree
    going under the former parent of the other as its last child (two
    roots stay where they are), nothing else changes, the two subtrees are
    then regularised, and the result is True with the two copies.  When no
    label qualifies the result is False with the two copies, as they were
    made. *)
Theorem subtree_exchange_first_label `{DolloNodeMethods}
    (labels : list string) (i1 i2 : loc) (w w1 w2 : world)
    (individual1_n individual2_n : loc) :
  forest (nodes w) →
  tree_is_equal (nodes w) i1 (Some i2) = Ok false →
  deepcopy i1 w = (Ok individual1_n, w1) →
  deepcopy i2 w1 = (Ok individual2_n, w2) →
  (∀ lab,
     lab ∈ tried (qualifies (nodes w2)
                    (tree_get_partition (nodes w2) individual1_n ∅)
                    (tree_get_partition (nodes w2) individual2_n ∅)
                    individual1_n individual2_n) labels →
     guards_defined (nodes w2)
       (tree_get_partition (nodes w2) individual1_n ∅)
       (tree_get_partition (nodes w2) individual2_n ∅)
       individual1_n individual2_n lab) →
  match List.find
          (qualifies (nodes w2)
             (tree_get_partition (nodes w2) individual1_n ∅)
             (tree_get_partition (nodes w2) individual2_n ∅)
             individual1_n individual2_n)
          labels with
  | None =>
      dollo_crossover_exchange_subtrees labels i1 i2 w
      = (Ok (false, individual1_n, individual2_n), w2)
  | Some lab =>
      ∃ n1 n2 s',
        matched (nodes w2) individual1_n (lab +:+ "+")%string = Some n1
        ∧ matched (nodes w2) individual2_n (lab +:+ "+")%string = Some n2
        ∧ exchanged (nodes w2) s' n1 n2
        ∧ dollo_crossover_exchange_subtrees labels i1 i2 w
          = (Ok (true, individual1_n, individual2_n),
             set_nodes (regularise labels n2 (regularise labels n1 s')) w2)
  end.
Proof.
  intros [rank Hf] Ene D1 D2 Hdef. apply forest_by_spec in Hf.
  assert (Erun : dollo_crossover_exchange_subtrees labels i1 i2 w
    = (ret ← exchange_loop labels
               (tree_get_partition (nodes w2) individual1_n ∅)
               (tree_get_partition (nodes w2) individual2_n ∅)
               individual1_n individual2_n labels;
       mret (ret, individual1_n, individual2_n)) w2).
  { unfold dollo_crossover_exchange_subtrees.
    rewrite (bind_ok _ _ w w false) by (rewrite query_run; now rewrite Ene).
    rewrite (bind_ok _ _ _ _ _ D1), (bind_ok _ _ _ _ _ D2).
    rewrite (bind_ok _ _ w2 w2
               (tree_get_partition (nodes w2) individual1_n ∅))
      by reflexivity.
    now rewrite (bind_ok _ _ w2 w2
                   (tree_get_partition (nodes w2) individual2_n ∅))
      by reflexivity. }
  pose proof (exchange_loop_first labels _ _ _ _ labels w2 Hdef) as Eloop.
  destruct (List.find _ labels) as [lab|] eqn:Efind;
    [|now rewrite Erun, (bind_ok _ _ _ _ _ Eloop)].
  apply find_some in Efind as [_ Hq]. unfold qualifies in Hq.
  apply andb_true_iff in Hq as [_ Hq].
  destruct (matched (nodes w2) individual1_n (lab +:+ "+")%string)
    as [n1|] eqn:M1; [|discriminate].
  destruct (matched (nodes w2) individual2_n (lab +:+ "+")%string)
    as [n2|] eqn:M2; [|discriminate].
  clear Hq.
  destruct (deepcopy_forest _ _ _ _ _ D1 Hf)
    as (rank1 & made1 & -> & Ew1 & Hm1 & Hwl1 & HA).
  destruct (deepcopy_forest _ _ _ _ _ D2 Hwl1)
    as (rank2 & made2 & -> & Ew2 & Hm2 & Hwl2 & HB).
  assert (Hlen1 : (length (nodes w) < length (nodes w1))%nat).
  { rewrite Ew1. simpl. rewrite length_app. destruct made1; [easy|simpl; lia]. }
  assert (Hlen2 : (length (nodes w1) < length (nodes w2))%nat).
  { rewrite Ew2. simpl. rewrite length_app. destruct made2; [easy|simpl; lia]. }
  assert (HA2 : inside (length (nodes w)) (length (nodes w1)) (nodes w2)).
  { rewrite Ew2. simpl. apply inside_app; [lia|exact HA]. }
  apply matched_preorder in M1 as P1. apply matched_preorder in M2 as P2.
  unfold PreOrderIter in P1, P2.
  apply (preorder_inside _ _ _ HA2) in P1 as [Hn1 [nd1 E1]]; [|lia].
  apply (preorder_inside _ _ _ HB) in P2 as [Hn2 [nd2 E2]]; [|lia].
  destruct (exchange_run labels w2 rank2 _ _ _ n1 n2 nd1 nd2
              Hwl2 HA2 HB Hn1 Hn2 E1 E2) as (s' & Hex & Hrun).
  exists n1, n2, s'.
  split; [reflexivity|]. split; [reflexivity|]. split; [exact Hex|].
  rewrite Erun. unfold exchange_at in Eloop.
  unfold mbind, M_bind, bind in Eloop |- *.
  rewrite M1, M2, Hrun in Eloop. now rewrite Eloop.
Qed.

(** ** Mutation *)

Lemma preorder_nil fuel (s : tstore) n :
  preorder fuel s n = [] → fuel = O ∨ s !! n = None.
Proof.
  destruct fuel as [|fuel]; [now left|]. simpl.
  destruct (s !! n); [discriminate|now right].
Qed.

Lemma flat_map_nil {A B} (f : A → list B) (l : list A) :
  flat_map f l = [] ↔ ∀ x, x ∈ l → f x = [].
Proof.
  induction l as [|y l IH]; simpl.
  - split; [intros _ x Hx; now apply elem_of_nil in Hx|reflexivity].
  - split.
    + intros E. apply app_eq_nil in E as [E1 E2].
      intros x [->|Hx]%elem_of_cons; [exact E1|]. now apply IH.
    + intros Hall. rewrite (Hall y) by left. simpl.
      apply IH. intros x Hx. apply Hall. now right.
Qed.

Lemma flat_map_not_nil {A B} (f : A → list B) (l : list A) :
  flat_map f l ≠ [] → ∃ x, x ∈ l ∧ f x ≠ [].
Proof.
  induction l as [|y l IH]; simpl; [now intros []|]. intros Hne.
  destruct (f y) as [|b bs] eqn:Ey.
  - destruct (IH Hne) as (x & Hx & Hfx). exists x. split; [now right|easy].
  - exists y. split; [left|]. now rewrite Ey.
Qed.

Lemma descendants_has_child (s : tstore) n :
  tail (PreOrderIter s n) ≠ [] → has_child s n.
Proof.
  unfold PreOrderIter. destruct (length s) as [|fuel]; [now intros []|].
  simpl. destruct (s !! n) as [nd|] eqn:E; [|now intros []].
  simpl. intros Hne.
  apply flat_map_not_nil in Hne as (ch & Hch & Hp).
  exists nd, ch. split; [exact E|]. split; [exact Hch|].
  destruct fuel; [now destruct Hp|]. simpl in Hp.
  destruct (s !! ch); [eauto|now destruct Hp].
Qed.

Lemma has_child_descendants (s : tstore) n :
  (2 <= length s)%nat → has_child s n → tail (PreOrderIter s n) ≠ [].
Proof.
  intros Hlen (nd & ch & E & Hch & [x Hx]). unfold PreOrderIter.
  destruct (length s) as [|[|fuel]]; [lia|lia|].
  simpl. rewrite E. simpl. intros Hnil.
  rewrite flat_map_nil in Hnil. specialize (Hnil ch Hch).
  rewrite Hx in Hnil. discriminate.
Qed.

(** The copy of an individual with a descendant has a descendant. *)
Lemma copy_has_child (w w1 : world) i c :
  deepcopy i w = (Ok c, w1) →
  has_child (nodes w) i → has_child (nodes w1) c.
Proof.
  intros D (nd & ch & E & Hch & Hv).
  destruct (deepcopy_run w i nd E) as (ρ & more & D' & Hρ).
  rewrite D' in D. injection D as <- <-. simpl.
  exists (rename ρ nd), (ρ ch). split; [|split].
  - rewrite lookup_app_r by lia. now rewrite Nat.sub_diag.
  - simpl. now apply list_elem_of_fmap_2.
  - now apply Hρ.
Qed.

Lemma random_choice_run {A} (xs : list A) (w : world) :
  xs ≠ [] → ∃ x, x ∈ xs ∧ random_choice xs w = (Ok x, advance w).
Proof.
  destruct xs as [|x xs]; [now intros []|]. intros _.
  unfold random_choice. eexists. split; [|reflexivity].
  set (i := N.to_nat _).
  destruct (nth_in_or_default i (x :: xs) x) as [Hin| ->];
    [now apply list_elem_of_In|left].
Qed.

(** C8 (as amended).  For a label list that is not empty and an
    individual that is a tree and has a descendant, the add mutation makes
    a deep copy, draws three times and reports failure with it, changing
    nothing else; the orchestrator then returns a one-element tuple with
    a second deep copy of the individual.  The store is the old store
    followed by new nodes, so the individual is as it was; the tree under
    the returned node is the tree of the individual, label by label, tag
    by tag and child by child, and every node of it is a new object. *)
Theorem mutation_returns_copy
    (labels : list string) (k : nat) (i : loc) (w : world) (t : shape) :
  labels ≠ [] →
  tree_shape (nodes w) i = Some t →
  tail (PreOrderIter (nodes w) i) ≠ [] →
  ∃ c0 w1 c w2,
    deepcopy i w = (Ok c0, w1)
    ∧ dollo_mutation_node_add labels k i w
      = (Ok (false, c0), advance (advance (advance w1)))
    ∧ deepcopy i (advance (advance (advance w1))) = (Ok c, w2)
    ∧ mutate_dollo_node_individual labels k i w = (Ok [c], w2)
    ∧ made_after w c ∧ c ≠ c0 ∧ c ≠ i
    ∧ (∃ made, nodes w2 = nodes w ++ made)
    ∧ draws w2 = draws w ∧ drawn w2 = (drawn w + 3)%nat
    ∧ tree_shape (nodes w2) i = Some t
    ∧ tree_shape (nodes w2) c = Some t
    ∧ (∀ y, y ∈ PreOrderIter (nodes w2) c → made_after w y).
Proof.
  intros Hlab Ht Hdesc. apply descendants_has_child in Hdesc as Hchild.
  destruct Hchild as (nd & ch & E & Hch & Hv).
  assert (Hchild : has_child (nodes w) i) by now exists nd, ch.
  destruct (deepcopy_run w i nd E) as (ρ0 & more0 & D0 & _).
  set (w1 := set_nodes (nodes w ++ rename ρ0 nd :: more0) w) in *.
  pose proof (copy_has_child _ _ _ _ D0 Hchild) as Hchild1.
  assert (Hdesc1 : tail (PreOrderIter (nodes w1) (length (nodes w))) ≠ []).
  { apply has_child_descendants; [|exact Hchild1].
    apply lookup_lt_Some in E. simpl. rewrite length_app. simpl. lia. }
  destruct (random_choice_run _ w1 Hdesc1) as (rp & _ & R1).
  destruct (random_choice_run labels (advance w1) Hlab) as (rl & _ & R2).
  set (w1' := advance (advance (advance w1))).
  assert (Eadd : dollo_mutation_node_add labels k i w
                 = (Ok (false, length (nodes w)), w1')).
  { unfold dollo_mutation_node_add.
    rewrite (bind_ok _ _ _ _ _ D0).
    rewrite (bind_ok _ _ w1 w1 (tail (PreOrderIter (nodes w1)
                                        (length (nodes w))))) by reflexivity.
    rewrite (bind_ok _ _ _ _ _ R1), (bind_ok _ _ _ _ _ R2).
    reflexivity. }
  assert (E1 : nodes w1' !! i = Some nd)
    by (simpl; now apply lookup_app_l_Some).
  destruct (deepcopy_run w1' i nd E1) as (ρ & more & D & _).
  destruct (deepcopy_shape _ _ _ _ _ D0 Ht) as (_ & _ & Hkeep0 & Hlen0).
  assert (Ht1 : tree_shape (nodes w1') i = Some t) by now apply Hkeep0.
  destruct (deepcopy_shape _ _ _ _ _ D Ht1) as (Hc & Hnew & Hkeep & Hlen).
  eexists _, w1, _, _.
  split; [exact D0|]. split; [exact Eadd|]. split; [exact D|]. split.
  { unfold mutate_dollo_node_individual.
    rewrite (bind_ok _ _ _ _ _ Eadd). cbv beta iota.
    rewrite (bind_ok _ _ _ _ _ D). reflexivity. }
  apply lookup_lt_Some in E as Hlt.
  split; [|split; [|split; [|split; [|split; [|split; [|split; [|split]]]]]]].
  - unfold made_after. simpl. rewrite length_app. lia.
  - simpl. rewrite length_app. simpl. lia.
  - simpl. rewrite length_app. lia.
  - simpl. rewrite <- app_assoc. now eexists.
  - reflexivity.
  - simpl. lia.
  - now apply Hkeep.
  - exact Hc.
  - intros y Hy. specialize (Hnew y Hy). unfold made_after in *.
    simpl in Hnew, Hlen0. lia.
Qed.

(** ** The claims about crossover and mutation on the sample trees *)

Lemma crossover_of_equal_trees_witness :
  dollo_crossover_exchange_subtrees (H := Reference.methods)
    ["a"; "b"; "c"]%string 0%nat 9%nat Reference.twin_world
  = (Ok (false, 0%nat, 9%nat), Reference.twin_world)
  ∧ dollo_crossover_exchange_edge (H := Reference.methods)
      ["a"; "b"; "c"]%string 0%nat 9%nat Reference.twin_world
    = (Ok (false, 0%nat, 9%nat), Reference.twin_world).
Proof.
  apply (crossover_of_equal_trees (H := Reference.methods)).
  vm_compute. reflexivity.
Defined.

(** C3, as stated, fails: the tree at 0 and its copy at 9 are structurally
    equal, and the subtree exchange does not return success = False with
    two deep copies, that is, with objects that did not exist before. *)
Lemma subtree_exchange_returns_inputs :
  tree_is_equal (DolloNodeMethods := Reference.methods)
    (nodes Reference.twin_world) 0%nat (Some 9%nat) = Ok true
  ∧ ¬ (∃ c1 c2 w',
         dollo_crossover_exchange_subtrees (H := Reference.methods)
           ["a"; "b"; "c"]%string 0%nat 9%nat Reference.twin_world
         = (Ok (false, c1, c2), w')
         ∧ made_after Reference.twin_world c1
         ∧ made_after Reference.twin_world c2).
Proof.
  split; [vm_compute; reflexivity|].
  intros (c1 & c2 & w' & E & H1 & _).
  assert (E' : dollo_crossover_exchange_subtrees (H := Reference.methods)
                 ["a"; "b"; "c"]%string 0%nat 9%nat Reference.twin_world
               = (Ok (false, 0%nat, 9%nat), Reference.twin_world))
    by (vm_compute; reflexivity).
  rewrite E' in E. injection E as <- _ _.
  unfold made_after in H1. vm_compute in H1. lia.
Qed.

(** C2, as stated, fails: on the structurally equal trees at 0 and at 9 the
    edge exchange returns the two input objects themselves. *)
Lemma edge_exchange_returns_inputs :
  ¬ (∀ b c1 c2 w',
       dollo_crossover_exchange_edge (H := Reference.methods)
         ["a"; "b"; "c"]%string 0%nat 9%nat Reference.twin_world
       = (Ok (b, c1, c2), w') →
       c1 ≠ 0%nat ∧ c2 ≠ 9%nat).
Proof.
  intros Hclaim.
  destruct (Hclaim false 0%nat 9%nat Reference.twin_world) as [Hne _].
  - vm_compute. reflexivity.
  - now apply Hne.
Qed.

Lemma crossover_returns_copies_witness :
  ∃ w1 w2,
    deepcopy 0%nat Reference.sample_world = (Ok 9%nat, w1)
    ∧ deepcopy 4%nat w1 = (Ok 13%nat, w2)
    ∧ made_after Reference.sample_world 9%nat
    ∧ made_after Reference.sample_world 13%nat
    ∧ 9%nat ≠ 0%nat ∧ 9%nat ≠ 4%nat ∧ 13%nat ≠ 0%nat ∧ 13%nat ≠ 4%nat
    ∧ 9%nat ≠ 13%nat.
Proof.
  apply (crossover_returns_copies (H := Reference.methods)
           ["a"; "b"; "c"]%string 0%nat 4%nat Reference.sample_world
           (snd (dollo_crossover_exchange_subtrees (H := Reference.methods)
                   ["a"; "b"; "c"]%string 0%nat 4%nat
                   Reference.sample_world))
           false 9%nat 13%nat).
  - eexists. reflexivity.
  - eexists. reflexivity.
  - vm_compute. reflexivity.
  - left. vm_compute. reflexivity.
Defined.

(** The chain and the bushy tree are linked well: every parent has a
    lower address than its children. *)
Lemma chain_forest : forest (nodes Reference.chain_world).
Proof. exists (λ n, n). vm_compute. reflexivity. Defined.

(** On the copies of the chain and of the bushy tree the guards of the
    labels c and a are defined. *)
Lemma chain_guards (lab : string) :
  lab ∈ ["c"; "a"]%string →
  guards_defined (H := Reference.methods) (nodes Reference.chain_world2)
    (Reference.get_partition (nodes Reference.chain_world2) 8%nat ∅)
    (Reference.get_partition (nodes Reference.chain_world2) 12%nat ∅)
    8%nat 12%nat lab.
Proof.
  intros Hlab.
  assert (Hcases : lab = "c"%string ∨ lab = "a"%string).
  { repeat (apply elem_of_cons in Hlab as [->|Hlab]; [tauto|]).
    now apply elem_of_nil in Hlab. }
  destruct Hcases as [->| ->]; split.
  all: try (intros part covered c Hpart Hcov Hc;
            repeat (apply elem_of_cons in Hpart as [->|Hpart];
                    [vm_compute in Hcov; injection Hcov as <-;
                     apply list_elem_of_singleton in Hc as ->;
                     apply (bool_decide_unpack _); vm_compute; exact I|]);
            now apply elem_of_nil in Hpart).
  - intros _. exists 11%nat, 15%nat, true. vm_compute. auto.
  - intros _. exists 9%nat, 13%nat, false. vm_compute. auto.
Defined.

(** The labels the loop gets to on the chain and the bushy tree: c does
    not qualify, a does, b is not looked at. *)
Lemma chain_tried :
  tried (qualifies (H := Reference.methods)
           (nodes Reference.chain_world2)
           (Reference.get_partition (nodes Reference.chain_world2) 8%nat ∅)
           (Reference.get_partition (nodes Reference.chain_world2) 12%nat ∅)
           8%nat 12%nat)
        ["c"; "a"; "b"]%string
  = ["c"; "a"]%string.
Proof. vm_compute. reflexivity. Defined.

Lemma subtree_exchange_first_label_witness :
  match List.find
          (qualifies (H := Reference.methods)
             (nodes Reference.chain_world2)
             (Reference.get_partition (nodes Reference.chain_world2)
                8%nat ∅)
             (Reference.get_partition (nodes Reference.chain_world2)
                12%nat ∅)
             8%nat 12%nat)
          ["c"; "a"; "b"]%string with
  | None =>
      dollo_crossover_exchange_subtrees (H := Reference.methods)
        ["c"; "a"; "b"]%string 0%nat 4%nat Reference.chain_world
      = (Ok (false, 8%nat, 12%nat), Reference.chain_world2)
  | Some lab =>
      ∃ n1 n2 s',
        matched (nodes Reference.chain_world2) 8%nat (lab +:+ "+")%string
        = Some n1
        ∧ matched (nodes Reference.chain_world2) 12%nat
            (lab +:+ "+")%string
          = Some n2
        ∧ exchanged (nodes Reference.chain_world2) s' n1 n2
        ∧ dollo_crossover_exchange_subtrees (H := Reference.methods)
            ["c"; "a"; "b"]%string 0%nat 4%nat Reference.chain_world
          = (Ok (true, 8%nat, 12%nat),
             set_nodes
               (regularise (H := Reference.methods)
                  ["c"; "a"; "b"]%string n2
                  (regularise (H := Reference.methods)
                     ["c"; "a"; "b"]%string n1 s'))
               Reference.chain_world2)
  end.
Proof.
  apply (subtree_exchange_first_label (H := Reference.methods)
           ["c"; "a"; "b"]%string 0%nat 4%nat Reference.chain_world
           Reference.chain_world1 Reference.chain_world2 8%nat 12%nat).
  - exact chain_forest.
  - vm_compute. reflexivity.
  - reflexivity.
  - reflexivity.
  - intros lab Hlab. apply chain_guards.
    exact (eq_ind _ (λ l, lab ∈ l) Hlab _ chain_tried).
Defined.

(** On the chain and the bushy tree the first label that qualifies is a,
    and the exchange made there succeeds: the chain under a+ now hangs
    under the root of the second copy and the bush under a+ under the root
    of the first. *)
Lemma chain_exchange_at_a :
  List.find
    (qualifies (H := Reference.methods) (nodes Reference.chain_world2)
       (Reference.get_partition (nodes Reference.chain_world2) 8%nat ∅)
       (Reference.get_partition (nodes Reference.chain_world2) 12%nat ∅)
       8%nat 12%nat)
    ["c"; "a"; "b"]%string
  = Some "a"%string
  ∧ ∃ w',
      dollo_crossover_exchange_subtrees (H := Reference.methods)
        ["c"; "a"; "b"]%string 0%nat 4%nat Reference.chain_world
      = (Ok (true, 8%nat, 12%nat), w')
      ∧ tree_shape (nodes w') 8%nat
        = Some (Shape "--" [false; false; false]
                  [Shape "a+" [true; false; false]
                     [Shape "b+" [true; true; false] [];
                      Shape "c+" [true; false; true] []]])
      ∧ tree_shape (nodes w') 12%nat
        = Some (Shape "--" [false; false; false]
                  [Shape "a+" [true; false; false]
                     [Shape "b+" [true; true; false]
                        [Shape "c+" [true; true; true] []]]]).
Proof.
  split; [vm_compute; reflexivity|].
  eexists. split; [vm_compute; reflexivity|].
  split; vm_compute; reflexivity.
Qed.

(** C7, as stated, fails: with an empty label list and parents that are
    not structurally equal no offspring is returned; [random.choice] raises
    IndexError in the edge exchange. *)
Lemma crossover_without_labels_raises :
  fst (crossover_dollo_node_individuals (H := Reference.methods)
         [] 0%nat 4%nat Reference.sample_world)
  = Raise IndexError
  ∧ ¬ (∃ o1 o2 w',
         crossover_dollo_node_individuals (H := Reference.methods)
           [] 0%nat 4%nat Reference.sample_world
         = (Ok (o1, o2), w')).
Proof.
  assert (E : fst (crossover_dollo_node_individuals (H := Reference.methods)
                     [] 0%nat 4%nat Reference.sample_world)
              = Raise IndexError) by (vm_compute; reflexivity).
  split; [exact E|].
  intros (o1 & o2 & w' & E'). rewrite E' in E. discriminate.
Qed.

Lemma crossover_offspring_witness :
  match dollo_crossover_exchange_subtrees (H := Reference.methods)
          ["a"; "b"; "c"]%string 0%nat 9%nat Reference.twin_world with
  | (Raise e, w1) =>
      crossover_dollo_node_individuals (H := Reference.methods)
        ["a"; "b"; "c"]%string 0%nat 9%nat Reference.twin_world
      = (Raise e, w1)
  | (Ok (true, a, b), w1) =>
      crossover_dollo_node_individuals (H := Reference.methods)
        ["a"; "b"; "c"]%string 0%nat 9%nat Reference.twin_world
      = (Ok (a, b), w1)
  | (Ok (false, _, _), w1) =>
      match dollo_crossover_exchange_edge (H := Reference.methods)
              ["a"; "b"; "c"]%string 0%nat 9%nat w1 with
      | (Raise e, w2) =>
          crossover_dollo_node_individuals (H := Reference.methods)
            ["a"; "b"; "c"]%string 0%nat 9%nat Reference.twin_world
          = (Raise e, w2)
      | (Ok (true, a, b), w2) =>
          crossover_dollo_node_individuals (H := Reference.methods)
            ["a"; "b"; "c"]%string 0%nat 9%nat Reference.twin_world
          = (Ok (a, b), w2)
      | (Ok (false, _, _), w2) =>
          ∃ c1 c2 w3 w4 ext,
            nodes w2 = nodes Reference.twin_world ++ ext
            ∧ deepcopy 0%nat w2 = (Ok c1, w3)
            ∧ deepcopy 9%nat w3 = (Ok c2, w4)
            ∧ crossover_dollo_node_individuals (H := Reference.methods)
                ["a"; "b"; "c"]%string 0%nat 9%nat Reference.twin_world
              = (Ok (c1, c2), w4)
            ∧ made_after Reference.twin_world c1
            ∧ made_after Reference.twin_world c2 ∧ c1 ≠ c2
      end
  end.
Proof.
  apply (crossover_offspring (H := Reference.methods)
           ["a"; "b"; "c"]%string 0%nat 9%nat Reference.twin_world).
  - eexists. reflexivity.
  - eexists. reflexivity.
Defined.

(** On the structurally equal trees both strategies fail and the offspring
    are the two new copies at 13 and 17. *)
Lemma crossover_clones_equal_trees :
  fst (crossover_dollo_node_individuals (H := Reference.methods)
         ["a"; "b"; "c"]%string 0%nat 9%nat Reference.twin_world)
  = Ok (13%nat, 17%nat).
Proof. vm_compute. reflexivity. Qed.

(** C8, as stated, fails: for an individual without descendants
    [random.choice] raises IndexError in the add mutation and no tuple is
    returned. *)
Lemma mutation_of_single_node_raises :
  fst (mutate_dollo_node_individual ["a"]%string 2 8%nat
         Reference.sample_world)
  = Raise IndexError
  ∧ ¬ (∃ c w',
         mutate_dollo_node_individual ["a"]%string 2 8%nat
           Reference.sample_world
         = (Ok [c], w')).
Proof.
  assert (E : fst (mutate_dollo_node_individual ["a"]%string 2 8%nat
                     Reference.sample_world)
              = Raise IndexError) by (vm_compute; reflexivity).
  split; [exact E|].
  intros (c & w' & E'). rewrite E' in E. discriminate.
Qed.

Lemma mutation_returns_copy_witness :
  ∃ c0 w1 c w2,
    deepcopy 0%nat Reference.sample_world = (Ok c0, w1)
    ∧ dollo_mutation_node_add ["a"]%string 2 0%nat Reference.sample_world
      = (Ok (false, c0), advance (advance (advance w1)))
    ∧ deepcopy 0%nat (advance (advance (advance w1))) = (Ok c, w2)
    ∧ mutate_dollo_node_individual ["a"]%string 2 0%nat
        Reference.sample_world
      = (Ok [c], w2)
    ∧ made_after Reference.sample_world c ∧ c ≠ c0 ∧ c ≠ 0%nat
    ∧ (∃ made, nodes w2 = nodes Reference.sample_world ++ made)
    ∧ draws w2 = draws Reference.sample_world
    ∧ drawn w2 = (drawn Reference.sample_world + 3)%nat
    ∧ tree_shape (nodes w2) 0%nat
      = Some (Shape "--" [false; false; false]
                [Shape "a+" [true; false; false]
                   [Shape "b+" [true; true; false] []];
                 Shape "c+" [false; false; true] []])
    ∧ tree_shape (nodes w2) c
      = Some (Shape "--" [false; false; false]
                [Shape "a+" [true; false; false]
                   [Shape "b+" [true; true; false] []];
                 Shape "c+" [false; false; true] []])
    ∧ (∀ y, y ∈ PreOrderIter (nodes w2) c →
            made_after Reference.sample_world y).
Proof.
  apply (mutation_returns_copy ["a"]%string 2 0%nat Reference.sample_world).
  - discriminate.
  - vm_compute. reflexivity.
  - vm_compute. discriminate.
Defined.

(** ** The perturbed reads an evaluation builds *)

Lemma with_perturbed_cons h0 it made (h : heap) :
  with_perturbed h0 (it :: made) h
  = with_perturbed h0 made (h ++ perturbed_read h0 h it).
Proof. reflexivity. Qed.

Lemma with_perturbed_app h0 made1 made2 (h : heap) :
  with_perturbed h0 (made1 ++ made2) h
  = with_perturbed h0 made2 (with_perturbed h0 made1 h).
Proof. unfold with_perturbed. apply fold_left_app. Qed.

Lemma with_perturbed_prefix h0 made : ∀ h : heap,
  h `prefix_of` with_perturbed h0 made h.
Proof.
  induction made as [|it made IH]; intros h; [reflexivity|].
  rewrite with_perturbed_cons. etrans; [|apply IH]. now apply prefix_app_r.
Qed.

(** The objects of the [k]-th perturbed read. *)
Lemma with_perturbed_lookup h0 made : ∀ (h : heap) k r rv ps,
  made !! k = Some (r, rv, ps) →
  with_perturbed h0 made h !! (length h + 2 * k)%nat
  = Some (OBitArray (cleared (rv_binary rv) ps))
  ∧ with_perturbed h0 made h !! (length h + 2 * k + 1)%nat
    = Some (OReadElement "XXX2" (length h + 2 * k) (unknown_of h0 r)).
Proof.
  induction made as [|it made IH]; intros h k r rv ps Hk; [easy|].
  rewrite with_perturbed_cons. destruct k as [|k]; simpl in Hk.
  - injection Hk as ->.
    destruct (with_perturbed_prefix h0 made
                (h ++ perturbed_read h0 h (r, rv, ps))) as [ext ->].
    rewrite <- !app_assoc. split.
    + rewrite lookup_app_r by lia.
      replace (length h + 2 * 0 - length h)%nat with 0%nat by lia.
      reflexivity.
    + rewrite lookup_app_r by lia.
      replace (length h + 2 * 0 + 1 - length h)%nat with 1%nat by lia.
      simpl. do 3 f_equal. lia.
  - destruct (IH (h ++ perturbed_read h0 h it) k r rv ps Hk) as [E1 E2].
    rewrite length_app in E1, E2. simpl in E1, E2.
    replace (length h + 2 * S k)%nat with (length h + 2 + 2 * k)%nat by lia.
    now split.
Qed.

Lemma emitted_ret {A} (T : Prop) h0 (v : A) (h : heap) :
  emitted T h0 [] h ((mret v : M heap A) h).
Proof. now exists []. Qed.

Lemma emitted_bind {A B} (T : Prop) h0 its1 its2
    (c : M heap A) (k : A → M heap B) (h : heap) :
  h0 `prefix_of` h →
  emitted T h0 its1 h (c h) →
  (∀ a h', h0 `prefix_of` h' → emitted T h0 its2 h' (k a h')) →
  emitted T h0 (its1 ++ its2) h ((c ≫= k) h).
Proof.
  intros Hh (made1 & Es & Hr) Hk. unfold mbind, M_bind, bind.
  destruct (c h) as [[x|e] h1]; simpl in *.
  - subst made1 h1.
    destruct (Hk x (with_perturbed h0 its1 h)) as (made2 & Es2 & Hr2).
    { etrans; [exact Hh|apply with_perturbed_prefix]. }
    exists (its1 ++ made2). split.
    + now rewrite with_perturbed_app.
    + destruct (fst (k x _)); [now subst|].
      destruct Hr2 as [HT Hp]. split; [exact HT|now apply prefix_app].
  - exists made1. split; [exact Es|].
    destruct Hr as [HT Hp]. split; [exact HT|now apply prefix_app_r].
Qed.

Lemma for_each_emitted2 {A C B} (T : Prop) h0 (R : A → C → Prop)
    (items : A * C → list (loc * ReadView * list nat))
    (body : A → B → M heap B) xs ys :
  Forall2 R xs ys →
  (∀ x y acc h, R x y → h0 `prefix_of` h →
     emitted T h0 (items (x, y)) h (body x acc h)) →
  ∀ acc h, h0 `prefix_of` h →
    emitted T h0 (flat_map items (zip xs ys)) h (for_each xs acc body h).
Proof.
  intros HR Hbody. induction HR as [|x y xs ys Hxy _ IH]; intros acc h Hh.
  - apply emitted_ret.
  - rewrite for_each_cons. simpl.
    apply emitted_bind; [exact Hh|now apply Hbody|].
    intros acc' h' Hh'. now apply IH.
Qed.

Lemma for_each_emitted {A B} (T : Prop) h0
    (items : A → list (loc * ReadView * list nat))
    (body : A → B → M heap B) xs :
  (∀ x acc h, x ∈ xs → h0 `prefix_of` h →
     emitted T h0 (items x) h (body x acc h)) →
  ∀ acc h, h0 `prefix_of` h →
    emitted T h0 (flat_map items xs) h (for_each xs acc body h).
Proof.
  induction xs as [|x xs IH]; intros Hbody acc h Hh.
  - apply emitted_ret.
  - rewrite for_each_cons. simpl.
    apply emitted_bind; [exact Hh|apply Hbody; [left|exact Hh]|].
    intros acc' h' Hh'. apply IH; [|exact Hh'].
    intros y acc'' h'' Hy. apply Hbody. now right.
Qed.

(** *** The loops choose the combinations of the set positions *)

Lemma tails_map_range {B} (g : nat → list nat → list B) (m : nat) :
  ∀ k s, (m - s = k)%nat →
  tails_map g (range s m) = flat_map (λ i, g i (range (i + 1) m)) (range s m).
Proof.
  unfold range.
  induction k as [|k IH]; intros s Hk; rewrite Hk; [reflexivity|].
  simpl. f_equal.
  - f_equal. replace (m - (s + 1))%nat with k by lia.
    now rewrite Nat.add_1_r.
  - specialize (IH (S s) ltac:(lia)).
    replace (m - S s)%nat with k in IH by lia. exact IH.
Qed.

Lemma picks_range {B} (f : list nat → B) (b : nat → bool) n pre c s m :
  map f (picks b (S n) pre c (range s m))
  = flat_map (λ i, map f (picks b n (pre ++ [i]) (c && b i)
                                (range (i + 1) m)))
             (range s m).
Proof.
  simpl picks. rewrite (tails_map_range _ m (m - s) s eq_refl).
  induction (range s m) as [|i l IH]; [reflexivity|].
  simpl. now rewrite map_app, IH.
Qed.

Lemma picks_false b n : ∀ pre l, picks b n pre false l = [].
Proof.
  induction n as [|n IH]; intros pre l; [reflexivity|].
  simpl. induction l as [|x l IHl]; [reflexivity|].
  simpl. now rewrite IH, IHl.
Qed.

Lemma picks_true b n : ∀ pre l,
  picks b n pre true l
  = map (app pre) (combinations n (filter (λ i, b i = true) l)).
Proof.
  induction n as [|n IH]; intros pre l.
  - rewrite combinations_0. simpl. now rewrite app_nil_r.
  - induction l as [|x l IHl]; [reflexivity|].
    change (picks b (S n) pre true (x :: l))
      with (picks b n (pre ++ [x]) (b x) l ++ picks b (S n) pre true l).
    rewrite IHl, filter_cons.
    destruct (b x) eqn:Ex.
    + rewrite decide_True by reflexivity. rewrite IH. simpl.
      rewrite map_app, map_map. f_equal.
      apply map_ext. intros ps. now rewrite <- app_assoc.
    + rewrite decide_False by discriminate. now rewrite picks_false.
Qed.

Lemma combinations_picks (x : loc * ReadView) n :
  map (pair x) (combinations n (set_positions (snd x)))
  = map (pair x)
        (picks (bit (snd x)) n [] true (range 0 (width (snd x)))).
Proof.
  rewrite picks_true. unfold set_positions, range.
  rewrite Nat.sub_0_r. f_equal. symmetry. apply map_id.
Qed.

Lemma flat_map_const_nil {A B} (l : list A) :
  flat_map (λ _, @nil B) l = [].
Proof. now induction l. Qed.

(** a chosen list of positions is a list of set positions of the read *)
Lemma perturbations_elem n reads rvs r rv ps (R : loc → ReadView → Prop) :
  Forall2 R reads rvs →
  (r, rv, ps) ∈ perturbations n reads rvs →
  r ∈ reads ∧ R r rv ∧ ps ∈ combinations n (set_positions rv).
Proof.
  intros HR Hin. unfold perturbations in Hin.
  apply list_elem_of_In, in_flat_map in Hin as ([r' rv'] & Hz & Hps).
  apply in_map_iff in Hps as (ps' & [= <- <- <-] & Hps).
  apply list_elem_of_In in Hps. split; [|split; [|exact Hps]].
  - clear Hps. induction HR as [|x y xs ys _ _ IH]; [destruct Hz|].
    destruct Hz as [[= <- <-]|Hz]; [left|right; now apply IH].
  - clear Hps. induction HR as [|x y xs ys Hxy _ IH]; [destruct Hz|].
    destruct Hz as [[= <- <-]|Hz]; [exact Hxy|now apply IH].
Qed.

Lemma combinations_length {A} n : ∀ (l ps : list A),
  ps ∈ combinations n l → length ps = n.
Proof.
  induction n as [|n IH]; intros l ps Hin.
  - rewrite combinations_0 in Hin.
    apply list_elem_of_singleton in Hin as ->. reflexivity.
  - induction l as [|x l IHl]; simpl in Hin; [now apply elem_of_nil in Hin|].
    apply elem_of_app in Hin as [Hin|Hin]; [|now apply IHl].
    apply list_elem_of_fmap in Hin as (ps' & -> & Hin).
    simpl. f_equal. now apply (IH l).
Qed.

(** *** The levels *)

Section PerturbedReads.
Context `{DolloNodeMethods}.
Variable ts : tstore.
Variable h0 : heap.
Variables alpha individual : pyval.

Let T : Prop := well_typed alpha individual.
Let R : loc → ReadView → Prop := is_view h0.

Lemma is_view_prefix (h : heap) r rv :
  h0 `prefix_of` h → is_view h0 r rv → is_view h r rv.
Proof. intros [ext ->]. apply is_view_app. Qed.

Lemma py_mul_harmless x :
  harmless T (λ _ : unit, py_mul x alpha).
Proof.
  intros _ h. unfold py_mul. destruct alpha as [q|l] eqn:E.
  - split; [reflexivity|discriminate].
  - split; [reflexivity|]. intros e _ [[a' Ha'] _]. discriminate.
Qed.

(** the value added for a perturbed read at level 1 *)
Lemma weight1_harmless (acc : Q) :
  harmless T (λ d : Q, t ← py_mul d alpha; mret (acc + t)).
Proof.
  intros d h. destruct (py_mul_harmless d tt h) as [Es Hr].
  rewrite bind_pure by exact Es.
  destruct (fst (py_mul d alpha h)) as [t|e] eqn:E; [|now split; eauto].
  split; [reflexivity|discriminate].
Qed.

(** the value added for a perturbed read at levels 2 and 3 *)
Lemma weight2_harmless (acc : Q) :
  harmless T (λ d : Q, t ← py_mul d alpha; t ← py_mul t alpha;
                       mret (acc + t)).
Proof.
  intros d h. destruct (py_mul_harmless d tt h) as [Es Hr].
  rewrite bind_pure by exact Es.
  destruct (fst (py_mul d alpha h)) as [t|e] eqn:E; [|now split; eauto].
  apply (weight1_harmless acc t h).
Qed.

Lemma closest_emitted h r rv (acc : Q) :
  h0 `prefix_of` h → is_view h0 r rv →
  emitted T h0 [] h
    (('(node, d) ← dolo_closest_node_distance ts individual r;
      mret (acc + d)) h).
Proof.
  intros Hh Hv. apply (is_view_prefix h) in Hv; [|exact Hh].
  exists []. unfold dolo_closest_node_distance.
  destruct individual as [q|l] eqn:E.
  - split; [reflexivity|]. simpl.
    split; [|reflexivity]. intros [_ [t' Ht']]. discriminate.
  - rewrite bind_assoc, (bind_ok _ _ _ _ _ (view_run _ _ _ Hv)).
    rewrite (bind_ok _ _ _ _ _ (mret_run _ _)).
    now destruct (closest_node_in_tree ts l rv).
Qed.

Lemma level0_emitted reads rvs h :
  Forall2 R reads rvs → h0 `prefix_of` h →
  emitted T h0 [] h (dollo_evaluate_direct_level0 ts reads alpha individual h).
Proof.
  intros HR Hh. unfold dollo_evaluate_direct_level0.
  rewrite <- (flat_map_const_nil (zip reads rvs)).
  apply (for_each_emitted2 T h0 R); [exact HR| |exact Hh].
  intros r rv acc h' Hv Hh'. now apply (closest_emitted h' r rv).
Qed.

(** Wrapping the perturbed bits in a read and querying the tree. *)
Lemma perturbed_emitted h r rv ps bits' (k : Q → M heap Q) :
  h0 `prefix_of` h → is_view h0 r rv →
  bits' = cleared (rv_binary rv) ps →
  harmless T k →
  emitted T h0 [(r, rv, ps)] h
    ((u ← get_unknown_read r;
      re2 ← new_ReadElement "XXX2" (length h) u;
      '(node, d) ← dolo_closest_node_distance ts individual re2;
      k d) (h ++ [OBitArray bits'])).
Proof.
  intros [ext ->] (b & u & Er & Eb & Eu) -> Hk.
  assert (Eu0 : unknown_of h0 r = u) by (unfold unknown_of; now rewrite Er).
  set (h := h0 ++ ext). set (bits' := cleared (rv_binary rv) ps).
  assert (Er' : (h ++ [OBitArray bits']) !! r
                = Some (OReadElement (rv_label rv) b u))
    by (now do 2 apply lookup_app_l_Some).
  rewrite (bind_ok _ _ _ _ _ (get_unknown_read_run _ _ _ _ _ Er')).
  erewrite bind_ok; [|reflexivity]. cbv beta.
  rewrite <- app_assoc, length_app, Nat.add_1_r. simpl app.
  assert (Eh : h ++ [OBitArray bits'; OReadElement "XXX2" (length h) u]
               = with_perturbed h0 [(r, rv, ps)] h).
  { unfold with_perturbed, perturbed_read. simpl. now rewrite Eu0. }
  assert (Hv : is_view (h ++ [OBitArray bits';
                               OReadElement "XXX2" (length h) u])
                 (S (length h)) (mkReadView "XXX2" bits' (rv_unknown rv))).
  { exists (length h), u. simpl. repeat split.
    - rewrite lookup_app_r by lia.
      replace (S (length h) - length h)%nat with 1%nat by lia. reflexivity.
    - rewrite lookup_app_r by lia. now rewrite Nat.sub_diag.
    - now do 2 apply lookup_app_l_Some. }
  exists [(r, rv, ps)]. unfold dolo_closest_node_distance.
  destruct individual as [q|l] eqn:E.
  - split; [exact Eh|]. simpl.
    split; [|reflexivity]. intros [_ [t' Ht']]. discriminate.
  - rewrite bind_assoc, (bind_ok _ _ _ _ _ (view_run _ _ _ Hv)).
    rewrite (bind_ok _ _ _ _ _ (mret_run _ _)).
    destruct (closest_node_in_tree ts l _) as [node d].
    destruct (Hk d (h ++ [OBitArray bits';
                          OReadElement "XXX2" (length h) u])) as [Es Hr].
    split; [now rewrite Es|].
    destruct (fst (k d _)) as [v|e]; [reflexivity|].
    split; [now apply (Hr e)|reflexivity].
Qed.

Lemma read_bit_at (h : heap) r rv i :
  is_view h r rv → (i < width rv)%nat →
  (b ← get_binary_read r; bitarray_get b i) h = (Ok (bit rv i), h).
Proof.
  intros (b & u & Er & Eb & Eu) Hi.
  rewrite (bind_ok _ _ _ _ _ (get_binary_read_run _ _ _ _ _ Er)).
  destruct (lookup_lt_is_Some_2 (rv_binary rv) i) as [x Ex]; [exact Hi|].
  unfold bit. rewrite Ex. simpl. eapply bitarray_get_run; eassumption.
Qed.

Lemma read_width_at (h : heap) r rv :
  is_view h r rv →
  (b ← get_binary_read r; bitarray_length b) h = (Ok (width rv), h).
Proof.
  intros (b & u & Er & Eb & Eu).
  rewrite (bind_ok _ _ _ _ _ (get_binary_read_run _ _ _ _ _ Er)).
  eapply bitarray_length_run; eassumption.
Qed.

Lemma copy_bits_at (h : heap) r rv :
  is_view h r rv →
  (src ← get_binary_read r; new_BitArray src) h
  = (Ok (length h), h ++ [OBitArray (rv_binary rv)]).
Proof.
  intros (b & u & Er & Eb & Eu).
  rewrite (bind_ok _ _ _ _ _ (get_binary_read_run _ _ _ _ _ Er)).
  eapply new_BitArray_run; eassumption.
Qed.

Lemma level1_emitted reads rvs h :
  Forall2 R reads rvs → h0 `prefix_of` h →
  emitted T h0 (perturbations 1 reads rvs) h
    (dollo_evaluate_direct_level1 ts reads alpha individual h).
Proof.
  intros HR Hh. unfold dollo_evaluate_direct_level1.
  change (perturbations 1 reads rvs) with ([] ++ perturbations 1 reads rvs).
  apply emitted_bind; [exact Hh|now apply (level0_emitted reads rvs)|].
  clear h Hh. intros v0 h Hh.
  apply (for_each_emitted2 T h0 R); [exact HR| |exact Hh].
  clear h Hh v0. intros r rv acc h Hv Hh.
  pose proof (is_view_prefix h r rv Hh Hv) as Hvh.
  rewrite (bind_ok2 _ _ _ _ _ _ (read_width_at _ _ _ Hvh)).
  rewrite (combinations_picks (r, rv)), picks_range. simpl snd.
  apply for_each_emitted; [|exact Hh].
  clear h Hh Hvh acc. intros i acc h Hi Hh. apply elem_of_range in Hi.
  pose proof (is_view_prefix h r rv Hh Hv) as Hvh.
  rewrite (bind_ok2 _ _ _ _ _ _ (read_bit_at _ _ _ i Hvh ltac:(lia))).
  simpl picks. destruct (bit rv i); simpl; [|apply emitted_ret].
  rewrite (bind_ok2 _ _ _ _ _ _ (copy_bits_at _ _ _ Hvh)).
  unfold width in *.
  rewrite (bind_ok _ _ _ _ _
    (bitarray_set_last h (rv_binary rv) i false ltac:(lia))).
  apply (perturbed_emitted h r rv [i]);
    [exact Hh|exact Hv|reflexivity|apply weight1_harmless].
Qed.

Lemma level2_emitted reads rvs h :
  Forall2 R reads rvs → h0 `prefix_of` h →
  emitted T h0 (perturbations 1 reads rvs ++ perturbations 2 reads rvs) h
    (dollo_evaluate_direct_level2 ts reads alpha individual h).
Proof.
  intros HR Hh. unfold dollo_evaluate_direct_level2.
  apply emitted_bind; [exact Hh|now apply (level1_emitted reads rvs)|].
  clear h Hh. intros v1 h Hh.
  apply (for_each_emitted2 T h0 R); [exact HR| |exact Hh].
  clear h Hh v1. intros r rv acc h Hv Hh.
  pose proof (is_view_prefix h r rv Hh Hv) as Hvh.
  rewrite (bind_ok2 _ _ _ _ _ _ (read_width_at _ _ _ Hvh)).
  rewrite (combinations_picks (r, rv)), picks_range. simpl snd.
  apply for_each_emitted; [|exact Hh].
  clear h Hh Hvh acc. intros i acc h Hi Hh. apply elem_of_range in Hi.
  pose proof (is_view_prefix h r rv Hh Hv) as Hvh.
  rewrite (bind_ok2 _ _ _ _ _ _ (read_width_at _ _ _ Hvh)).
  rewrite picks_range.
  apply for_each_emitted; [|exact Hh].
  clear h Hh Hvh acc. intros j acc h Hj Hh. apply elem_of_range in Hj.
  pose proof (is_view_prefix h r rv Hh Hv) as Hvh.
  rewrite (bind_ok2 _ _ _ _ _ _ (read_bit_at _ _ _ i Hvh ltac:(lia))).
  simpl picks. destruct (bit rv i); cbv iota;
    [|rewrite bind_ok with (1:=mret_run _ _); apply emitted_ret].
  rewrite (bind_ok _ _ _ _ _ (read_bit_at _ _ _ j Hvh ltac:(lia))).
  destruct (bit rv j); simpl; [|apply emitted_ret].
  rewrite (bind_ok2 _ _ _ _ _ _ (copy_bits_at _ _ _ Hvh)).
  unfold width in *.
  rewrite (bind_ok _ _ _ _ _
    (bitarray_set_last h (rv_binary rv) i false ltac:(lia))).
  rewrite (bind_ok _ _ _ _ _
    (bitarray_set_last h (<[i:=false]> (rv_binary rv)) j false
       ltac:(rewrite length_insert; lia))).
  apply (perturbed_emitted h r rv [i; j]);
    [exact Hh|exact Hv|reflexivity|apply weight2_harmless].
Qed.

Lemma level3_emitted reads rvs h :
  Forall2 R reads rvs → h0 `prefix_of` h →
  emitted T h0
    ((perturbations 1 reads rvs ++ perturbations 2 reads rvs)
     ++ perturbations 3 reads rvs) h
    (dollo_evaluate_direct_level3 ts reads alpha individual h).
Proof.
  intros HR Hh. unfold dollo_evaluate_direct_level3.
  apply emitted_bind; [exact Hh|now apply (level2_emitted reads rvs)|].
  clear h Hh. intros v2 h Hh.
  apply (for_each_emitted2 T h0 R); [exact HR| |exact Hh].
  clear h Hh v2. intros r rv acc h Hv Hh.
  pose proof (is_view_prefix h r rv Hh Hv) as Hvh.
  rewrite (bind_ok2 _ _ _ _ _ _ (read_width_at _ _ _ Hvh)).
  rewrite (combinations_picks (r, rv)), picks_range. simpl snd.
  apply for_each_emitted; [|exact Hh].
  clear h Hh Hvh acc. intros i acc h Hi Hh. apply elem_of_range in Hi.
  pose proof (is_view_prefix h r rv Hh Hv) as Hvh.
  rewrite (bind_ok2 _ _ _ _ _ _ (read_width_at _ _ _ Hvh)).
  rewrite picks_range.
  apply for_each_emitted; [|exact Hh].
  clear h Hh Hvh acc. intros j acc h Hj Hh. apply elem_of_range in Hj.
  pose proof (is_view_prefix h r rv Hh Hv) as Hvh.
  rewrite (bind_ok2 _ _ _ _ _ _ (read_width_at _ _ _ Hvh)).
  rewrite picks_range.
  apply for_each_emitted; [|exact Hh].
  clear h Hh Hvh acc. intros k acc h Hk Hh. apply elem_of_range in Hk.
  pose proof (is_view_prefix h r rv Hh Hv) as Hvh.
  rewrite (bind_ok2 _ _ _ _ _ _ (read_bit_at _ _ _ i Hvh ltac:(lia))).
  simpl picks. destruct (bit rv i); cbv iota;
    [|rewrite !bind_ok with (1:=mret_run _ _); apply emitted_ret].
  rewrite (bind_ok _ _ _ _ _ (read_bit_at _ _ _ j Hvh ltac:(lia))).
  destruct (bit rv j); cbv iota;
    [|rewrite bind_ok with (1:=mret_run _ _); apply emitted_ret].
  rewrite (bind_ok _ _ _ _ _ (read_bit_at _ _ _ k Hvh ltac:(lia))).
  destruct (bit rv k); simpl; [|apply emitted_ret].
  rewrite (bind_ok2 _ _ _ _ _ _ (copy_bits_at _ _ _ Hvh)).
  unfold width in *.
  rewrite (bind_ok _ _ _ _ _
    (bitarray_set_last h (rv_binary rv) i false ltac:(lia))).
  rewrite (bind_ok _ _ _ _ _
    (bitarray_set_last h (<[i:=false]> (rv_binary rv)) j false
       ltac:(rewrite length_insert; lia))).
  rewrite (bind_ok _ _ _ _ _
    (bitarray_set_last h (<[j:=false]> (<[i:=false]> (rv_binary rv))) k false
       ltac:(rewrite !length_insert; lia))).
  apply (perturbed_emitted h r rv [i; j; k]);
    [exact Hh|exact Hv|reflexivity|apply weight2_harmless].
Qed.

End PerturbedReads.

Lemma levels_emitted `{DolloNodeMethods} (ts : tstore) (h : heap)
    (reads : list loc) (rvs : list ReadView) (alpha individual : pyval)
    (level : nat) (h' : heap) :
  reads_ok h reads rvs →
  final_heaps ts reads alpha individual h !! level = Some h' →
  ∃ out : result Q * heap,
    snd out = h'
    ∧ emitted (well_typed alpha individual) h
        (perturbations_upto level reads rvs) h out.
Proof.
  intros Hok Hlevel. unfold final_heaps in Hlevel.
  assert (Hh : h `prefix_of` h) by reflexivity.
  destruct level as [|[|[|[|level]]]]; simpl in Hlevel;
    [| | | |discriminate]; injection Hlevel as <-;
    (eexists; split; [reflexivity|]);
    unfold perturbations_upto; simpl flat_map; rewrite ?app_nil_r.
  - exact (level0_emitted ts h alpha individual reads rvs h Hok Hh).
  - exact (level1_emitted ts h alpha individual reads rvs h Hok Hh).
  - exact (level2_emitted ts h alpha individual reads rvs h Hok Hh).
  - rewrite app_assoc.
    exact (level3_emitted ts h alpha individual reads rvs h Hok Hh).
Qed.

Lemma perturbations_upto_elem level reads rvs r rv ps
    (R : loc → ReadView → Prop) :
  Forall2 R reads rvs →
  (r, rv, ps) ∈ perturbations_upto level reads rvs →
  r ∈ reads ∧ R r rv ∧ (1 <= length ps <= level)%nat
  ∧ ps ∈ combinations (length ps) (set_positions rv).
Proof.
  intros HR Hin. unfold perturbations_upto in Hin.
  apply list_elem_of_In, in_flat_map in Hin as (n & Hn & Hin).
  apply list_elem_of_In in Hin.
  apply list_elem_of_In, elem_of_seq in Hn.
  destruct (perturbations_elem n reads rvs r rv ps R HR Hin)
    as (Hr & Hv & Hps).
  rewrite (combinations_length _ _ _ Hps).
  repeat split; try assumption; lia.
Qed.

(** C10.  For well-formed reads and whatever result an evaluation at
    level 0 to 3 has, the final heap is the initial heap followed by the
    perturbed reads the evaluation built, in the order of the loops and
    nothing else: for each of them a new bit array that holds the bits of
    the read it was built from with the chosen set positions cleared, and
    a new read called XXX2 that refers to this array and to the very
    object that is the unknown mask of the read it was built from.  So
    the tree sees the perturbed read with the cleared bits under the mask
    of its source read, and the mask is as it was.  When [alpha] is a
    number and [individual] a node, the perturbations built at level [n]
    are all the choices of 1 to [n] set positions of every read. *)
Theorem perturbed_reads_share_mask `{DolloNodeMethods}
    (ts : tstore) (h : heap) (reads : list loc) (rvs : list ReadView)
    (alpha individual : pyval) (level : nat) (h' : heap) :
  reads_ok h reads rvs →
  final_heaps ts reads alpha individual h !! level = Some h' →
  ∃ made,
    made `prefix_of` perturbations_upto level reads rvs
    ∧ (well_typed alpha individual →
       made = perturbations_upto level reads rvs)
    ∧ h' = with_perturbed h made h
    ∧ ∀ k r rv ps, made !! k = Some (r, rv, ps) →
        r ∈ reads ∧ is_view h r rv
        ∧ (1 <= length ps <= level)%nat
        ∧ ps ∈ combinations (length ps) (set_positions rv)
        ∧ h' !! (length h + 2 * k + 1)%nat
          = Some (OReadElement "XXX2" (length h + 2 * k) (unknown_of h r))
        ∧ is_view h' (length h + 2 * k + 1) (flipped rv ps)
        ∧ h' !! unknown_of h r = h !! unknown_of h r.
Proof.
  intros Hok Hlevel.
  destruct (levels_emitted ts h reads rvs alpha individual level h' Hok Hlevel)
    as (out & <- & made & Es & Hr).
  assert (Hpre : made `prefix_of` perturbations_upto level reads rvs).
  { destruct (fst out); [now subst|tauto]. }
  exists made. split; [exact Hpre|]. split; [|split; [exact Es|]].
  { intros HT. destruct (fst out); [exact Hr|tauto]. }
  intros k r rv ps Hk. rewrite Es.
  assert (Hin : (r, rv, ps) ∈ perturbations_upto level reads rvs).
  { destruct Hpre as [rest ->]. apply elem_of_app. left.
    eapply list_elem_of_lookup_2, Hk. }
  destruct (perturbations_upto_elem level reads rvs r rv ps (is_view h) Hok Hin)
    as (Hr' & Hv & Hlen & Hps).
  destruct (with_perturbed_lookup h made h k r rv ps Hk) as [Eb Ere].
  destruct (with_perturbed_prefix h made h) as [ext Eext].
  destruct Hv as (b & u & Er & Ebits & Eu).
  assert (Eu0 : unknown_of h r = u) by (unfold unknown_of; now rewrite Er).
  assert (Eu' : with_perturbed h made h !! u
                = Some (OBitArray (rv_unknown rv)))
    by (rewrite Eext; now apply lookup_app_l_Some).
  split; [exact Hr'|]. split; [now exists b, u|].
  split; [exact Hlen|]. split; [exact Hps|]. split; [exact Ere|]. split.
  - exists (length h + 2 * k)%nat, u. simpl. rewrite Eu0 in Ere.
    now repeat split.
  - rewrite Eu0, Eu'. now rewrite Eu.
Qed.

(** The ten perturbed reads of the sample: three, three and one for the
    read 111 at the levels 1, 2 and 3, two and one for the read 011. *)
Lemma sample_perturbations :
  map snd (perturbations_upto 3 Reference.sample_reads
             Reference.sample_views)
  = [[0]; [1]; [2]; [1]; [2]; [0; 1]; [0; 2]; [1; 2]; [1; 2]; [0; 1; 2]]%nat
  ∧ Reference.sample_final_heap
    = with_perturbed Reference.sample_heap
        (perturbations_upto 3 Reference.sample_reads Reference.sample_views)
        Reference.sample_heap.
Proof. split; vm_compute; reflexivity. Qed.

Lemma perturbed_reads_share_mask_witness :
  ∃ made,
    made `prefix_of` perturbations_upto 3 Reference.sample_reads
                       Reference.sample_views
    ∧ (well_typed (VNum (1 # 2)) (VNode 0%nat) →
       made = perturbations_upto 3 Reference.sample_reads
                Reference.sample_views)
    ∧ Reference.sample_final_heap
      = with_perturbed Reference.sample_heap made Reference.sample_heap
    ∧ ∀ k r rv ps, made !! k = Some (r, rv, ps) →
        r ∈ Reference.sample_reads ∧ is_view Reference.sample_heap r rv
        ∧ (1 <= length ps <= 3)%nat
        ∧ ps ∈ combinations (length ps) (set_positions rv)
        ∧ Reference.sample_final_heap
            !! (length Reference.sample_heap + 2 * k + 1)%nat
          = Some (OReadElement "XXX2"
                    (length Reference.sample_heap + 2 * k)
                    (unknown_of Reference.sample_heap r))
        ∧ is_view Reference.sample_final_heap
            (length Reference.sample_heap + 2 * k + 1) (flipped rv ps)
        ∧ Reference.sample_final_heap !! unknown_of Reference.sample_heap r
          = Reference.sample_heap !! unknown_of Reference.sample_heap r.
Proof.
  apply (perturbed_reads_share_mask (H := Reference.methods)
           Reference.sample_nodes Reference.sample_heap
           Reference.sample_reads Reference.sample_views
           (VNum (1 # 2)) (VNode 0%nat) 3 Reference.sample_final_heap).
  - exact sample_reads_ok.
  - reflexivity.
Defined.

(** * More of the module *)

(** ** The levels as sums over the set positions *)

Section LevelsAsSums.
Context `{DolloNodeMethods}.
Variable ts : tstore.
Variable a : Q.
Variable t : loc.

Lemma extra1_nest rv acc :
  extra1 ts a t rv acc
  = nest (bit rv) (λ ps, dist ts t (flipped rv ps) * a) 1 [] true
         (range 0 (width rv)) acc.
Proof.
  unfold extra1. simpl nest. now rewrite fold_tails_left.
Qed.

Lemma extra2_nest rv acc :
  extra2 ts a t rv acc
  = nest (bit rv) (λ ps, dist ts t (flipped rv ps) * a * a) 2 [] true
         (range 0 (width rv)) acc.
Proof.
  unfold extra2.
  pose (body := λ (i j : nat) (acc : Q),
    if bit rv i && bit rv j
    then acc + dist ts t (flipped rv [i; j]) * a * a else acc).
  pose (inner := λ (i : nat) (li : list nat) (acc : Q),
    fold_tails (λ j _ acc, body i j acc) li acc).
  transitivity
    (fold_left (λ acc i, inner i (range (i + 1) (width rv)) acc)
               (range 0 (width rv)) acc).
  - apply fold_left_eq. intros acc' i. unfold inner.
    now rewrite fold_tails_left.
  - rewrite fold_range_tails_from. reflexivity.
Qed.

Lemma seq_range n : seq 0 n = range 0 n.
Proof. unfold range. now rewrite Nat.sub_0_r. Qed.

Lemma extra1_terms rv acc :
  extra1 ts a t rv acc == acc + subset_terms ts 1 a t rv.
Proof.
  rewrite extra1_nest, nest_sum. unfold chosen, subset_terms, set_positions.
  rewrite seq_range. simpl app. reflexivity.
Qed.

Lemma extra2_terms rv acc :
  extra2 ts a t rv acc == acc + subset_terms ts 2 (a * a) t rv.
Proof.
  rewrite extra2_nest, nest_sum. unfold chosen, subset_terms, set_positions.
  rewrite seq_range. simpl app. apply Qplus_comp; [reflexivity|].
  apply Qsum_map_ext. intros ps. ring.
Qed.

Lemma extra3_subset_terms rv acc :
  extra3 ts a t rv acc == acc + subset_terms ts 3 (a * a) t rv.
Proof. apply extra3_terms. Qed.

Lemma fold_left_terms (f : Q → ReadView → Q) (g : ReadView → Q) rvs :
  (∀ acc rv, f acc rv == acc + g rv) →
  ∀ acc, fold_left f rvs acc == acc + Qsum (map g rvs).
Proof.
  intros Hf. induction rvs as [|rv rvs IH]; intros acc; simpl.
  - lra.
  - rewrite IH, Hf. lra.
Qed.

Lemma level0_value_sum rvs :
  level0_value ts t rvs == Qsum (map (dist ts t) rvs).
Proof.
  unfold level0_value. rewrite (fold_left_terms _ (dist ts t)).
  - lra.
  - intros. reflexivity.
Qed.

Lemma level1_value_terms rvs :
  level1_value ts a t rvs
  == level0_value ts t rvs + level_terms ts 1 a t rvs.
Proof.
  unfold level1_value. apply fold_left_terms. intros. apply extra1_terms.
Qed.

Lemma level2_value_terms rvs :
  level2_value ts a t rvs
  == level1_value ts a t rvs + level_terms ts 2 (a * a) t rvs.
Proof.
  unfold level2_value. apply fold_left_terms. intros. apply extra2_terms.
Qed.

Lemma level3_value_subset_terms rvs :
  level3_value ts a t rvs
  == level2_value ts a t rvs + level_terms ts 3 (a * a) t rvs.
Proof.
  unfold level3_value. apply fold_left_terms. intros.
  apply extra3_subset_terms.
Qed.

End LevelsAsSums.

Lemma is_view_fun (h : heap) r rv rv' :
  is_view h r rv → is_view h r rv' → rv = rv'.
Proof.
  intros (b & u & Er & Eb & Eu) (b' & u' & Er' & Eb' & Eu').
  rewrite Er in Er'. injection Er' as Hl <- <-.
  rewrite Eb in Eb'. rewrite Eu in Eu'.
  destruct rv, rv'. simpl in *. congruence.
Qed.

(** X1.  For well-formed reads, level 1 returns the value of level 0 plus,
    for every read and every position whose bit is set, the closest-node
    distance of the read with that bit cleared, times [a]; level 2 returns
    the value of level 1 plus, for every read and every unordered pair of
    such positions, the distance of the read with both bits cleared, times
    [a * a]. *)
Theorem lower_levels_add_terms `{DolloNodeMethods}
    (ts : tstore) (h : heap) (reads : list loc) (rvs : list ReadView)
    (a : Q) (t : loc) :
  reads_ok h reads rvs →
  ∃ v0 v1 v2 h0 h1 h2,
    dollo_evaluate_direct_level0 ts reads (VNum a) (VNode t) h = (Ok v0, h0)
    ∧ dollo_evaluate_direct_level1 ts reads (VNum a) (VNode t) h = (Ok v1, h1)
    ∧ dollo_evaluate_direct_level2 ts reads (VNum a) (VNode t) h = (Ok v2, h2)
    ∧ v1 == v0 + level_terms ts 1 a t rvs
    ∧ v2 == v1 + level_terms ts 2 (a * a) t rvs.
Proof.
  intros Hok.
  destruct (level0_run ts h reads rvs Hok a t) as (h0 & E0 & _).
  destruct (level1_run ts h reads rvs Hok a t) as (h1 & E1 & _).
  destruct (level2_run ts h reads rvs Hok a t) as (h2 & E2 & _).
  exists (level0_value ts t rvs), (level1_value ts a t rvs),
         (level2_value ts a t rvs), h0, h1, h2.
  repeat (split; [assumption|]).
  split; [apply level1_value_terms|apply level2_value_terms].
Qed.

Lemma lower_levels_add_terms_witness :
  ∃ v0 v1 v2 h0 h1 h2,
    dollo_evaluate_direct_level0 (H := Reference.methods)
      Reference.sample_nodes Reference.sample_reads (VNum (1 # 2))
      (VNode 0%nat) Reference.sample_heap = (Ok v0, h0)
    ∧ dollo_evaluate_direct_level1 (H := Reference.methods)
        Reference.sample_nodes Reference.sample_reads (VNum (1 # 2))
        (VNode 0%nat) Reference.sample_heap = (Ok v1, h1)
    ∧ dollo_evaluate_direct_level2 (H := Reference.methods)
        Reference.sample_nodes Reference.sample_reads (VNum (1 # 2))
        (VNode 0%nat) Reference.sample_heap = (Ok v2, h2)
    ∧ v1 == v0 + level_terms (H := Reference.methods)
                   Reference.sample_nodes 1 (1 # 2) 0%nat
                   Reference.sample_views
    ∧ v2 == v1 + level_terms (H := Reference.methods)
                   Reference.sample_nodes 2 ((1 # 2) * (1 # 2)) 0%nat
                   Reference.sample_views.
Proof.
  apply (lower_levels_add_terms (H := Reference.methods)
           Reference.sample_nodes Reference.sample_heap
           Reference.sample_reads Reference.sample_views (1 # 2) 0%nat).
  exact sample_reads_ok.
Defined.

Lemma subset_terms_zero `{DolloNodeMethods} (ts : tstore) n (w : Q) t rv :
  w == 0 → subset_terms ts n w t rv == 0.
Proof.
  intros Hw. unfold subset_terms.
  induction (combinations n (set_positions rv)) as [|ps l IH]; simpl.
  - reflexivity.
  - rewrite IH, Hw. ring.
Qed.

Lemma level_terms_zero `{DolloNodeMethods} (ts : tstore) n (w : Q) t rvs :
  w == 0 → level_terms ts n w t rvs == 0.
Proof.
  intros Hw. unfold level_terms.
  induction rvs as [|rv rvs IH]; simpl; [reflexivity|].
  rewrite IH, subset_terms_zero by exact Hw. ring.
Qed.

(** X3.  With a weight equal to 0 the perturbations count for nothing: for
    well-formed reads, levels 1, 2 and 3 return a value equal to that of
    level 0. *)
Theorem zero_weight_levels `{DolloNodeMethods}
    (ts : tstore) (h : heap) (reads : list loc) (rvs : list ReadView)
    (a : Q) (t : loc) :
  reads_ok h reads rvs →
  a == 0 →
  ∃ v0 v1 v2 v3 h0 h1 h2 h3,
    dollo_evaluate_direct_level0 ts reads (VNum a) (VNode t) h = (Ok v0, h0)
    ∧ dollo_evaluate_direct_level1 ts reads (VNum a) (VNode t) h = (Ok v1, h1)
    ∧ dollo_evaluate_direct_level2 ts reads (VNum a) (VNode t) h = (Ok v2, h2)
    ∧ dollo_evaluate_direct_level3 ts reads (VNum a) (VNode t) h = (Ok v3, h3)
    ∧ v1 == v0 ∧ v2 == v0 ∧ v3 == v0.
Proof.
  intros Hok Ha.
  destruct (level0_run ts h reads rvs Hok a t) as (h0 & E0 & _).
  destruct (level1_run ts h reads rvs Hok a t) as (h1 & E1 & _).
  destruct (level2_run ts h reads rvs Hok a t) as (h2 & E2 & _).
  destruct (level3_run ts h reads rvs Hok a t) as (h3 & E3 & _).
  exists (level0_value ts t rvs), (level1_value ts a t rvs),
         (level2_value ts a t rvs), (level3_value ts a t rvs), h0, h1, h2, h3.
  repeat (split; [assumption|]).
  assert (Haa : a * a == 0) by (rewrite Ha; ring).
  rewrite level3_value_subset_terms, level2_value_terms, level1_value_terms.
  rewrite (level_terms_zero ts 1 a) by exact Ha.
  rewrite (level_terms_zero ts 2 (a * a)) by exact Haa.
  rewrite (level_terms_zero ts 3 (a * a)) by exact Haa.
  repeat split; ring.
Qed.

Lemma zero_weight_levels_witness :
  ∃ v0 v1 v2 v3 h0 h1 h2 h3,
    dollo_evaluate_direct_level0 (H := Reference.methods)
      Reference.sample_nodes Reference.sample_reads (VNum 0)
      (VNode 1%nat) Reference.sample_heap = (Ok v0, h0)
    ∧ dollo_evaluate_direct_level1 (H := Reference.methods)
        Reference.sample_nodes Reference.sample_reads (VNum 0)
        (VNode 1%nat) Reference.sample_heap = (Ok v1, h1)
    ∧ dollo_evaluate_direct_level2 (H := Reference.methods)
        Reference.sample_nodes Reference.sample_reads (VNum 0)
        (VNode 1%nat) Reference.sample_heap = (Ok v2, h2)
    ∧ dollo_evaluate_direct_level3 (H := Reference.methods)
        Reference.sample_nodes Reference.sample_reads (VNum 0)
        (VNode 1%nat) Reference.sample_heap = (Ok v3, h3)
    ∧ v1 == v0 ∧ v2 == v0 ∧ v3 == v0.
Proof.
  apply (zero_weight_levels (H := Reference.methods)
           Reference.sample_nodes Reference.sample_heap
           Reference.sample_reads Reference.sample_views 0 1%nat).
  - exact sample_reads_ok.
  - reflexivity.
Defined.

(** ** Reads without a set bit *)

Lemma for_each_skip {S A B} (xs : list A) (body : A → B → M S B) (s : S) :
  (∀ x acc, x ∈ xs → body x acc s = (Ok acc, s)) →
  ∀ acc, for_each xs acc body s = (Ok acc, s).
Proof.
  induction xs as [|x xs IH]; intros Hb acc; [reflexivity|].
  rewrite for_each_cons, (bind_ok _ _ _ _ _ (Hb x acc ltac:(left))).
  apply IH. intros y acc' Hy. apply Hb. now right.
Qed.

Lemma view_state (r : loc) (h : heap) : snd (view r h) = h.
Proof.
  unfold view. destruct (h !! r) as [[bits|l b u]|]; try reflexivity.
  destruct (h !! b) as [[bits|? ? ?]|]; try reflexivity.
  now destruct (h !! u) as [[ubits|? ? ?]|].
Qed.

Lemma closest_state `{DolloNodeMethods} ts individual r (h : heap) :
  snd (dolo_closest_node_distance ts individual r h) = h.
Proof.
  unfold dolo_closest_node_distance. destruct individual; [reflexivity|].
  rewrite bind_pure by apply view_state. now destruct (fst (view r h)).
Qed.

(** Level 0 makes no object. *)
Lemma level0_state `{DolloNodeMethods} ts reads alpha individual (h : heap) :
  snd (dollo_evaluate_direct_level0 ts reads alpha individual h) = h.
Proof.
  unfold dollo_evaluate_direct_level0. apply for_each_state.
  intros r acc h'. rewrite bind_pure by apply closest_state.
  destruct (fst (dolo_closest_node_distance ts individual r h'))
    as [[node d]|]; reflexivity.
Qed.

(** X4.  When no read has a set bit there is nothing to perturb: for
    well-formed reads and a tree, every level returns the value of level 0
    and leaves the heap as it is, whatever is passed as [alpha], which is
    never used. *)
Theorem blank_reads_levels `{DolloNodeMethods}
    (ts : tstore) (h : heap) (reads : list loc) (rvs : list ReadView)
    (alpha : pyval) (t : loc) :
  reads_ok h reads rvs →
  (∀ rv i, rv ∈ rvs → bit rv i = false) →
  dollo_evaluate_direct_level0 ts reads alpha (VNode t) h
  = (Ok (level0_value ts t rvs), h)
  ∧ dollo_evaluate_direct_level1 ts reads alpha (VNode t) h
    = (Ok (level0_value ts t rvs), h)
  ∧ dollo_evaluate_direct_level2 ts reads alpha (VNode t) h
    = (Ok (level0_value ts t rvs), h)
  ∧ dollo_evaluate_direct_level3 ts reads alpha (VNode t) h
    = (Ok (level0_value ts t rvs), h).
Proof.
  intros Hok Hblank.
  pose proof (grown_refl h reads) as HI.
  assert (Hview : ∀ r, r ∈ reads → ∃ rv, rv ∈ rvs ∧ is_view h r rv).
  { intros r [i Hi]%list_elem_of_lookup_1.
    destruct (Forall2_lookup_l _ _ _ _ _ Hok Hi) as (rv & Hrv & Hv).
    exists rv. split; [eapply list_elem_of_lookup_2, Hrv|exact Hv]. }
  assert (E0 : dollo_evaluate_direct_level0 ts reads alpha (VNode t) h
               = (Ok (level0_value ts t rvs), h)).
  { destruct (level0_run ts h reads rvs Hok 0 t) as (h0 & E & _).
    pose proof (level0_state ts reads (VNum 0) (VNode t) h) as Hs.
    rewrite E in Hs. simpl in Hs. subst h0. exact E. }
  assert (E1 : dollo_evaluate_direct_level1 ts reads alpha (VNode t) h
               = (Ok (level0_value ts t rvs), h)).
  { unfold dollo_evaluate_direct_level1. rewrite (bind_ok _ _ _ _ _ E0).
    apply for_each_skip. intros r acc Hr.
    destruct (Hview r Hr) as (rv & Hrv & Hv).
    rewrite (bind_ok2 _ _ _ _ _ _ (read_width_run _ _ _ _ _ HI Hv)).
    apply for_each_skip. intros i acc' Hi. apply elem_of_range in Hi.
    rewrite (bind_ok2 _ _ _ _ _ _
               (read_bit_run _ _ _ _ _ i HI Hv ltac:(lia))).
    now rewrite (Hblank rv i Hrv). }
  assert (E2 : dollo_evaluate_direct_level2 ts reads alpha (VNode t) h
               = (Ok (level0_value ts t rvs), h)).
  { unfold dollo_evaluate_direct_level2. rewrite (bind_ok _ _ _ _ _ E1).
    apply for_each_skip. intros r acc Hr.
    destruct (Hview r Hr) as (rv & Hrv & Hv).
    rewrite (bind_ok2 _ _ _ _ _ _ (read_width_run _ _ _ _ _ HI Hv)).
    apply for_each_skip. intros i acc' Hi. apply elem_of_range in Hi.
    rewrite (bind_ok2 _ _ _ _ _ _ (read_width_run _ _ _ _ _ HI Hv)).
    apply for_each_skip. intros j acc'' Hj. apply elem_of_range in Hj.
    rewrite (bind_ok2 _ _ _ _ _ _
               (read_bit_run _ _ _ _ _ i HI Hv ltac:(lia))).
    now rewrite (Hblank rv i Hrv). }
  repeat (split; [assumption|]).
  unfold dollo_evaluate_direct_level3. rewrite (bind_ok _ _ _ _ _ E2).
  apply for_each_skip. intros r acc Hr.
  destruct (Hview r Hr) as (rv & Hrv & Hv).
  rewrite (bind_ok2 _ _ _ _ _ _ (read_width_run _ _ _ _ _ HI Hv)).
  apply for_each_skip. intros i acc' Hi. apply elem_of_range in Hi.
  rewrite (bind_ok2 _ _ _ _ _ _ (read_width_run _ _ _ _ _ HI Hv)).
  apply for_each_skip. intros j acc'' Hj. apply elem_of_range in Hj.
  rewrite (bind_ok2 _ _ _ _ _ _ (read_width_run _ _ _ _ _ HI Hv)).
  apply for_each_skip. intros k acc3 Hk. apply elem_of_range in Hk.
  rewrite (bind_ok2 _ _ _ _ _ _
             (read_bit_run _ _ _ _ _ i HI Hv ltac:(lia))).
  now rewrite (Hblank rv i Hrv).
Qed.

Lemma blank_reads_ok :
  reads_ok Reference.blank_heap [2%nat] Reference.blank_views.
Proof. repeat constructor. exists 0%nat, 1%nat. repeat split; reflexivity. Defined.

Lemma blank_views_blank (rv : ReadView) (i : nat) :
  rv ∈ Reference.blank_views → bit rv i = false.
Proof.
  intros ->%list_elem_of_singleton.
  destruct i as [|[|[|i]]]; reflexivity.
Defined.

Lemma blank_reads_levels_witness :
  dollo_evaluate_direct_level0 (H := Reference.methods)
    Reference.sample_nodes [2%nat] (VNode 4%nat) (VNode 0%nat)
    Reference.blank_heap
  = (Ok (level0_value (H := Reference.methods) Reference.sample_nodes
           0%nat Reference.blank_views), Reference.blank_heap)
  ∧ dollo_evaluate_direct_level1 (H := Reference.methods)
      Reference.sample_nodes [2%nat] (VNode 4%nat) (VNode 0%nat)
      Reference.blank_heap
    = (Ok (level0_value (H := Reference.methods) Reference.sample_nodes
             0%nat Reference.blank_views), Reference.blank_heap)
  ∧ dollo_evaluate_direct_level2 (H := Reference.methods)
      Reference.sample_nodes [2%nat] (VNode 4%nat) (VNode 0%nat)
      Reference.blank_heap
    = (Ok (level0_value (H := Reference.methods) Reference.sample_nodes
             0%nat Reference.blank_views), Reference.blank_heap)
  ∧ dollo_evaluate_direct_level3 (H := Reference.methods)
      Reference.sample_nodes [2%nat] (VNode 4%nat) (VNode 0%nat)
      Reference.blank_heap
    = (Ok (level0_value (H := Reference.methods) Reference.sample_nodes
             0%nat Reference.blank_views), Reference.blank_heap).
Proof.
  apply (blank_reads_levels (H := Reference.methods) Reference.sample_nodes
           Reference.blank_heap [2%nat] Reference.blank_views
           (VNode 4%nat) 0%nat).
  - exact blank_reads_ok.
  - exact blank_views_blank.
Defined.

(** ** The assignment of reads *)

Lemma assign_loop `{DolloNodeMethods} (ts : tstore) (t : loc) (h : heap)
    reads rvs :
  reads_ok h reads rvs →
  ∀ (m0 : gmap loc loc) (acc : Q),
  ∃ m d,
    for_each reads (m0, acc) (λ read state,
      let '(complete_assignment, total_distance) := state in
      '(node, d) ← call_closest_node_in_tree ts (VNode t) read;
      mret (<[read := node]> complete_assignment, total_distance + d)) h
    = (Ok (m, d), h)
    ∧ dom m = list_to_set reads ∪ dom m0
    ∧ (∀ r, r ∉ reads → m !! r = m0 !! r)
    ∧ (∀ r rv, r ∈ reads → is_view h r rv →
         m !! r = Some (fst (closest_node_in_tree ts t rv))).
Proof.
  induction 1 as [|r rv reads rvs Hv Hok IH]; intros m0 acc.
  - exists m0, acc. split; [reflexivity|]. split; [set_solver|].
    split; [reflexivity|]. intros r rv Hr. now apply elem_of_nil in Hr.
  - assert (Ec0 : call_closest_node_in_tree ts (VNode t) r h
                   = (Ok (closest_node_in_tree ts t rv), h)).
    { unfold call_closest_node_in_tree.
      now rewrite (bind_ok _ _ _ _ _ (view_run _ _ _ Hv)). }
    rewrite for_each_cons. cbv beta iota.
    rewrite bind_assoc, (bind_ok _ _ _ _ _ Ec0).
    destruct (closest_node_in_tree ts t rv) as [node d] eqn:Ec.
    rewrite (bind_ok _ _ _ _ _ (mret_run _ _)).
    destruct (IH (<[r := node]> m0) (acc + d))
      as (m & d' & E & Hdom & Hout & Hin).
    exists m, d'. split; [exact E|]. split; [|split].
    + rewrite Hdom, dom_insert_L. set_solver.
    + intros r' Hr'. rewrite Hout by (intros Hx; apply Hr'; now right).
      apply lookup_insert_ne. intros ->. apply Hr'. left.
    + intros r' rv' Hr' Hv'.
      destruct (decide (r' ∈ reads)) as [Hin'|Hnin]; [now apply Hin|].
      apply elem_of_cons in Hr' as [->|Hr']; [|contradiction].
      rewrite (Hout r Hnin), lookup_insert_eq.
      rewrite (is_view_fun _ _ _ _ Hv' Hv), Ec. reflexivity.
Qed.

(** X6.  For well-formed reads and a tree, the assignment has exactly the
    reads as keys and maps every read to the node that
    [closest_node_in_tree] returns for it; the heap is left as it is. *)
Theorem assignment_maps_reads `{DolloNodeMethods}
    (ts : tstore) (t : loc) (h : heap) (reads : list loc)
    (rvs : list ReadView) :
  reads_ok h reads rvs →
  ∃ complete_assignment total_distance,
    assign_reads_to_dollo_tree ts (VNode t) reads h
    = (Ok (complete_assignment, total_distance), h)
    ∧ dom complete_assignment = list_to_set reads
    ∧ (∀ r rv, r ∈ reads → is_view h r rv →
         complete_assignment !! r
         = Some (fst (closest_node_in_tree ts t rv))).
Proof.
  intros Hok.
  destruct (assign_loop ts t h reads rvs Hok ∅ 0)
    as (m & d & E & Hdom & _ & Hin).
  exists m, d. split; [exact E|]. split; [|exact Hin].
  rewrite Hdom, dom_empty_L. set_solver.
Qed.

Lemma assignment_maps_reads_witness :
  ∃ complete_assignment total_distance,
    assign_reads_to_dollo_tree (H := Reference.methods)
      Reference.sample_nodes (VNode 0%nat) Reference.sample_reads
      Reference.sample_heap
    = (Ok (complete_assignment, total_distance), Reference.sample_heap)
    ∧ dom complete_assignment = list_to_set Reference.sample_reads
    ∧ (∀ r rv, r ∈ Reference.sample_reads →
         is_view Reference.sample_heap r rv →
         complete_assignment !! r
         = Some (fst (closest_node_in_tree (DolloNodeMethods := Reference.methods)
                        Reference.sample_nodes 0%nat rv))).
Proof.
  apply (assignment_maps_reads (H := Reference.methods)
           Reference.sample_nodes 0%nat Reference.sample_heap
           Reference.sample_reads Reference.sample_views).
  exact sample_reads_ok.
Defined.

(** X7.  Called with the weight in the second and the tree in the third
    position, the entry point returns, for well-formed reads, the
    one-element tuple of the level-2 value. *)
Theorem evaluate_weight_then_tree `{DolloNodeMethods}
    (ts : tstore) (h : heap) (reads : list loc) (rvs : list ReadView)
    (a : Q) (t : loc) :
  reads_ok h reads rvs →
  ∃ v h',
    dollo_evaluate_direct_level2 ts reads (VNum a) (VNode t) h = (Ok v, h')
    ∧ evaluate_dollo_node_individual ts reads (VNum a) (VNode t) h
      = (Ok [v], h')
    ∧ v == level0_value ts t rvs + level_terms ts 1 a t rvs
           + level_terms ts 2 (a * a) t rvs.
Proof.
  intros Hok.
  destruct (level2_run ts h reads rvs Hok a t) as (h' & E & _).
  exists (level2_value ts a t rvs), h'. split; [exact E|]. split.
  - unfold evaluate_dollo_node_individual.
    now rewrite (bind_ok _ _ _ _ _ E).
  - now rewrite level2_value_terms, level1_value_terms.
Qed.

Lemma evaluate_weight_then_tree_witness :
  ∃ v h',
    dollo_evaluate_direct_level2 (H := Reference.methods)
      Reference.sample_nodes Reference.sample_reads (VNum (1 # 2))
      (VNode 0%nat) Reference.sample_heap = (Ok v, h')
    ∧ evaluate_dollo_node_individual (H := Reference.methods)
        Reference.sample_nodes Reference.sample_reads (VNum (1 # 2))
        (VNode 0%nat) Reference.sample_heap
      = (Ok [v], h')
    ∧ v == level0_value (H := Reference.methods) Reference.sample_nodes
             0%nat Reference.sample_views
           + level_terms (H := Reference.methods) Reference.sample_nodes
               1 (1 # 2) 0%nat Reference.sample_views
           + level_terms (H := Reference.methods) Reference.sample_nodes
               2 ((1 # 2) * (1 # 2)) 0%nat Reference.sample_views.
Proof.
  apply (evaluate_weight_then_tree (H := Reference.methods)
           Reference.sample_nodes Reference.sample_heap
           Reference.sample_reads Reference.sample_views (1 # 2) 0%nat).
  exact sample_reads_ok.
Defined.

(** X8.  Without reads nothing is queried: every level returns 0, the
    entry point the tuple of 0 and the assignment an empty dictionary and
    0, whatever the other arguments are, and the heap is as it was. *)
Theorem no_reads `{DolloNodeMethods}
    (ts : tstore) (x y : pyval) (h : heap) :
  dollo_evaluate_direct_level0 ts [] x y h = (Ok 0, h)
  ∧ dollo_evaluate_direct_level1 ts [] x y h = (Ok 0, h)
  ∧ dollo_evaluate_direct_level2 ts [] x y h = (Ok 0, h)
  ∧ dollo_evaluate_direct_level3 ts [] x y h = (Ok 0, h)
  ∧ evaluate_dollo_node_individual ts [] x y h = (Ok [0], h)
  ∧ assign_reads_to_dollo_tree ts x [] h = (Ok (∅, 0), h).
Proof. repeat split. Qed.

(** ** The helpers of the subtree exchange *)

(** X9.  [sets_are_equal] answers True exactly when the two sets have the
    same members. *)
Theorem sets_are_equal_iff (set1 set2 : gset string) :
  sets_are_equal set1 set2 = true ↔ set1 = set2.
Proof. rewrite sets_are_equal_spec. apply bool_decide_eq_true. Qed.

(** X10.  When no label in the sets is the empty string,
    [set_consits_of_plus_lebels] returns the set of the labels that are in
    one of the sets and end with a plus sign. *)
Theorem plus_labels_collected {S} (list_of_sets : list (gset string))
    (s : S) :
  (∀ c, c ∈ list_of_sets → ""%string ∉ c) →
  ∃ ret,
    set_consits_of_plus_lebels list_of_sets s = (Ok ret, s)
    ∧ ∀ x, x ∈ ret ↔
           (∃ c, c ∈ list_of_sets ∧ x ∈ c) ∧ last_char x = Some "+"%char.
Proof.
  intros Hne. exists (plus_labels list_of_sets).
  split; [now apply set_consits_run|].
  intros x. unfold plus_labels. rewrite elem_of_filter, elem_of_union_list.
  unfold is_plus. tauto.
Qed.

Lemma plus_labels_collected_witness :
  ∃ ret,
    set_consits_of_plus_lebels
      [({["a+"; "b-"]} : gset string); {["c+"]}]%string tt
    = (Ok ret, tt)
    ∧ ∀ x, x ∈ ret ↔
           (∃ c, c ∈ [({["a+"; "b-"]} : gset string); {["c+"]}]%string
                 ∧ x ∈ c)
           ∧ last_char x = Some "+"%char.
Proof.
  apply (plus_labels_collected
           [({["a+"; "b-"]} : gset string); {["c+"]}]%string tt).
  intros c Hc.
  repeat (apply elem_of_cons in Hc as [->|Hc];
          [apply (bool_decide_unpack _); vm_compute; exact I|]).
  now apply elem_of_nil in Hc.
Defined.

(** the inner loop stops at an empty label *)
Lemma plus_loop_raises {S} (l : list string) (ret : gset string) (s : S) :
  ""%string ∈ l →
  for_each l ret (λ x ret,
    match last_char x with
    | None => raise IndexError
    | Some c =>
        if decide (c = "+"%char) then mret ({[x]} ∪ ret) else mret ret
    end) s
  = (Raise IndexError, s).
Proof.
  revert ret. induction l as [|x l IH]; intros ret Hin;
    [now apply elem_of_nil in Hin|].
  rewrite for_each_cons.
  destruct (last_char x) as [c|] eqn:Ec.
  - assert (Hl : ""%string ∈ l).
    { apply elem_of_cons in Hin as [<-|Hin]; [discriminate|exact Hin]. }
    destruct (decide (c = "+"%char)).
    + rewrite (bind_ok _ _ s s ({[x]} ∪ ret)) by reflexivity. now apply IH.
    + rewrite (bind_ok _ _ s s ret) by reflexivity. now apply IH.
  - now rewrite (bind_raise _ _ s s IndexError).
Qed.

(** X11.  When one of the sets contains the empty string,
    [set_consits_of_plus_lebels] raises IndexError: the last character of
    the empty label is asked for. *)
Theorem empty_label_raises {S} (list_of_sets : list (gset string)) (s : S) :
  (∃ c, c ∈ list_of_sets ∧ ""%string ∈ c) →
  set_consits_of_plus_lebels list_of_sets s = (Raise IndexError, s).
Proof.
  intros (c0 & Hc0 & He). unfold set_consits_of_plus_lebels.
  generalize (∅ : gset string) as ret.
  induction list_of_sets as [|c cs IH]; intros ret;
    [now apply elem_of_nil in Hc0|].
  rewrite for_each_cons.
  destruct (decide (""%string ∈ c)) as [Hin|Hnin].
  - rewrite (bind_raise _ _ s s IndexError); [reflexivity|].
    apply plus_loop_raises. now apply elem_of_elements.
  - erewrite bind_ok.
    2:{ apply plus_loop_run. apply Forall_forall. intros x Hx ->.
        apply Hnin. now apply elem_of_elements. }
    apply IH. apply elem_of_cons in Hc0 as [->|Hc0]; [contradiction|].
    exact Hc0.
Qed.

Lemma empty_label_raises_witness :
  set_consits_of_plus_lebels
    [({["a+"]} : gset string); {[""; "c+"]}]%string tt
  = (Raise IndexError, tt).
Proof.
  apply (empty_label_raises
           [({["a+"]} : gset string); {[""; "c+"]}]%string tt).
  exists ({[""; "c+"]}%string : gset string). split.
  - right. left.
  - apply (bool_decide_unpack _). vm_compute. exact I.
Defined.

(** ** What the exchanges do to the generator and to the trees *)

Lemma same_rng_refl w : same_rng w w.
Proof. now split. Qed.

Lemma same_rng_trans w1 w2 w3 :
  same_rng w1 w2 → same_rng w2 w3 → same_rng w1 w3.
Proof. intros [? ?] [? ?]. split; congruence. Qed.

Lemma keeps_bind {A B} (c : M world A) (k : A → M world B) :
  keeps_rng c → (∀ a, keeps_rng (k a)) → keeps_rng (c ≫= k).
Proof.
  intros Hc Hk w. specialize (Hc w). unfold mbind, M_bind, bind.
  destruct (c w) as [[a|e] w1]; simpl in *; [|exact Hc].
  eapply same_rng_trans; [exact Hc|apply Hk].
Qed.

Lemma keeps_pure {A} (c : M world A) :
  (∀ w, snd (c w) = w) → keeps_rng c.
Proof. intros Hc w. rewrite Hc. apply same_rng_refl. Qed.

Lemma keeps_ret {A} (a : A) : keeps_rng (mret a).
Proof. now apply keeps_pure. Qed.

Lemma keeps_raise {A} (e : exn) : keeps_rng (raise e : M world A).
Proof. now apply keeps_pure. Qed.

Lemma keeps_query {A} (f : tstore → result A) : keeps_rng (query f).
Proof. now apply keeps_pure. Qed.

Lemma keeps_update (f : tstore → tstore) : keeps_rng (update f).
Proof. intros w. now split. Qed.

Lemma keeps_deepcopy (n : loc) : keeps_rng (deepcopy n).
Proof.
  intros w. unfold deepcopy. destruct (nodes w !! n); now split.
Qed.

Lemma keeps_find n lab : keeps_rng (find n lab).
Proof. apply keeps_pure, find_state. Qed.

Lemma keeps_get_parent n : keeps_rng (get_parent n).
Proof.
  apply keeps_pure. intros w. unfold get_parent.
  destruct n as [n|]; [|reflexivity]. now destruct (nodes w !! n).
Qed.

Lemma keeps_set_parent n value : keeps_rng (set_parent n value).
Proof.
  intros w. unfold set_parent. destruct (nodes w !! n) as [nd|]; [|now split].
  destruct (decide (parent nd = value)); [now split|].
  destruct (makes_loop (nodes w) n value); now split.
Qed.

Lemma keeps_set_consits covered :
  keeps_rng (set_consits_of_plus_lebels covered).
Proof. apply keeps_pure, set_consits_state. Qed.

Section ExchangeKeeps.
Context `{DolloNodeMethods}.

Lemma keeps_exchange_loop labels part1 part2 i1n i2n todo :
  keeps_rng (exchange_loop labels part1 part2 i1n i2n todo).
Proof.
  induction todo as [|lab todo IH]; [apply keeps_ret|].
  simpl exchange_loop.
  destruct (part1 !! (lab +:+ "+")%string) as [covered1|]; [|exact IH].
  apply keeps_bind; [apply keeps_set_consits|]. intros set1.
  destruct (decide (size set1 = 0%nat)); [exact IH|].
  destruct (part2 !! (lab +:+ "+")%string) as [covered2|]; [|exact IH].
  apply keeps_bind; [apply keeps_set_consits|]. intros set2.
  destruct (decide (size set2 = 0%nat)); [exact IH|].
  destruct (negb (sets_are_equal set1 set2)); [exact IH|].
  apply keeps_bind; [apply keeps_find|]. intros node1.
  apply keeps_bind; [apply keeps_find|]. intros node2.
  destruct node1 as [n1|]; [|apply keeps_raise].
  apply keeps_bind; [apply keeps_query|]. intros same.
  destruct same; [exact IH|].
  apply keeps_bind; [apply keeps_get_parent|]. intros parent1.
  apply keeps_bind; [apply keeps_get_parent|]. intros parent2.
  destruct node2 as [n2|]; [|apply keeps_raise].
  repeat (apply keeps_bind;
          [first [apply keeps_set_parent|apply keeps_update]|intros _]).
  apply keeps_ret.
Qed.

End ExchangeKeeps.

(** X12.  The subtree exchange is deterministic: on every path, with a
    result or with an exception, it draws nothing from the random
    generator. *)
Theorem subtree_exchange_draws_nothing `{DolloNodeMethods}
    (labels : list string) (i1 i2 : loc) (w : world) :
  same_rng w (snd (dollo_crossover_exchange_subtrees labels i1 i2 w)).
Proof.
  revert w. change (keeps_rng (dollo_crossover_exchange_subtrees labels i1 i2)).
  unfold dollo_crossover_exchange_subtrees.
  apply keeps_bind; [apply keeps_query|]. intros same.
  destruct same; [apply keeps_ret|].
  apply keeps_bind; [apply keeps_deepcopy|]. intros i1n.
  apply keeps_bind; [apply keeps_deepcopy|]. intros i2n.
  apply keeps_bind; [apply keeps_query|]. intros part1.
  apply keeps_bind; [apply keeps_query|]. intros part2.
  apply keeps_bind; [apply keeps_exchange_loop|]. intros ret.
  apply keeps_ret.
Qed.

(** X13.  A subtree exchange that reports failure has changed no tree:
    every node that existed before the call is as it was. *)
Theorem failed_subtree_exchange_frame `{DolloNodeMethods}
    (labels : list string) (i1 i2 : loc) (w w' : world) (x y : loc) :
  dollo_crossover_exchange_subtrees labels i1 i2 w = (Ok (false, x, y), w') →
  ∀ n nd, nodes w !! n = Some nd → nodes w' !! n = Some nd.
Proof.
  intros E n nd Hn. apply subtrees_false in E as [ext ->].
  now apply lookup_app_l_Some.
Qed.

Lemma failed_subtree_exchange_frame_witness :
  nodes (snd (dollo_crossover_exchange_subtrees (H := Reference.methods)
                ["a"; "b"; "c"]%string 0%nat 4%nat
                Reference.sample_world)) !! 1%nat
  = Some (mkDolloNode "a+" [true; false; false] (Some 0%nat) [2%nat]).
Proof.
  apply (failed_subtree_exchange_frame (H := Reference.methods)
           ["a"; "b"; "c"]%string 0%nat 4%nat Reference.sample_world
           _ 9%nat 13%nat).
  - vm_compute. reflexivity.
  - reflexivity.
Defined.

Lemma random_choice_inv {A} (xs : list A) (x : A) (w w' : world) :
  random_choice xs w = (Ok x, w') → w' = advance w ∧ xs ≠ [].
Proof.
  unfold random_choice. destruct xs as [|y ys]; [discriminate|].
  intros [= _ <-]. now split.
Qed.

Lemma get_parent_inv n p (w w' : world) :
  get_parent n w = (Ok p, w') → w' = w.
Proof.
  unfold get_parent. destruct n as [n|]; [|discriminate].
  destruct (nodes w !! n); [|discriminate]. now intros [= _ <-].
Qed.

Lemma find_inv n lab r (w w' : world) :
  find n lab w = (r, w') → w' = w.
Proof. intros E. pose proof (find_state n lab w) as Hs. now rewrite E in Hs. Qed.

Lemma edge_inv `{DolloNodeMethods}
    (labels : list string) (i1 i2 : loc) (w w' : world)
    (b : bool) (c1 c2 : loc) :
  dollo_crossover_exchange_edge labels i1 i2 w = (Ok (b, c1, c2), w') →
  (tree_is_equal (nodes w) i1 (Some i2) = Ok true
   ∧ b = false ∧ c1 = i1 ∧ c2 = i2 ∧ w' = w)
  ∨ (tree_is_equal (nodes w) i1 (Some i2) = Ok false
     ∧ b = true
     ∧ ∃ w1 w2,
         deepcopy i1 w = (Ok c1, w1) ∧ deepcopy i2 w1 = (Ok c2, w2)
         ∧ w' = advance (advance w2)).
Proof.
  unfold dollo_crossover_exchange_edge. intros E.
  rewrite bind_pure in E by reflexivity. rewrite query_run in E.
  simpl fst in E.
  destruct (tree_is_equal (nodes w) i1 (Some i2)) as [[|]|]; try discriminate.
  - left. injection E as <- <- <- <-. auto.
  - right. split; [reflexivity|].
    apply bind_inv in E as (a1 & w1 & D1 & E).
    apply bind_inv in E as (a2 & w2 & D2 & E).
    apply bind_inv in E as (lab & w3 & R1 & E).
    apply bind_inv in E as (r01 & w4 & R2 & E).
    apply bind_inv in E as (desc & w5 & R3 & E).
    apply random_choice_inv in R1 as [-> _].
    injection R2 as _ <-. injection R3 as _ <-.
    destruct (label_is_plus r01 labels desc).
    + apply bind_inv in E as (n1 & w6 & F1 & E).
      apply bind_inv in E as (n2 & w7 & F2 & E).
      apply bind_inv in E as (q1 & w8 & G1 & E).
      apply bind_inv in E as (q2 & w9 & G2 & E).
      apply find_inv in F1 as ->. apply find_inv in F2 as ->.
      apply get_parent_inv in G1 as ->. apply get_parent_inv in G2 as ->.
      injection E as <- <- <- <-. split; [reflexivity|]. now exists w1, w2.
    + injection E as <- <- <- <-. split; [reflexivity|]. now exists w1, w2.
Qed.

(** X14.  Whenever the edge exchange returns, it has exchanged nothing:
    on structurally equal trees it returns False with the inputs and the
    world as it was; otherwise it returns True with the two deep copies,
    the store being the old one followed by these copies exactly as
    [copy.deepcopy] made them, after two draws from the generator. *)
Theorem edge_exchange_swaps_nothing `{DolloNodeMethods}
    (labels : list string) (i1 i2 : loc) (w w' : world)
    (b : bool) (c1 c2 : loc) :
  dollo_crossover_exchange_edge labels i1 i2 w = (Ok (b, c1, c2), w') →
  (tree_is_equal (nodes w) i1 (Some i2) = Ok true
   ∧ b = false ∧ c1 = i1 ∧ c2 = i2 ∧ w' = w)
  ∨ (tree_is_equal (nodes w) i1 (Some i2) = Ok false
     ∧ b = true
     ∧ ∃ w1 w2,
         deepcopy i1 w = (Ok c1, w1) ∧ deepcopy i2 w1 = (Ok c2, w2)
         ∧ w' = advance (advance w2)).
Proof. apply edge_inv. Qed.

Lemma edge_exchange_swaps_nothing_witness :
  (tree_is_equal (DolloNodeMethods := Reference.methods)
     (nodes Reference.sample_world) 0%nat (Some 4%nat) = Ok true
   ∧ true = false ∧ 9%nat = 0%nat ∧ 13%nat = 4%nat
   ∧ snd (dollo_crossover_exchange_edge (H := Reference.methods)
            ["a"; "b"; "c"]%string 0%nat 4%nat Reference.sample_world)
     = Reference.sample_world)
  ∨ (tree_is_equal (DolloNodeMethods := Reference.methods)
       (nodes Reference.sample_world) 0%nat (Some 4%nat) = Ok false
     ∧ true = true
     ∧ ∃ w1 w2,
         deepcopy 0%nat Reference.sample_world = (Ok 9%nat, w1)
         ∧ deepcopy 4%nat w1 = (Ok 13%nat, w2)
         ∧ snd (dollo_crossover_exchange_edge (H := Reference.methods)
                  ["a"; "b"; "c"]%string 0%nat 4%nat
                  Reference.sample_world)
           = advance (advance w2)).
Proof.
  apply (edge_exchange_swaps_nothing (H := Reference.methods)
           ["a"; "b"; "c"]%string 0%nat 4%nat Reference.sample_world).
  vm_compute. reflexivity.
Defined.

(** X15.  On two existing trees that are not structurally equal, the edge
    exchange with an empty label list raises IndexError: [random.choice]
    has nothing to choose from. *)
Theorem edge_exchange_without_labels `{DolloNodeMethods}
    (i1 i2 : loc) (w : world) :
  is_Some (nodes w !! i1) → is_Some (nodes w !! i2) →
  tree_is_equal (nodes w) i1 (Some i2) = Ok false →
  fst (dollo_crossover_exchange_edge [] i1 i2 w) = Raise IndexError.
Proof.
  intros [nd1 V1] V2 Ene. unfold dollo_crossover_exchange_edge.
  rewrite (bind_ok _ _ w w false) by (rewrite query_run; now rewrite Ene).
  destruct (deepcopy_run w i1 nd1 V1) as (ρ1 & m1 & D1 & _).
  destruct (valid_after_copy _ _ _ _ i2 D1 V2) as [[nd2 V2'] _].
  destruct (deepcopy_run _ i2 nd2 V2') as (ρ2 & m2 & D2 & _).
  rewrite (bind_ok _ _ _ _ _ D1), (bind_ok _ _ _ _ _ D2).
  reflexivity.
Qed.

Lemma edge_exchange_without_labels_witness :
  fst (dollo_crossover_exchange_edge (H := Reference.methods)
         [] 0%nat 4%nat Reference.sample_world)
  = Raise IndexError.
Proof.
  apply (edge_exchange_without_labels (H := Reference.methods)
           0%nat 4%nat Reference.sample_world).
  - eexists. reflexivity.
  - eexists. reflexivity.
  - vm_compute. reflexivity.
Defined.

(** ** The offspring are new objects *)

Lemma subtrees_inv `{DolloNodeMethods}
    (labels : list string) (i1 i2 : loc) (w w' : world)
    (s : bool) (a b : loc) :
  dollo_crossover_exchange_subtrees labels i1 i2 w = (Ok (s, a, b), w') →
  (tree_is_equal (nodes w) i1 (Some i2) = Ok true
   ∧ s = false ∧ a = i1 ∧ b = i2 ∧ w' = w)
  ∨ (tree_is_equal (nodes w) i1 (Some i2) = Ok false
     ∧ ∃ w1 w2, deepcopy i1 w = (Ok a, w1) ∧ deepcopy i2 w1 = (Ok b, w2)).
Proof.
  unfold dollo_crossover_exchange_subtrees. intros E.
  rewrite bind_pure in E by reflexivity. rewrite query_run in E.
  simpl fst in E.
  destruct (tree_is_equal (nodes w) i1 (Some i2)) as [[|]|]; try discriminate.
  - left. injection E as <- <- <- <-. auto.
  - right. split; [reflexivity|].
    apply bind_inv in E as (a1 & w1 & D1 & E).
    apply bind_inv in E as (a2 & w2 & D2 & E).
    apply bind_inv in E as (p1 & w3 & _ & E).
    apply bind_inv in E as (p2 & w4 & _ & E).
    apply bind_inv in E as (r & w5 & _ & E).
    injection E as _ <- <- _. now exists w1, w2.
Qed.

(** two copies made one after the other are two new objects *)
Lemma two_copies_new (w0 w w1 w2 : world) i1 i2 c1 c2 ext :
  nodes w = nodes w0 ++ ext →
  deepcopy i1 w = (Ok c1, w1) → deepcopy i2 w1 = (Ok c2, w2) →
  made_after w0 c1 ∧ made_after w0 c2 ∧ c1 ≠ c2.
Proof.
  intros Hext D1 D2.
  apply deepcopy_inv in D1 as (nd1 & ρ1 & m1 & _ & -> & ->).
  apply deepcopy_inv in D2 as (nd2 & ρ2 & m2 & _ & -> & _).
  unfold made_after. simpl. rewrite Hext, !length_app. simpl.
  repeat split; lia.
Qed.

(** X16.  The offspring that the orchestrator returns are never the
    parents: for parents that exist, whenever it returns, the two
    offspring are two different objects that did not exist before the
    call. *)
Theorem crossover_returns_new_objects `{DolloNodeMethods}
    (labels : list string) (i1 i2 : loc) (w w' : world) (o1 o2 : loc) :
  is_Some (nodes w !! i1) → is_Some (nodes w !! i2) →
  crossover_dollo_node_individuals labels i1 i2 w = (Ok (o1, o2), w') →
  made_after w o1 ∧ made_after w o2 ∧ o1 ≠ o2
  ∧ o1 ≠ i1 ∧ o1 ≠ i2 ∧ o2 ≠ i1 ∧ o2 ≠ i2.
Proof.
  intros V1 V2 E.
  assert (Hnew : made_after w o1 ∧ made_after w o2 ∧ o1 ≠ o2).
  { unfold crossover_dollo_node_individuals in E.
    apply bind_inv in E as ([[s a] b] & w1 & E1 & E).
    destruct s.
    - injection E as <- <- _.
      apply subtrees_inv in E1 as [(_ & Hs & _)|(_ & wa & wb & D1 & D2)];
        [discriminate|].
      eapply (two_copies_new w w); [symmetry; apply app_nil_r| |];
        eassumption.
    - apply subtrees_false in E1 as [ext Hext].
      apply bind_inv in E as ([[s' a'] b'] & w2 & E2 & E).
      destruct s'.
      + injection E as <- <- _.
        apply edge_inv in E2 as [(_ & Hs & _)|(_ & _ & wa & wb & D1 & D2 & _)];
          [discriminate|].
        eapply (two_copies_new w w1); eassumption.
      + apply edge_false in E2 as ->.
        apply bind_inv in E as (c1 & w3 & D1 & E).
        apply bind_inv in E as (c2 & w4 & D2 & E).
        injection E as <- <- _.
        eapply (two_copies_new w w1); eassumption. }
  destruct Hnew as (M1 & M2 & Hne).
  repeat split; try assumption; now apply (made_after_ne w).
Qed.

Lemma crossover_returns_new_objects_witness :
  made_after Reference.chain_world 8%nat
  ∧ made_after Reference.chain_world 12%nat ∧ 8%nat ≠ 12%nat
  ∧ 8%nat ≠ 0%nat ∧ 8%nat ≠ 4%nat ∧ 12%nat ≠ 0%nat ∧ 12%nat ≠ 4%nat.
Proof.
  apply (crossover_returns_new_objects (H := Reference.methods)
           ["c"; "b"; "a"]%string 0%nat 4%nat Reference.chain_world
           (snd (crossover_dollo_node_individuals (H := Reference.methods)
                   ["c"; "b"; "a"]%string 0%nat 4%nat
                   Reference.chain_world))).
  - eexists. reflexivity.
  - eexists. reflexivity.
  - vm_compute. reflexivity.
Defined.

(** ** Labels that are missing *)

Lemma find_none (w : world) n lab :
  filter (has_label (nodes w) lab) (PreOrderIter (nodes w) n) = [] →
  find n lab w = (Ok None, w).
Proof. intros E. unfold find. now rewrite E. Qed.

(** The coin is tossed in binary64: 2/3 is rounded down to
    6004799503160661 / 2^53, so a draw of that value is not below it,
    though it is below the rational 2/3. *)
Lemma coin_at_the_boundary :
  label_is_plus (PrimFloat.div (float_of_Z 6004799503160661)
                               (float_of_Z (2 ^ 53)))
                ["y"; "z"]%string [1; 2]%nat = false
  ∧ label_is_plus (PrimFloat.div (float_of_Z 6004799503160660)
                                 (float_of_Z (2 ^ 53)))
                  ["y"; "z"]%string [1; 2]%nat = true
  ∧ (6004799503160661 # 2 ^ 53 < 2 # 3)%Q.
Proof. repeat split; vm_compute; reflexivity. Qed.

(** X20.  On trees that are not structurally equal, when the coin of the
    edge exchange says plus, no node of the copy of the first tree carries
    the plus variant of the chosen label and at most one node of the copy
    of the second tree does, the first lookup yields None and the edge
    exchange raises AttributeError when it asks for the parent of that
    node. *)
Theorem edge_exchange_missing_label `{DolloNodeMethods}
    (labels : list string) (i1 i2 : loc) (w w1 w2 w3 w4 : world)
    (c1 c2 : loc) (lab : string) (random01 : PrimFloat.float) :
  tree_is_equal (nodes w) i1 (Some i2) = Ok false →
  deepcopy i1 w = (Ok c1, w1) →
  deepcopy i2 w1 = (Ok c2, w2) →
  random_choice labels w2 = (Ok lab, w3) →
  random_random w3 = (Ok random01, w4) →
  label_is_plus random01 labels (tail (PreOrderIter (nodes w2) c1)) = true →
  filter (has_label (nodes w2) (lab +:+ "+")%string)
         (PreOrderIter (nodes w2) c1) = [] →
  (length (filter (has_label (nodes w2) (lab +:+ "+")%string)
                  (PreOrderIter (nodes w2) c2)) <= 1)%nat →
  dollo_crossover_exchange_edge labels i1 i2 w = (Raise AttributeError, w4).
Proof.
  intros Ene D1 D2 R1 R2 Hplus Hnone Hone.
  unfold dollo_crossover_exchange_edge.
  rewrite (bind_ok _ _ w w false) by (rewrite query_run; now rewrite Ene).
  rewrite (bind_ok _ _ _ _ _ D1), (bind_ok _ _ _ _ _ D2).
  rewrite (bind_ok _ _ _ _ _ R1), (bind_ok _ _ _ _ _ R2).
  pose proof (random_choice_inv _ _ _ _ R1) as [-> _].
  injection R2 as _ <-.
  rewrite (bind_ok _ _ (advance (advance w2)) (advance (advance w2))
             (tail (PreOrderIter (nodes w2) c1))) by reflexivity.
  rewrite Hplus.
  rewrite (bind_ok _ _ _ _ _ (find_none (advance (advance w2)) c1 _ Hnone)).
  assert (F2 : ∃ node2, find c2 (lab +:+ "+")%string (advance (advance w2))
                        = (Ok node2, advance (advance w2))).
  { unfold find. simpl nodes.
    destruct (filter (has_label (nodes w2) (lab +:+ "+")%string)
                     (PreOrderIter (nodes w2) c2)) as [|x [|y l]];
      [eauto|eauto|simpl in Hone; lia]. }
  destruct F2 as [node2 F2]. now rewrite (bind_ok _ _ _ _ _ F2).
Qed.

Lemma edge_exchange_missing_label_witness :
  dollo_crossover_exchange_edge (H := Reference.methods)
    ["z"]%string 0%nat 4%nat Reference.sample_world
  = (Raise AttributeError,
     advance (advance
       (snd (deepcopy 4%nat (snd (deepcopy 0%nat Reference.sample_world)))))).
Proof.
  apply (edge_exchange_missing_label (H := Reference.methods)
           ["z"]%string 0%nat 4%nat Reference.sample_world
           (snd (deepcopy 0%nat Reference.sample_world))
           (snd (deepcopy 4%nat (snd (deepcopy 0%nat Reference.sample_world))))
           (advance (snd (deepcopy 4%nat
                            (snd (deepcopy 0%nat Reference.sample_world)))))
           _ 9%nat 13%nat "z"%string
           (PrimFloat.div (float_of_Z 1) (float_of_Z (2 ^ 53)))).
  - vm_compute. reflexivity.
  - reflexivity.
  - reflexivity.
  - reflexivity.
  - reflexivity.
  - vm_compute. reflexivity.
  - vm_compute. reflexivity.
  - vm_compute. lia.
Defined.

(** X21.  With an empty label list, on two existing trees that are not
    structurally equal the subtree exchange fails with the two copies, as
    no label is tried; when the equality test answers the same after the
    copies were made, the edge exchange then raises IndexError and the
    orchestrator returns no offspring. *)
Theorem crossover_without_labels `{DolloNodeMethods}
    (i1 i2 : loc) (w w1 w2 : world) (c1 c2 : loc) :
  tree_is_equal (nodes w) i1 (Some i2) = Ok false →
  deepcopy i1 w = (Ok c1, w1) →
  deepcopy i2 w1 = (Ok c2, w2) →
  tree_is_equal (nodes w2) i1 (Some i2) = Ok false →
  dollo_crossover_exchange_subtrees [] i1 i2 w = (Ok (false, c1, c2), w2)
  ∧ fst (crossover_dollo_node_individuals [] i1 i2 w) = Raise IndexError.
Proof.
  intros Ene D1 D2 Ene2.
  assert (E1 : dollo_crossover_exchange_subtrees [] i1 i2 w
               = (Ok (false, c1, c2), w2)).
  { unfold dollo_crossover_exchange_subtrees.
    rewrite (bind_ok _ _ w w false) by (rewrite query_run; now rewrite Ene).
    now rewrite (bind_ok _ _ _ _ _ D1), (bind_ok _ _ _ _ _ D2). }
  split; [exact E1|].
  unfold crossover_dollo_node_individuals.
  rewrite (bind_ok _ _ _ _ _ E1). cbv beta iota.
  pose proof (deepcopy_inv _ _ _ _ D1) as (nd1 & ρ1 & m1 & V1 & _ & Hw1).
  pose proof (deepcopy_inv _ _ _ _ D2) as (nd2 & ρ2 & m2 & V2 & _ & Hw2).
  assert (V1' : is_Some (nodes w2 !! i1)).
  { subst w2 w1. simpl. exists nd1. rewrite <- app_assoc.
    now apply lookup_app_l_Some. }
  assert (V2' : is_Some (nodes w2 !! i2)).
  { subst w2. simpl. exists nd2. now apply lookup_app_l_Some. }
  assert (Hedge : fst (dollo_crossover_exchange_edge [] i1 i2 w2)
                  = Raise IndexError).
  { destruct V1' as [n1 V1']. unfold dollo_crossover_exchange_edge.
    rewrite (bind_ok _ _ w2 w2 false) by (rewrite query_run; now rewrite Ene2).
    destruct (deepcopy_run w2 i1 n1 V1') as (σ1 & k1 & C1 & _).
    destruct (valid_after_copy _ _ _ _ i2 C1 V2') as [[n2 V2''] _].
    destruct (deepcopy_run _ i2 n2 V2'') as (σ2 & k2 & C2 & _).
    rewrite (bind_ok _ _ _ _ _ C1), (bind_ok _ _ _ _ _ C2).
    reflexivity. }
  destruct (dollo_crossover_exchange_edge [] i1 i2 w2) as [r w3] eqn:E2.
  simpl in Hedge. subst r.
  now rewrite (bind_raise _ _ _ _ _ E2).
Qed.


Lemma crossover_without_labels_witness :
  dollo_crossover_exchange_subtrees (H := Reference.methods)
    [] 0%nat 4%nat Reference.sample_world
  = (Ok (false, 9%nat, 13%nat),
     snd (deepcopy 4%nat (snd (deepcopy 0%nat Reference.sample_world))))
  ∧ fst (crossover_dollo_node_individuals (H := Reference.methods)
           [] 0%nat 4%nat Reference.sample_world)
    = Raise IndexError.
Proof.
  apply (crossover_without_labels (H := Reference.methods)
           0%nat 4%nat Reference.sample_world
           (snd (deepcopy 0%nat Reference.sample_world))).
  - vm_compute. reflexivity.
  - reflexivity.
  - reflexivity.
  - vm_compute. reflexivity.
Defined.

(** ** The mutations *)

(** X17.  The mutations that are not attempted (remove, promote, demote)
    do the same on an individual that exists: each reports failure and
    returns the deep copy of the individual, a new object with the label,
    the tag and as many children as the individual; the nodes that existed
    are as they were and nothing is drawn from the generator. *)
Theorem unattempted_mutations
    (labels : list string) (k level : nat) (i : loc) (w : world)
    (nd : DolloNode) :
  nodes w !! i = Some nd →
  ∃ ρ ext,
    dollo_mutation_node_remove labels k i w
    = (Ok (false, length (nodes w)),
       set_nodes (nodes w ++ rename ρ nd :: ext) w)
    ∧ dollo_mutation_node_promote labels k level i w
      = dollo_mutation_node_remove labels k i w
    ∧ dollo_mutation_node_demote labels k level i w
      = dollo_mutation_node_remove labels k i w.
Proof.
  intros E. destruct (deepcopy_run w i nd E) as (ρ & ext & D & _).
  exists ρ, ext. split; [|split; reflexivity].
  unfold dollo_mutation_node_remove. now rewrite (bind_ok _ _ _ _ _ D).
Qed.

Lemma unattempted_mutations_witness :
  ∃ ρ ext,
    dollo_mutation_node_remove ["a"]%string 2 8%nat Reference.sample_world
    = (Ok (false, length (nodes Reference.sample_world)),
       set_nodes (nodes Reference.sample_world
                  ++ rename ρ (mkDolloNode "--" [false; false; false]
                                 None []) :: ext)
                 Reference.sample_world)
    ∧ dollo_mutation_node_promote ["a"]%string 2 1 8%nat
        Reference.sample_world
      = dollo_mutation_node_remove ["a"]%string 2 8%nat
          Reference.sample_world
    ∧ dollo_mutation_node_demote ["a"]%string 2 1 8%nat
        Reference.sample_world
      = dollo_mutation_node_remove ["a"]%string 2 8%nat
          Reference.sample_world.
Proof.
  apply (unattempted_mutations ["a"]%string 2 1 8%nat
           Reference.sample_world).
  reflexivity.
Defined.

Lemma random_choice_nil {A} (w : world) :
  random_choice ([] : list A) w = (Raise IndexError, w).
Proof. reflexivity. Qed.

Lemma leaf_copy_descendants (w : world) nd ρ ext :
  children nd = [] →
  tail (PreOrderIter (nodes w ++ rename ρ nd :: ext) (length (nodes w)))
  = [].
Proof.
  intros Hc. unfold PreOrderIter. rewrite length_app. simpl length.
  replace (length (nodes w) + S (length ext))%nat
    with (S (length (nodes w) + length ext)) by lia.
  simpl preorder. rewrite list_lookup_middle by reflexivity.
  simpl. now rewrite Hc.
Qed.

(** X18.  On an individual that exists, the add mutation raises
    IndexError when the label list is empty or when the individual is a
    single node: [random.choice] has nothing to choose from; the
    orchestrator raises with it. *)
Theorem add_raises_index_error
    (labels : list string) (k : nat) (i : loc) (w : world)
    (nd : DolloNode) :
  nodes w !! i = Some nd →
  labels = [] ∨ children nd = [] →
  fst (dollo_mutation_node_add labels k i w) = Raise IndexError
  ∧ fst (mutate_dollo_node_individual labels k i w) = Raise IndexError.
Proof.
  intros E Hcase.
  assert (Hadd : ∃ w', dollo_mutation_node_add labels k i w
                       = (Raise IndexError, w')).
  { destruct (deepcopy_run w i nd E) as (ρ & ext & D & _).
    unfold dollo_mutation_node_add. rewrite (bind_ok _ _ _ _ _ D).
    set (w1 := set_nodes (nodes w ++ rename ρ nd :: ext) w).
    rewrite (bind_ok _ _ w1 w1
               (tail (PreOrderIter (nodes w1) (length (nodes w)))))
      by reflexivity.
    destruct (tail (PreOrderIter (nodes w1) (length (nodes w))))
      as [|d ds] eqn:Edesc.
    - eexists. now rewrite (bind_raise _ _ _ _ _ (random_choice_nil w1)).
    - destruct Hcase as [->|Hleaf].
      + destruct (random_choice_run (d :: ds) w1 ltac:(discriminate))
          as (x & _ & R).
        rewrite (bind_ok _ _ _ _ _ R).
        eexists. now rewrite (bind_raise _ _ _ _ _ (random_choice_nil _)).
      + exfalso. unfold w1 in Edesc. simpl nodes in Edesc.
        rewrite leaf_copy_descendants in Edesc by exact Hleaf.
        discriminate. }
  destruct Hadd as [w' Hadd]. split; [now rewrite Hadd|].
  unfold mutate_dollo_node_individual.
  now rewrite (bind_raise _ _ _ _ _ Hadd).
Qed.

Lemma add_raises_index_error_witness :
  fst (dollo_mutation_node_add [] 2 0%nat Reference.sample_world)
  = Raise IndexError
  ∧ fst (mutate_dollo_node_individual [] 2 0%nat Reference.sample_world)
    = Raise IndexError.
Proof.
  apply (add_raises_index_error [] 2 0%nat Reference.sample_world
           (mkDolloNode "--" [false; false; false] None [1; 3]%nat)).
  - reflexivity.
  - now left.
Defined.

(** X19.  Whenever the add mutation returns, it reports failure, the
    individual it returns is a new object, the label list was not empty
    and three draws were taken from the generator. *)
Theorem add_reports_failure
    (labels : list string) (k : nat) (i : loc) (w w' : world)
    (success : bool) (c : loc) :
  dollo_mutation_node_add labels k i w = (Ok (success, c), w') →
  success = false ∧ made_after w c ∧ labels ≠ []
  ∧ draws w' = draws w ∧ drawn w' = (3 + drawn w)%nat.
Proof.
  unfold dollo_mutation_node_add. intros E.
  apply bind_inv in E as (c0 & w1 & D & E).
  apply bind_inv in E as (desc & w2 & Q1 & E).
  apply bind_inv in E as (rp & w3 & R1 & E).
  apply bind_inv in E as (rl & w4 & R2 & E).
  apply bind_inv in E as (r01 & w5 & R3 & E).
  apply bind_inv in E as (desc' & w6 & Q2 & E).
  injection Q1 as _ <-. apply random_choice_inv in R1 as [-> _].
  apply random_choice_inv in R2 as [-> Hlab].
  injection R3 as _ <-. injection Q2 as _ <-.
  injection E as <- <- <-.
  apply deepcopy_inv in D as (nd & ρ & ext & _ & -> & ->).
  unfold made_after. simpl. repeat split; auto.
Qed.

Lemma add_reports_failure_witness :
  false = false ∧ made_after Reference.sample_world 9%nat
  ∧ ["a"]%string ≠ []
  ∧ draws (snd (dollo_mutation_node_add ["a"]%string 2 0%nat
                  Reference.sample_world))
    = draws Reference.sample_world
  ∧ drawn (snd (dollo_mutation_node_add ["a"]%string 2 0%nat
                  Reference.sample_world))
    = (3 + drawn Reference.sample_world)%nat.
Proof.
  apply (add_reports_failure ["a"]%string 2 0%nat Reference.sample_world
           _ false 9%nat).
  vm_compute. reflexivity.
Defined.
